(** * Perceptual hashing, near-duplicate search, image features and the
      screenshot heuristic of [src/lib/perceptual-hash.ts]

    The TypeScript functions are embedded as Rocq functions that keep the
    names of the source.  JavaScript numbers are modelled by the type
    [number] below: finite values are exact rationals, and the three
    non-finite values of IEEE-754 are kept, because the source produces and
    tests them ([Infinity] as the distance of incomparable hashes, [NaN]
    from [0/0] and from reads outside a typed array).  Rounding of finite
    floating-point results is not modelled, except where the source relies on
    it: [parseInt] rounds the parsed integer to the nearest binary64 value,
    and the screenshot heuristic, which compares ratios and sums of rounded
    values with thresholds, computes the quantities it tests in binary64
    (module [F64]); only its score, a sum of at most six of the constants
    0.20, 0.15, 0.25, 0.05, 0.15, 0.10 and 0.10, is kept as an exact
    rational. *)

From Stdlib Require Import ZArith QArith Qround Qabs Qminmax List String Ascii Bool.
From Stdlib Require Import Lia Lqa Permutation Sorted Strings.Byte SpecFloat.
Import ListNotations.

Local Open Scope Z_scope.

(** ** JavaScript numbers *)

Module JS.

Inductive number : Type :=
| Fin (q : Q)        (* a finite value; +0 and -0 are both [Fin 0] *)
| Infinity
| NegInfinity
| NaN.

Definition ofZ (z : Z) : number := Fin (inject_Z z).
Definition ofNat (n : nat) : number := ofZ (Z.of_nat n).

(** Sign of a finite value, as used by the IEEE rules for products and
    quotients with a non-finite or zero operand. *)
Definition Qsign (q : Q) : Z := Z.sgn (Qnum q).

Definition neg (a : number) : number :=
  match a with
  | Fin q => Fin (- q)
  | Infinity => NegInfinity
  | NegInfinity => Infinity
  | NaN => NaN
  end.

Definition add (a b : number) : number :=
  match a, b with
  | NaN, _ | _, NaN => NaN
  | Fin x, Fin y => Fin (x + y)
  | Infinity, NegInfinity | NegInfinity, Infinity => NaN
  | Infinity, _ | _, Infinity => Infinity
  | NegInfinity, _ | _, NegInfinity => NegInfinity
  end.

Definition sub (a b : number) : number := add a (neg b).

Definition signed_infinity (s : Z) : number :=
  match s with
  | Z0 => NaN
  | Zpos _ => Infinity
  | Zneg _ => NegInfinity
  end.

Definition sign (a : number) : Z :=
  match a with
  | Fin q => Qsign q
  | Infinity => 1
  | NegInfinity => -1
  | NaN => 0
  end.

Definition mul (a b : number) : number :=
  match a, b with
  | NaN, _ | _, NaN => NaN
  | Fin x, Fin y => Fin (x * y)
  | _, _ => signed_infinity (sign a * sign b)
  end.

Definition div (a b : number) : number :=
  match a, b with
  | NaN, _ | _, NaN => NaN
  | Fin x, Fin y =>
      if Qeq_bool y 0 then signed_infinity (Qsign x) else Fin (x / y)
  | Fin _, _ => Fin 0
  | _, Fin y => signed_infinity (sign a * (if Qeq_bool y 0 then 1 else Qsign y))
  | _, _ => NaN
  end.

(** [a < b]; every comparison with [NaN] is false. *)
Definition lt (a b : number) : bool :=
  match a, b with
  | NaN, _ | _, NaN => false
  | Fin x, Fin y => negb (Qle_bool y x)
  | NegInfinity, NegInfinity => false
  | NegInfinity, _ => true
  | _, Infinity => match a with Infinity => false | _ => true end
  | _, _ => false
  end.

Definition gt (a b : number) : bool := lt b a.

(** [a <= b] *)
Definition le (a b : number) : bool :=
  match a, b with
  | NaN, _ | _, NaN => false
  | Fin x, Fin y => Qle_bool x y
  | NegInfinity, _ => true
  | _, Infinity => true
  | _, _ => false
  end.

(** [a === b] on numbers *)
Definition eq (a b : number) : bool :=
  match a, b with
  | Fin x, Fin y => Qeq_bool x y
  | Infinity, Infinity | NegInfinity, NegInfinity => true
  | _, _ => false
  end.

Definition isNaN (a : number) : bool :=
  match a with NaN => true | _ => false end.

Definition isFinite (a : number) : bool :=
  match a with Fin _ => true | _ => false end.

(** The rational value of a finite number. *)
Definition toQ (a : number) : Q :=
  match a with Fin q => q | _ => 0%Q end.

(** The order of finite numbers. *)
Definition numLe (a b : number) : Prop := (toQ a <= toQ b)%Q.

(** Equality of numbers as values: rationals up to [Qeq]. *)
Definition same (a b : number) : Prop :=
  match a, b with
  | Fin x, Fin y => (x == y)%Q
  | Infinity, Infinity | NegInfinity, NegInfinity | NaN, NaN => True
  | _, _ => False
  end.

(** *** The [Math] object *)

Definition Math_floor (a : number) : number :=
  match a with Fin q => ofZ (Qfloor q) | _ => a end.

(** [Math.round]: the nearest integer, ties towards [+Infinity]. *)
Definition Math_round (a : number) : number :=
  match a with Fin q => ofZ (Qfloor (q + (1 # 2))%Q) | _ => a end.

Definition Math_abs (a : number) : number :=
  match a with
  | Fin q => Fin (Qabs q)
  | NegInfinity => Infinity
  | _ => a
  end.

Definition Math_min (a b : number) : number :=
  if isNaN a || isNaN b then NaN else if lt b a then b else a.

Definition Math_max (a b : number) : number :=
  if isNaN a || isNaN b then NaN else if lt a b then b else a.

(** [Math.max(...xs)]: [-Infinity] for no argument. *)
Definition Math_max_list (xs : list number) : number :=
  fold_left Math_max xs NegInfinity.

(** [Math.pow(a, 2)] *)
Definition Math_pow2 (a : number) : number := mul a a.

(** The transcendental part of [Math] is a parameter of the development:
    [cos] and [sqrt] on finite arguments, and the constant [PI]. *)
Class MathLib : Type := {
  cosQ : Q -> Q;
  sqrtQ : Q -> Q;
  PI : Q;
  sqrtQ_zero : forall q, (q == 0)%Q -> (sqrtQ q == 0)%Q;
  sqrtQ_pos : forall q, (0 < q)%Q -> (0 < sqrtQ q)%Q
}.

Definition Math_cos `{MathLib} (a : number) : number :=
  match a with Fin q => Fin (cosQ q) | _ => NaN end.

Definition Math_sqrt `{MathLib} (a : number) : number :=
  match a with
  | Fin q => if Qle_bool 0 q then Fin (sqrtQ q) else NaN
  | Infinity => Infinity
  | _ => NaN
  end.

(** *** Loops, arrays and typed arrays *)

(** The indices visited by [for (let i = start; i < stop; i += step)], for a
    positive [step]; [stop - start] iterations are always enough. *)
Fixpoint rangeFuel (fuel : nat) (i stop step : Z) : list Z :=
  match fuel with
  | O => []
  | S f => if i <? stop then i :: rangeFuel f (i + step) stop step else []
  end.

Definition range (start stop step : Z) : list Z :=
  rangeFuel (Z.to_nat (stop - start)) start stop step.

(** Reading [a[i]] where the value is then used as a number: an index outside
    the array yields [undefined], which arithmetic and comparisons turn
    into [NaN]. *)
Definition Array_get (a : list number) (i : Z) : number :=
  if i <? 0 then NaN
  else match nth_error a (Z.to_nat i) with Some v => v | None => NaN end.

(** A [Uint8ClampedArray] is a list of bytes. *)
Definition byteValue (b : byte) : Z := Z.of_N (Byte.to_N b).

Definition Uint8_read (a : list byte) (i : Z) : option byte :=
  if i <? 0 then None else nth_error a (Z.to_nat i).

Definition Uint8_get (a : list byte) (i : Z) : number :=
  match Uint8_read a i with Some b => ofZ (byteValue b) | None => NaN end.

(** [a[i]++] on an array of counters, [i] being any number: only an index
    inside the array changes one of its elements (the source never
    increments past the end; a negative or [NaN] index sets a property that
    is not an element). *)
Fixpoint incrementNth (n : nat) (a : list number) : list number :=
  match a, n with
  | [], _ => []
  | v :: a', O => add v (ofZ 1) :: a'
  | v :: a', S n' => v :: incrementNth n' a'
  end.

Definition Array_increment (a : list number) (i : number) : list number :=
  match i with
  | Fin q =>
      if Qeq_bool q (inject_Z (Qfloor q)) && (0 <=? Qfloor q)
      then incrementNth (Z.to_nat (Qfloor q)) a
      else a
  | _ => a
  end.

(** [Array.prototype.sort(comparefn)]: a stable insertion sort.  As in
    SortCompare, [x] stays before [y] unless [comparefn(x, y) > 0] (a [NaN]
    result counts as [+0]). *)
Section Sort.
Context {A : Type}.
Variable comparefn : A -> A -> number.

Fixpoint sort_insert (x : A) (l : list A) : list A :=
  match l with
  | [] => [x]
  | y :: l' =>
      if gt (comparefn x y) (Fin 0) then y :: sort_insert x l' else x :: l
  end.

Definition Array_sort (l : list A) : list A := fold_right sort_insert [] l.
End Sort.

(** *** Strings and conversions between numbers and strings *)

Definition charCode (c : ascii) : Z := Z.of_nat (nat_of_ascii c).

(** The white space and line terminators of the ASCII range. *)
Definition isWhiteSpace (c : ascii) : bool :=
  let n := charCode c in ((9 <=? n) && (n <=? 13)) || (n =? 32).

Fixpoint trimStart (s : string) : string :=
  match s with
  | String c s' => if isWhiteSpace c then trimStart s' else s
  | EmptyString => s
  end.

(** Value of a digit character in radices up to 36. *)
Definition digitValue (c : ascii) : option Z :=
  let n := charCode c in
  if (48 <=? n) && (n <=? 57) then Some (n - 48)
  else if (97 <=? n) && (n <=? 122) then Some (n - 87)
  else if (65 <=? n) && (n <=? 90) then Some (n - 55)
  else None.

(** The value of the longest prefix of [s] made of radix-[R] digits; the
    accumulator is [None] until a digit has been read. *)
Fixpoint parseDigits (R : Z) (s : string) (acc : option Z) : option Z :=
  match s with
  | EmptyString => acc
  | String c s' =>
      match digitValue c with
      | Some d =>
          if d <? R
          then parseDigits R s'
                 (Some (match acc with Some a => a | None => 0 end * R + d))
          else acc
      | None => acc
      end
  end.

(** The binary64 value nearest to the integer [n >= 0] (ties to even):
    integers below [2^53] are exact, larger ones keep 53 significant bits,
    and the result overflows to [Infinity] from [2^1024]. *)
Definition roundToDouble (n : Z) : number :=
  if n <? 2 ^ 53 then ofZ n
  else
    let e := Z.log2 n - 52 in
    let q := Z.shiftr n e in
    let r := n - Z.shiftl q e in
    let half := Z.shiftl 1 (e - 1) in
    let q' := if (half <? r) || ((r =? half) && Z.odd q) then q + 1 else q in
    let v := Z.shiftl q' e in
    if v <? 2 ^ 1024 then ofZ v else Infinity.

(** [parseInt(str, radix)] for an explicit radix between 2 and 36. *)
Definition parseInt (str : string) (radix : Z) : number :=
  let S := trimStart str in
  let negative := match S with String "-" _ => true | _ => false end in
  let S := match S with
           | String "-" r | String "+" r => r
           | _ => S
           end in
  let S := if radix =? 16
           then match S with
                | String "0" (String "x" r) | String "0" (String "X" r) => r
                | _ => S
                end
           else S in
  match parseDigits radix S None with
  | None => NaN
  | Some m => if negative then neg (roundToDouble m) else roundToDouble m
  end.

(** Lowercase digit of value [d < 36]. *)
Definition digitChar (d : Z) : ascii :=
  ascii_of_nat (Z.to_nat (if d <? 10 then 48 + d else 87 + d)).

Fixpoint digitsOf (fuel : nat) (radix n : Z) (acc : string) : string :=
  match fuel with
  | O => acc
  | S f =>
      let acc' := String (digitChar (n mod radix)) acc in
      if n <? radix then acc' else digitsOf f radix (n / radix) acc'
  end.

(** Digits of the integer [n >= 0] in the given radix, most significant
    first; [log2 n + 1] steps reach the leading digit. *)
Definition intToString (radix n : Z) : string :=
  digitsOf (S (Z.to_nat (Z.log2 n))) radix n EmptyString.

(** [Number.prototype.toString(radix)] on the values the source applies it
    to: the results of [parseInt], which are integers, [NaN] or infinite. *)
Definition Number_toString (a : number) (radix : Z) : string :=
  match a with
  | NaN => "NaN"
  | Infinity => "Infinity"
  | NegInfinity => "-Infinity"
  | Fin q =>
      let z := Qfloor q in
      if z <? 0 then String "-" (intToString radix (- z))
      else intToString radix z
  end.

Fixpoint repeatChar (c : ascii) (n : nat) : string :=
  match n with O => EmptyString | S n' => String c (repeatChar c n') end.

(** [s.padStart(targetLength, c)] for a one-character filler. *)
Definition padStart (s : string) (targetLength : nat) (c : ascii) : string :=
  (repeatChar c (targetLength - String.length s) ++ s)%string.

(** [s[i]]: a character, or [undefined] past the end. *)
Definition charAt (s : string) (i : nat) : option ascii := String.get i s.

End JS.

Import JS.

(** ** The browser side

    Decoding the file, drawing it on a canvas and reading the pixels back are
    done by the browser.  A [File] records what the browser answers: whether
    the image loads, its size, whether a 2D context is available, and the
    RGBA bytes read back from a canvas of a given size (or the exception
    thrown by [drawImage] / [getImageData]). *)

Inductive Exn (A : Type) : Type :=
| Return (a : A)
| Throw (error : string).
Arguments Return {A} a.
Arguments Throw {A} error.

Inductive Promise (A : Type) : Type :=
| Resolved (value : A)
| Rejected (error : string).
Arguments Resolved {A} value.
Arguments Rejected {A} error.

Record File : Type := {
  loads : bool;                 (* [img.onload] fires; otherwise [img.onerror] *)
  img_width : Z;                (* [img.width] *)
  img_height : Z;               (* [img.height] *)
  context2d : bool;             (* [canvas.getContext('2d')] is not null *)
  getImageData : Z -> Z -> Exn (list byte)
                                (* pixels of the image drawn on a canvas of
                                   the given width and height *)
}.

(** [0.299 * r + 0.587 * g + 0.114 * b] *)
Definition luminance (r g b : number) : number :=
  add (add (mul (Fin 0.299%Q) r) (mul (Fin 0.587%Q) g))
      (mul (Fin 0.114%Q) b).

(** Luminance of the pixel whose red sample is at index [idx] of [data]. *)
Definition grayAt (data : list byte) (idx : Z) : number :=
  luminance (Uint8_get data idx) (Uint8_get data (idx + 1))
            (Uint8_get data (idx + 2)).

(** ** PerceptualHashEngine *)

Section PerceptualHash.
Context `{MathLib}.

(** One coefficient of the 8x8 low-frequency block. *)
Definition dctCoeff (grayscale : list number) (size u v : Z) : number :=
  let sum :=
    fold_left (fun sum x =>
      fold_left (fun sum y =>
        let pixel := Array_get grayscale (y * size + x) in
        add sum
          (mul (mul pixel
                  (Math_cos (div (mul (ofZ ((2 * x + 1) * u)) (Fin PI))
                                 (ofZ (2 * size)))))
               (Math_cos (div (mul (ofZ ((2 * y + 1) * v)) (Fin PI))
                              (ofZ (2 * size))))))
        (range 0 size 1) sum)
      (range 0 size 1) (ofZ 0) in
  let cu := if u =? 0 then div (ofZ 1) (Math_sqrt (ofZ 2)) else ofZ 1 in
  let cv := if v =? 0 then div (ofZ 1) (Math_sqrt (ofZ 2)) else ofZ 1 in
  div (mul (mul cu cv) sum) (ofZ 4).

Definition dctSize : Z := 8.

(** The array [dctCoeffs], in the order it is pushed. *)
Definition dctCoefficients (grayscale : list number) (size : Z)
  : list number :=
  flat_map (fun u => map (fun v => dctCoeff grayscale size u v)
                         (range 0 dctSize 1))
           (range 0 dctSize 1).

(** [dctCoeffs.slice(1).sort((a, b) => a - b)[Math.floor(dctCoeffs.length / 2)]] *)
Definition medianCoeff (dctCoeffs : list number) : number :=
  Array_get (Array_sort (fun a b => sub a b) (tl dctCoeffs))
            (Z.of_nat (List.length dctCoeffs) / 2).

(** The binary string [hash]. *)
Definition hashBits (dctCoeffs : list number) : string :=
  fold_left (fun hash c =>
               (hash ++ (if gt c (medianCoeff dctCoeffs) then "1" else "0"))%string)
            dctCoeffs EmptyString.

Definition computeDCTHash (grayscale : list number) (size : Z) : string :=
  let dctCoeffs := dctCoefficients grayscale size in
  let hash := hashBits dctCoeffs in
  padStart (Number_toString (parseInt hash 2) 16) 16 "0".

(** The array [grayscale] built from the RGBA bytes. *)
Definition grayscaleOf (pixels : list byte) : list number :=
  map (grayAt pixels) (range 0 (Z.of_nat (List.length pixels)) 4).

Definition generatePerceptualHash (file : File) : Promise string :=
  if loads file then
    let size := 32 in
    if negb (context2d file) then Rejected "Could not get canvas context"
    else
      match getImageData file size size with
      | Throw error => Rejected error
      | Return pixels =>
          Resolved (computeDCTHash (grayscaleOf pixels) size)
      end
  else Rejected "Failed to load image".
End PerceptualHash.

(** ** HammingMatcher *)

Definition sameChar (a b : option ascii) : bool :=
  match a, b with
  | Some x, Some y => Ascii.eqb x y
  | None, None => true
  | _, _ => false
  end.

Definition calculateHammingDistance (hash1 hash2 : string) : number :=
  if negb (String.length hash1 =? String.length hash2)%nat then Infinity
  else
    let bin1 := padStart (Number_toString (parseInt hash1 16) 2) 64 "0" in
    let bin2 := padStart (Number_toString (parseInt hash2 16) 2) 64 "0" in
    ofZ (fold_left (fun distance i =>
                      if negb (sameChar (charAt bin1 i) (charAt bin2 i))
                      then distance + 1 else distance)
                   (seq 0 (String.length bin1)) 0).

Record Artwork : Type := {
  id : string;
  perceptual_hash : option string;
  title : string;
  user_id : string
}.

Record Match : Type := {
  artwork : Artwork;
  distance : number;
  confidence : number
}.

Definition calculateConfidence (hammingDistance : number) : number :=
  let maxBits := ofZ 64 in
  let similarity := sub (ofZ 1) (div hammingDistance maxBits) in
  Math_max (ofZ 0) (Math_min (ofZ 1) similarity).

Definition strictThreshold : number := ofZ 12.
Definition moderateThreshold : number := ofZ 20.

(** The test [!artwork.perceptual_hash]: [null] and the empty string. *)
Definition noHash (a : Artwork) : bool :=
  match perceptual_hash a with
  | None | Some EmptyString => true
  | Some _ => false
  end.

Definition storedHash (a : Artwork) : string :=
  match perceptual_hash a with Some h => h | None => EmptyString end.

(** One iteration of the loop over [allArtworks]. *)
Definition visit (perceptualHash : string) (closestMatch : option Match)
    (a : Artwork) : option Match :=
  if noHash a then closestMatch
  else
    let dist := calculateHammingDistance perceptualHash (storedHash a) in
    if le dist moderateThreshold then
      let conf := calculateConfidence dist in
      match closestMatch with
      | None => Some (Build_Match a dist conf)
      | Some m =>
          if lt dist (distance m) then Some (Build_Match a dist conf)
          else closestMatch
      end
    else closestMatch.

(** The function is [async] but awaits nothing and cannot throw: its promise
    always resolves, with the value below. *)
Definition findSimilarArtwork (perceptualHash : string)
    (allArtworks : list Artwork) : option Match :=
  fold_left (visit perceptualHash) allArtworks None.

(** ** FeatureComparator *)

Definition cosineSimilarity `{MathLib} (vec1 vec2 : list number) : number :=
  if negb (List.length vec1 =? List.length vec2)%nat then ofZ 0
  else
    let '(dotProduct, mag1, mag2) :=
      fold_left (fun '(dotProduct, mag1, mag2) i =>
                   let a := Array_get vec1 i in
                   let b := Array_get vec2 i in
                   (add dotProduct (mul a b), add mag1 (mul a a),
                    add mag2 (mul b b)))
                (range 0 (Z.of_nat (List.length vec1)) 1)
                (ofZ 0, ofZ 0, ofZ 0) in
    let magnitude := mul (Math_sqrt mag1) (Math_sqrt mag2) in
    if JS.eq magnitude (ofZ 0) then ofZ 0 else div dotProduct magnitude.

(** ** FeatureExtractor *)

Record ImageData : Type := {
  width : Z;
  height : Z;
  data : list byte
}.

Definition computeColorHistogram (pixels : list byte) : list number :=
  let bins := 16 in
  let histogram := repeat (ofZ 0) (Z.to_nat (bins * 3)) in
  let binSize := div (ofZ 256) (ofZ bins) in
  let histogram :=
    fold_left (fun histogram i =>
                 let r := Math_floor (div (Uint8_get pixels i) binSize) in
                 let g := Math_floor (div (Uint8_get pixels (i + 1)) binSize) in
                 let b := Math_floor (div (Uint8_get pixels (i + 2)) binSize) in
                 let histogram := Array_increment histogram r in
                 let histogram := Array_increment histogram (add (ofZ bins) g) in
                 Array_increment histogram (add (ofZ (bins * 2)) b))
              (range 0 (Z.of_nat (List.length pixels)) 4) histogram in
  let total := div (ofNat (List.length pixels)) (ofZ 4) in
  map (fun count => div count total) histogram.

Definition sobelX : list number :=
  map ofZ [-1; 0; 1; -2; 0; 2; -1; 0; 1].
Definition sobelY : list number :=
  map ofZ [-1; -2; -1; 0; 0; 0; 1; 2; 1].

Section Features.
Context `{MathLib}.

(** The Sobel magnitude pushed for the pixel [(x, y)]. *)
Definition sobelMagnitude (width : Z) (data : list byte) (x y : Z) : number :=
  let '(gx, gy) :=
    fold_left (fun g ky =>
      fold_left (fun '(gx, gy) kx =>
                   let idx := ((y + ky) * width + (x + kx)) * 4 in
                   let gray := grayAt data idx in
                   let kernelIdx := (ky + 1) * 3 + (kx + 1) in
                   (add gx (mul gray (Array_get sobelX kernelIdx)),
                    add gy (mul gray (Array_get sobelY kernelIdx))))
                (range (-1) 2 1) g)
      (range (-1) 2 1) (ofZ 0, ofZ 0) in
  Math_sqrt (add (mul gx gx) (mul gy gy)).

(** The array [edges] of [computeEdgeFeatures]. *)
Definition sobelEdges (imageData : ImageData) : list number :=
  flat_map (fun y =>
              map (fun x => sobelMagnitude (width imageData) (data imageData) x y)
                  (range 1 (width imageData - 1) 1))
           (range 1 (height imageData - 1) 1).

Definition computeEdgeFeatures (imageData : ImageData) : list number :=
  let edges := sobelEdges imageData in
  let histogram := repeat (ofZ 0) 10 in
  let maxEdge := Math_max_list edges in
  let histogram :=
    fold_left (fun histogram edge =>
                 let bin := Math_min (ofZ 9)
                              (Math_floor (mul (div edge maxEdge) (ofZ 10))) in
                 Array_increment histogram bin)
              edges histogram in
  map (fun count => div count (ofNat (List.length edges))) histogram.

Definition computeTextureFeatures (imageData : ImageData) : list number :=
  let data := data imageData in
  let grayscale := map (grayAt data) (range 0 (Z.of_nat (List.length data)) 4) in
  let n := ofNat (List.length grayscale) in
  let mean := div (fold_left (fun sum val => add sum val) grayscale (ofZ 0)) n in
  let variance :=
    fold_left (fun variance val => add variance (Math_pow2 (sub val mean)))
              grayscale (ofZ 0) in
  let variance := div variance n in
  [div mean (ofZ 255); div (Math_sqrt variance) (ofZ 255)].

Record Features : Type := {
  colorHistogram : list number;
  edgeFeatures : list number;
  textureFeatures : list number
}.

Definition analyzeImageFeatures (file : File) : Promise Features :=
  if loads file then
    if negb (context2d file) then Rejected "Could not get canvas context"
    else
      match getImageData file 256 256 with
      | Throw error => Rejected error
      | Return pixels =>
          let imageData := Build_ImageData 256 256 pixels in
          Resolved {| colorHistogram := computeColorHistogram pixels;
                      edgeFeatures := computeEdgeFeatures imageData;
                      textureFeatures := computeTextureFeatures imageData |}
      end
  else Rejected "Failed to load image".

Definition compareImageFeatures (features1 features2 : Features) : number :=
  let colorSimilarity :=
    cosineSimilarity (colorHistogram features1) (colorHistogram features2) in
  let edgeSimilarity :=
    cosineSimilarity (edgeFeatures features1) (edgeFeatures features2) in
  let textureSimilarity :=
    cosineSimilarity (textureFeatures features1) (textureFeatures features2) in
  add (add (mul colorSimilarity (Fin 0.4%Q)) (mul edgeSimilarity (Fin 0.4%Q)))
      (mul textureSimilarity (Fin 0.2%Q)).
End Features.

(** ** Binary64 arithmetic

    IEEE-754 binary64 with the operations of the Standard Library's
    [SpecFloat]: precision 53, maximal exponent 1024, every operation rounded
    to nearest, ties to even.  A [float] is a zero, an infinity, [NaN] or a
    finite value [(-1)^s * m * 2^e] with a normalised mantissa. *)

Module F64.

Definition float : Type := spec_float.

Definition prec : Z := 53.
Definition emax : Z := 1024.

Definition NaN : float := S754_nan.

(** The binary64 value of an integer. *)
Definition ofZ (z : Z) : float := binary_normalize prec emax z 0 false.

Definition add (a b : float) : float := SFadd prec emax a b.
Definition sub (a b : float) : float := SFsub prec emax a b.
Definition mul (a b : float) : float := SFmul prec emax a b.
Definition div (a b : float) : float := SFdiv prec emax a b.

(** The value of the decimal literal [n / d], [d] a power of ten: the
    binary64 value nearest to the quotient, which the correctly rounded
    division of the two integers gives. *)
Definition decimal (n d : Z) : float := div (ofZ n) (ofZ d).

Definition Math_abs (a : float) : float := SFabs a.

(** [Math.pow(a, 2)]: the square, rounded once. *)
Definition Math_pow2 (a : float) : float := mul a a.

(** [Math.floor] of a finite value, as an integer; none for [NaN] and the
    infinities, which [Math.floor] returns unchanged. *)
Definition Math_floor (a : float) : option Z :=
  match a with
  | S754_zero _ => Some 0
  | S754_finite s m e =>
      let n := if s then Z.neg m else Z.pos m in
      Some (if 0 <=? e then n * 2 ^ e else n / 2 ^ (- e))
  | _ => None
  end.

(** [Math.round]: the nearest integer, ties towards [+Infinity], as a
    number to be printed. *)
Definition Math_round (a : float) : number :=
  match a with
  | S754_zero _ => JS.ofZ 0
  | S754_finite s m e =>
      let n := if s then Z.neg m else Z.pos m in
      JS.ofZ (if 0 <=? e then n * 2 ^ e
              else (2 * n + 2 ^ (- e)) / 2 ^ (1 - e))
  | S754_infinity s => if s then JS.NegInfinity else JS.Infinity
  | S754_nan => JS.NaN
  end.

(** [a < b] and [a > b]; every comparison with [NaN] is false. *)
Definition lt (a b : float) : bool := SFltb a b.
Definition gt (a b : float) : bool := SFltb b a.

(** Reading [a[i]] from a [Uint8ClampedArray] as a number; [undefined]
    becomes [NaN] in arithmetic. *)
Definition Uint8_get (a : list byte) (i : Z) : float :=
  match Uint8_read a i with Some b => ofZ (byteValue b) | None => NaN end.

(** [0.299 * r + 0.587 * g + 0.114 * b], each product and each sum rounded. *)
Definition luminance (r g b : float) : float :=
  add (add (mul (decimal 299 1000) r) (mul (decimal 587 1000) g))
      (mul (decimal 114 1000) b).

(** Luminance of the pixel whose red sample is at index [idx] of [data]. *)
Definition grayAt (data : list byte) (idx : Z) : float :=
  luminance (Uint8_get data idx) (Uint8_get data (idx + 1))
            (Uint8_get data (idx + 2)).

End F64.

(** ** ScreenshotHeuristic *)

Module Screenshot.

Record Verdict : Type := {
  isScreenshot : bool;
  confidence : number;
  reason : string
}.

(** The two mutable variables of the analysis: [detectionScore] and
    [reasons]. *)
Record State : Type := {
  detectionScore : number;
  reasons : list string
}.

(** [detectionScore += weight; reasons.push(text)] *)
Definition trigger (weight : Q) (text : string) (st : State) : State :=
  {| detectionScore := add (detectionScore st) (Fin weight);
     reasons := reasons st ++ [text] |}.

Definition screenResolutions : list (Z * Z) :=
  [(1920, 1080); (1440, 900); (1366, 768);
   (1024, 768); (2560, 1440); (3840, 2160);
   (1280, 720); (1600, 1200); (2880, 1800)].

(** Detection 1: the loop stops at the first resolution that matches. *)
Definition detectResolution (w h : Z) (st : State) : State :=
  if existsb (fun res => ((w =? fst res) && (h =? snd res))
                         || ((w =? snd res) && (h =? fst res)))
             screenResolutions
  then trigger 0.20 ("Exact screen resolution: " ++ intToString 10 w
                     ++ "x" ++ intToString 10 h)%string st
  else st.

Definition commonRatios : list (F64.float * string * F64.float) :=
  [(F64.div (F64.ofZ 16) (F64.ofZ 9), "16:9"%string, F64.decimal 1 100);
   (F64.div (F64.ofZ 4) (F64.ofZ 3), "4:3"%string, F64.decimal 1 100);
   (F64.div (F64.ofZ 3) (F64.ofZ 2), "3:2"%string, F64.decimal 1 100);
   (F64.div (F64.ofZ 16) (F64.ofZ 10), "16:10"%string, F64.decimal 1 100)].

(** Detection 2: the loop stops at the first ratio that matches. *)
Definition detectAspectRatio (w h : Z) (st : State) : State :=
  let aspectRatio := F64.div (F64.ofZ w) (F64.ofZ h) in
  match find (fun '(ratio, _, tolerance) =>
                F64.lt (F64.Math_abs (F64.sub aspectRatio ratio)) tolerance)
             commonRatios with
  | Some (_, name, _) =>
      trigger 0.15 ("Standard " ++ name ++ " aspect ratio")%string st
  | None => st
  end.

(** The key [`${r},${g},${b}`] of a pixel: the three samples, each possibly
    [undefined]; distinct triples give distinct strings. *)
Definition ColorKey : Type := (option byte * option byte * option byte)%type.

Definition sameSample (a b : option byte) : bool :=
  match a, b with
  | Some x, Some y => Byte.eqb x y
  | None, None => true
  | _, _ => false
  end.

Definition sameKey (k1 k2 : ColorKey) : bool :=
  let '(r1, g1, b1) := k1 in
  let '(r2, g2, b2) := k2 in
  sameSample r1 r2 && sameSample g1 g2 && sameSample b1 b2.

(** [uniqueColors.add(key)] on a set kept as a duplicate-free list. *)
Definition Set_add (key : ColorKey) (set : list ColorKey) : list ColorKey :=
  if existsb (sameKey key) set then set else set ++ [key].

(** The set [uniqueColors] and the counter [totalPixels] after the loop. *)
Definition countColors (data : list byte) : list ColorKey * Z :=
  fold_left (fun '(uniqueColors, totalPixels) i =>
               let r := Uint8_read data i in
               let g := Uint8_read data (i + 1) in
               let b := Uint8_read data (i + 2) in
               (Set_add (r, g, b) uniqueColors, totalPixels + 1))
            (range 0 (Z.of_nat (List.length data)) 4) ([], 0).

Definition colorDiversity (data : list byte) : F64.float :=
  let '(uniqueColors, totalPixels) := countColors data in
  F64.div (F64.ofZ (Z.of_nat (List.length uniqueColors))) (F64.ofZ totalPixels).

(** Detection 3 *)
Definition detectColorDiversity (data : list byte) (st : State) : State :=
  let colorDiversity := colorDiversity data in
  if F64.lt colorDiversity (F64.decimal 3 100) then
    trigger 0.25
      ("Extremely low color diversity: only "
       ++ Number_toString
            (F64.Math_round (F64.mul colorDiversity (F64.ofZ 100))) 10
       ++ "% unique colors")%string st
  else if F64.lt colorDiversity (F64.decimal 6 100) then
    trigger 0.05 "Limited color palette detected" st
  else st.

(** [edgeStrength] of the sampled pixel [(x, y)], in binary64. *)
Definition edgeStrength (w : Z) (data : list byte) (x y : Z) : F64.float :=
  let idx := (y * w + x) * 4 in
  let centerGray := F64.grayAt data idx in
  let rightIdx := (y * w + x + 1) * 4 in
  let rightGray := F64.grayAt data rightIdx in
  let bottomIdx := ((y + 1) * w + x) * 4 in
  let bottomGray := F64.grayAt data bottomIdx in
  F64.add (F64.Math_abs (F64.sub centerGray rightGray))
          (F64.Math_abs (F64.sub centerGray bottomGray)).

(** [totalEdgeStrength] and [edgePixels] after the two sampling loops. *)
Definition scanEdges (w h : Z) (data : list byte) : F64.float * F64.float :=
  fold_left (fun acc y =>
    fold_left (fun '(totalEdgeStrength, edgePixels) x =>
                 let edgeStrength := edgeStrength w data x y in
                 (F64.add totalEdgeStrength edgeStrength,
                  if F64.gt edgeStrength (F64.ofZ 80)
                  then F64.add edgePixels (F64.ofZ 1)
                  else edgePixels))
              (range 1 (w - 1) 5) acc)
    (range 1 (h - 1) 5) (F64.ofZ 0, F64.ofZ 0).

Definition avgEdgeStrength (w h : Z) (data : list byte) : F64.float :=
  F64.div (fst (scanEdges w h data)) (F64.div (F64.ofZ (w * h)) (F64.ofZ 25)).

Definition edgePixelRatio (w h : Z) (data : list byte) : F64.float :=
  F64.div (snd (scanEdges w h data)) (F64.div (F64.ofZ (w * h)) (F64.ofZ 25)).

(** Detection 4, first signal *)
Definition detectCrispEdges (w h : Z) (data : list byte) (st : State) : State :=
  if F64.gt (avgEdgeStrength w h data) (F64.ofZ 180)
  then trigger 0.15 "Unusually crisp edges (text/UI-like)" st
  else st.

(** Detection 4, second signal *)
Definition detectSharpPixels (w h : Z) (data : list byte) (st : State) : State :=
  if F64.gt (edgePixelRatio w h data) (F64.decimal 25 100)
  then trigger 0.10 "High number of sharp transitions" st
  else st.

(** Whether the 8x8 block at [(x, y)] counts as blocky, in binary64. *)
Definition blockIsFlat (w : Z) (data : list byte) (x y : Z) : bool :=
  let blockSize := 8 in
  let grayOf by_ bx := F64.grayAt data (((y + by_) * w + (x + bx)) * 4) in
  let mean :=
    fold_left (fun mean by_ =>
                 fold_left (fun mean bx => F64.add mean (grayOf by_ bx))
                           (range 0 blockSize 1) mean)
              (range 0 blockSize 1) (F64.ofZ 0) in
  let mean := F64.div mean (F64.ofZ (blockSize * blockSize)) in
  let variance :=
    fold_left (fun variance by_ =>
                 fold_left (fun variance bx =>
                              F64.add variance
                                (F64.Math_pow2 (F64.sub (grayOf by_ bx) mean)))
                           (range 0 blockSize 1) variance)
              (range 0 blockSize 1) (F64.ofZ 0) in
  F64.lt (F64.div variance (F64.ofZ (blockSize * blockSize))) (F64.ofZ 5).

(** [reasons.join(sep)] *)
Definition join (sep : string) (l : list string) : string :=
  match l with
  | [] => EmptyString
  | s :: l' => fold_left (fun acc t => (acc ++ sep ++ t)%string) l' s
  end.

Section Random.
(** The successive results of [Math.random()], each a binary64 value in
    [[0, 1)]. *)
Variable random : nat -> F64.float.

Definition samples : Z := 100.

(** The block tested at a position given by two results of [Math.floor];
    a position that is not a number selects no pixel at all. *)
Definition blockAt (w : Z) (data : list byte) (x y : option Z) : bool :=
  match x, y with
  | Some x, Some y => blockIsFlat w data x y
  | _, _ => false
  end.

(** The counter [blockiness] after the sampling loop; iteration [i] draws
    the numbers [2 i] and [2 i + 1]. *)
Definition countBlockiness (w h : Z) (data : list byte) : F64.float :=
  fold_left (fun blockiness i =>
               let x := F64.Math_floor
                          (F64.mul (random (2 * Z.to_nat i)) (F64.ofZ (w - 10))) in
               let y := F64.Math_floor
                          (F64.mul (random (2 * Z.to_nat i + 1)) (F64.ofZ (h - 10))) in
               if blockAt w data x y then F64.add blockiness (F64.ofZ 1)
               else blockiness)
            (range 0 samples 1) (F64.ofZ 0).

(** Detection 5 *)
Definition detectBlockiness (w h : Z) (data : list byte) (st : State) : State :=
  let blockinessRatio := F64.div (countBlockiness w h data) (F64.ofZ samples) in
  if F64.gt blockinessRatio (F64.decimal 35 100)
  then trigger 0.10 "JPEG compression blockiness detected" st
  else st.

(** The state after the five detections, run in the order of the source. *)
Definition runDetections (w h : Z) (data : list byte) : State :=
  let st := {| detectionScore := ofZ 0; reasons := [] |} in
  let st := detectResolution w h st in
  let st := detectAspectRatio w h st in
  let st := detectColorDiversity data st in
  let st := detectCrispEdges w h data st in
  let st := detectSharpPixels w h data st in
  detectBlockiness w h data st.

(** The verdict resolved at the end of the [try] block. *)
Definition analyze (w h : Z) (data : list byte) : Verdict :=
  let st := runDetections w h data in
  let isScreenshot := gt (detectionScore st) (Fin 0.70%Q) in
  {| isScreenshot := isScreenshot;
     confidence := Math_min (ofZ 1) (detectionScore st);
     reason := match reasons st with
               | [] => "Unknown"%string
               | _ => join "; " (reasons st)
               end |}.

Definition fallback (text : string) : Verdict :=
  {| isScreenshot := false; confidence := ofZ 0; reason := text |}.

Definition detectScreenshot (file : File) : Promise Verdict :=
  if loads file then
    if negb (context2d file) then Resolved (fallback "Unable to analyze")
    else
      match getImageData file (img_width file) (img_height file) with
      | Throw _ => Resolved (fallback "Error in analysis")
      | Return data =>
          Resolved (analyze (img_width file) (img_height file) data)
      end
  else Resolved (fallback "Unable to load image").
End Random.

End Screenshot.

(** A computable instance of the [Math] parameters, to run the functions on
    concrete inputs: a truncated series for the cosine and the integer
    square root of numerator times denominator for the square root. *)
Definition sqrtQ_approx (q : Q) : Q :=
  Z.sqrt (Qnum q * Zpos (Qden q)) # Qden q.

Definition cosQ_approx (q : Q) : Q :=
  (1 - q * q / 2 + q * q * q * q / 24)%Q.

#[export] Instance approxMath : MathLib.
Proof.
  refine {| cosQ := cosQ_approx; sqrtQ := sqrtQ_approx;
            PI := 3.141592653589793%Q;
            sqrtQ_zero := _; sqrtQ_pos := _ |}.
  - intros [n d] Hq. unfold sqrtQ_approx, Qeq in *. simpl in *.
    assert (n = 0) by lia. subst n. reflexivity.
  - intros [n d] Hq. unfold sqrtQ_approx, Qlt in *. simpl in *.
    assert (0 < Z.sqrt (n * Z.pos d)) by (apply Z.sqrt_pos; nia). lia.
Defined.

(** ** Vocabulary of the statements *)

Fixpoint allChars (p : ascii -> bool) (s : string) : bool :=
  match s with
  | EmptyString => true
  | String c s' => p c && allChars p s'
  end.

Definition isLowerHexChar (c : ascii) : bool :=
  existsb (Ascii.eqb c) (list_ascii_of_string "0123456789abcdef").

Definition isHexChar (c : ascii) : bool :=
  existsb (Ascii.eqb c) (list_ascii_of_string "0123456789abcdefABCDEF").

Definition bitChar (b : bool) : ascii := if b then "1"%char else "0"%char.

(** The string of binary digits of a list of bits, first bit first. *)
Definition stringOfBits (l : list bool) : string :=
  fold_right (fun b s => String (bitChar b) s) EmptyString l.

(** The integer a list of bits denotes, most significant bit first. *)
Definition bitsValue (l : list bool) : Z :=
  fold_left (fun a b => a * 2 + Z.b2z b) l 0.

(** The [k] low-order binary digits of [n], most significant first. *)
Fixpoint binString (k : nat) (n : Z) : string :=
  match k with
  | O => EmptyString
  | S k' => (binString k' (n / 2) ++ String (digitChar (n mod 2)) EmptyString)%string
  end.

(** The binary64 value of an integer according to the IEEE-754 model of the
    Standard Library ([SpecFloat], precision 53, maximal exponent 1024). *)
Definition binary64OfInteger (n : Z) : number :=
  match binary_normalize 53 1024 n 0 false with
  | S754_zero _ => ofZ 0
  | S754_infinity s => if s then NegInfinity else Infinity
  | S754_nan => NaN
  | S754_finite s m e =>
      let v := if 0 <=? e then Z.pos m * 2 ^ e else Z.pos m / 2 ^ (- e) in
      ofZ (if s then - v else v)
  end.

(** Number of elements of a list that satisfy a test. *)
Definition countIf {A : Type} (p : A -> bool) (l : list A) : nat :=
  List.length (filter p l).

(** Distance from the query to the hash stored in an entry. *)
Definition hammingTo (query : string) (a : Artwork) : number :=
  calculateHammingDistance query (storedHash a).

(** An entry the search may return: it stores a hash, at distance at most
    [moderateThreshold] from the query. *)
Definition admissible (query : string) (a : Artwork) : bool :=
  negb (noHash a) && le (hammingTo query a) moderateThreshold.

(** What holds of the best match so far after the entries [seen]. *)
Definition bestSoFar (query : string) (seen : list Artwork)
    (closestMatch : option Match) : Prop :=
  match closestMatch with
  | None => forall a, In a seen -> admissible query a = false
  | Some m =>
      exists before after d,
        seen = before ++ artwork m :: after
        /\ admissible query (artwork m) = true
        /\ distance m = hammingTo query (artwork m)
        /\ distance m = ofZ d /\ 0 <= d <= 20
        /\ (forall b, In b before -> admissible query b = true ->
                      lt (distance m) (hammingTo query b) = true)
        /\ (forall b, In b after -> admissible query b = true ->
                      le (distance m) (hammingTo query b) = true)
        /\ confidence m = calculateConfidence (distance m)
  end.

(** The sample of channel [c] (0 red, 1 green, 2 blue) of pixel [j]. *)
Definition sampleAt (pixels : list byte) (j c : nat) : Z :=
  byteValue (nth (4 * j + c) pixels x00).

(** Number of pixels, among the first [n], whose channel [c] falls in the
    bin [k] of width 16. *)
Definition binCount (pixels : list byte) (n c : nat) (k : Z) : Z :=
  Z.of_nat (countIf (fun j => sampleAt pixels j c / 16 =? k) (seq 0 n)).

(** The increments pixel [j] makes to the entry [x] of the histogram, and
    their total over the first [m] pixels. *)
Definition hits (pixels : list byte) (j x : nat) : Z :=
  (if (x =? Z.to_nat (sampleAt pixels j 0 / 16))%nat then 1 else 0)
  + (if (x =? 16 + Z.to_nat (sampleAt pixels j 1 / 16))%nat then 1 else 0)
  + (if (x =? 32 + Z.to_nat (sampleAt pixels j 2 / 16))%nat then 1 else 0).

Fixpoint tally (pixels : list byte) (m x : nat) : Z :=
  match m with
  | O => 0
  | S m' => tally pixels m' x + hits pixels m' x
  end.

Definition Zsum (l : list Z) : Z := fold_right Z.add 0 l.

(** The sum of an array of numbers, added from left to right. *)
Definition sumNumbers (l : list number) : number := fold_left add l (ofZ 0).

(** The 16 entries of channel [c] in a 48-entry histogram. *)
Definition channelGroup (c : nat) (histogram : list number) : list number :=
  firstn 16 (skipn (16 * c) histogram).

(** The bin of an edge magnitude when the largest magnitude is positive. *)
Definition edgeBin (maxEdge : Q) (edge : number) : Z :=
  Z.min (Qfloor (toQ edge / maxEdge * 10)) 9.

(** A finite number that is not negative. *)
Definition isNonNegative (a : number) : Prop :=
  isFinite a = true /\ (0 <= toQ a)%Q.

(** A number equal to zero. *)
Definition isZero (a : number) : Prop := same a (ofZ 0).

(** The image of the given size whose pixels are all black, with the given
    alpha sample. *)
Definition blackImage (w h : Z) (alpha : byte) : ImageData :=
  {| width := w;
     height := h;
     data := List.concat (repeat [x00; x00; x00; alpha] (Z.to_nat (w * h))) |}.

(** The pixels sampled by the edge detection of the screenshot heuristic,
    row by row, and their edge strengths. *)
Definition sampleGrid (w h : Z) : list (Z * Z) :=
  flat_map (fun y => map (fun x => (x, y)) (range 1 (w - 1) 5))
           (range 1 (h - 1) 5).

Definition sampledEdgeStrengths (w h : Z) (data : list byte) : list F64.float :=
  map (fun p => Screenshot.edgeStrength w data (fst p) (snd p)) (sampleGrid w h).

(** The sum of an array of binary64 numbers, added from left to right. *)
Definition sumFloats (l : list F64.float) : F64.float :=
  fold_left F64.add l (F64.ofZ 0).

(** The mean edge strength over the sampled pixels. *)
Definition meanSampledEdgeStrength (w h : Z) (data : list byte) : F64.float :=
  F64.div (sumFloats (sampledEdgeStrengths w h data))
          (F64.ofZ (Z.of_nat (List.length (sampledEdgeStrengths w h data)))).

(** A 3x3 image: the centre pixel and the one below it are grey (100, 100,
    100), the other pixels are black; all are opaque. *)
Definition greyCentre : list byte :=
  let black := [x00; x00; x00; xff] in
  let grey := [x64; x64; x64; xff] in
  black ++ black ++ black
  ++ black ++ grey ++ black
  ++ black ++ grey ++ black.

(** A 5x5 image: the pixel (1, 1) is the grey (78, 78, 78), its right and
    bottom neighbours are the grey (168, 168, 168), the other pixels are
    black; all are opaque. *)
Definition greyCross : list byte :=
  let black := [x00; x00; x00; xff] in
  let dark := [x4e; x4e; x4e; xff] in
  let light := [xa8; xa8; xa8; xff] in
  black ++ black ++ black ++ black ++ black
  ++ black ++ dark ++ light ++ black ++ black
  ++ black ++ light ++ black ++ black ++ black
  ++ black ++ black ++ black ++ black ++ black
  ++ black ++ black ++ black ++ black ++ black.

Definition initialState : Screenshot.State :=
  {| Screenshot.detectionScore := ofZ 0; Screenshot.reasons := [] |}.

(** The score of a state is a finite value between two bounds. *)
Definition scoreWithin (lo hi : Q) (st : Screenshot.State) : Prop :=
  exists s, Screenshot.detectionScore st = Fin s /\ (lo <= s <= hi)%Q.

(** The browser could not deliver the pixels of the file. *)
Definition cannotAnalyze (file : File) : Prop :=
  loads file = false
  \/ context2d file = false
  \/ exists error,
       getImageData file (img_width file) (img_height file) = Throw error.

(** A file whose image does not load. *)
Definition brokenFile : File :=
  {| loads := false;
     img_width := 0;
     img_height := 0;
     context2d := true;
     getImageData := fun _ _ => Throw "InvalidStateError" |}.

Definition allFinite (l : list number) : Prop :=
  Forall (fun a => isFinite a = true) l.

(** A perceptual hash in the format of the specification. *)
Definition isPerceptualHash (s : string) : Prop :=
  String.length s = 16%nat /\ allChars isLowerHexChar s = true.

(** A string of 16 hexadecimal characters. *)
Definition isHex16 (s : string) : Prop :=
  String.length s = 16%nat /\ allChars isHexChar s = true.

(** ** Further vocabulary *)

(** Number of positions, among the 64 low-order bits, where two integers
    differ. *)
Definition differingBits (a b : Z) : Z :=
  Z.of_nat (countIf (fun i => xorb (Z.testbit a (Z.of_nat i))
                                   (Z.testbit b (Z.of_nat i)))
                    (seq 0 64)).

(** Two buffers of one length that hold the same red, green and blue
    samples; they may differ in the alpha samples, at the indices 3, 7, 11,
    ... of the buffer. *)
Definition sameRGB (pixels1 pixels2 : list byte) : Prop :=
  List.length pixels1 = List.length pixels2
  /\ forall i, (i mod 4 <> 3)%nat -> nth_error pixels1 i = nth_error pixels2 i.

(** A feature set of the shape the comparator expects: 48, 10 and 2 finite
    numbers. *)
Definition wellFormedFeatures `{MathLib} (f : Features) : Prop :=
  (List.length (colorHistogram f) = 48%nat /\ allFinite (colorHistogram f))
  /\ (List.length (edgeFeatures f) = 10%nat /\ allFinite (edgeFeatures f))
  /\ (List.length (textureFeatures f) = 2%nat /\ allFinite (textureFeatures f)).

(** The function [detectEdges] of the source, which no other function
    calls: the Sobel magnitudes of [computeEdgeFeatures], taken at every
    other row and column ([y += 2], [x += 2]). *)
Definition detectEdges `{MathLib} (imageData : ImageData) : list number :=
  flat_map (fun y =>
              map (fun x => sobelMagnitude (width imageData) (data imageData) x y)
                  (range 1 (width imageData - 1) 2))
           (range 1 (height imageData - 1) 2).

(** A file that loads and whose canvas, whatever its size, reads back
    black transparent pixels. *)
Definition blankCanvas : File :=
  {| loads := true;
     img_width := 256;
     img_height := 256;
     context2d := true;
     getImageData := fun w h => Return (repeat x00 (Z.to_nat (4 * w * h))) |}.

(** A 32x18 image in two colours, all pixels opaque: the 8x8 block in the
    top left corner is black, the rest is a checkerboard of black and white
    pixels. *)
Definition checkerboard : list byte :=
  flat_map (fun y =>
              flat_map (fun x =>
                          if ((x <? 8) && (y <? 8)) || Z.odd (x + y)
                          then [x00; x00; x00; xff]
                          else [xff; xff; xff; xff])
                       (range 0 32 1))
           (range 0 18 1).

(** * Properties *)

(** ** Loops *)

Lemma rangeFuel_seq : forall fuel i stop step,
  0 < step ->
  (stop - i <= Z.of_nat fuel * step) ->
  rangeFuel fuel i stop step =
  map (fun k => i + step * Z.of_nat k)
      (seq 0 (Z.to_nat ((stop - i + step - 1) / step))).
Proof.
  induction fuel as [|fuel IH]; intros i stop step Hstep Hfuel.
  - simpl in *. replace (Z.to_nat ((stop - i + step - 1) / step)) with 0%nat; [reflexivity|].
    assert ((stop - i + step - 1) / step <= 0).
    { apply Z.lt_succ_r. apply Z.div_lt_upper_bound; lia. }
    lia.
  - simpl. destruct (i <? stop) eqn:E.
    + apply Z.ltb_lt in E.
      rewrite IH by lia.
      assert (Hq : (stop - i + step - 1) / step = (stop - (i + step) + step - 1) / step + 1).
      { replace (stop - i + step - 1) with ((stop - (i + step) + step - 1) + 1 * step) by lia.
        rewrite Z.div_add by lia. reflexivity. }
      assert (0 <= (stop - (i + step) + step - 1) / step).
      { apply Z.div_pos; lia. }
      rewrite Hq. rewrite Z2Nat.inj_add by lia.
      rewrite Nat.add_comm. simpl.
      f_equal; [lia|].
      rewrite <- seq_shift, map_map. apply map_ext. intros k. lia.
    + apply Z.ltb_ge in E.
      replace (Z.to_nat ((stop - i + step - 1) / step)) with 0%nat; [reflexivity|].
      assert ((stop - i + step - 1) / step <= 0).
      { apply Z.lt_succ_r. apply Z.div_lt_upper_bound; lia. }
      lia.
Qed.

Lemma range_seq : forall start stop step,
  0 < step ->
  range start stop step =
  map (fun k => start + step * Z.of_nat k)
      (seq 0 (Z.to_nat ((stop - start + step - 1) / step))).
Proof.
  intros. unfold range. apply rangeFuel_seq; [assumption|]. nia.
Qed.

Lemma range_unit : forall start stop,
  range start stop 1 =
  map (fun k => start + Z.of_nat k) (seq 0 (Z.to_nat (stop - start))).
Proof.
  intros. rewrite range_seq by lia.
  replace ((stop - start + 1 - 1) / 1) with (stop - start) by (rewrite Z.div_1_r; lia).
  apply map_ext. intros. lia.
Qed.

Lemma range_quads : forall n,
  range 0 (4 * Z.of_nat n) 4 = map (fun k => 4 * Z.of_nat k) (seq 0 n).
Proof.
  intros. rewrite range_seq by lia.
  replace ((4 * Z.of_nat n - 0 + 4 - 1) / 4) with (Z.of_nat n).
  - rewrite Nat2Z.id. apply map_ext. intros. lia.
  - apply Z.div_unique with (r := 3); lia.
Qed.

Lemma in_range : forall start stop step x,
  0 < step ->
  In x (range start stop step) <->
  exists k, 0 <= k /\ x = start + step * k /\ x < stop.
Proof.
  intros start stop step x Hstep. rewrite range_seq by assumption.
  rewrite in_map_iff. split.
  - intros (k & Hk & Hin). apply in_seq in Hin. exists (Z.of_nat k).
    repeat split; try lia.
    assert (Z.of_nat k < (stop - start + step - 1) / step) by lia.
    assert (step * ((stop - start + step - 1) / step) <= stop - start + step - 1)
      by (apply Z.mul_div_le; lia).
    nia.
  - intros (k & Hk & Hx & Hlt). exists (Z.to_nat k). split; [lia|].
    apply in_seq. split; [lia|]. simpl.
    assert (k + 1 <= (stop - start + step - 1) / step)
      by (apply Z.div_le_lower_bound; nia).
    lia.
Qed.

(** ** Numbers *)

Lemma finite_inv : forall a, isFinite a = true -> exists q, a = Fin q.
Proof. intros [q| | |] E; try discriminate. now exists q. Qed.

Lemma gt_Fin : forall x y, gt (Fin x) (Fin y) = true <-> (y < x)%Q.
Proof.
  intros x y. unfold gt, lt. rewrite negb_true_iff.
  split; intros E.
  - apply Qnot_le_lt. intros Hle. apply Qle_bool_iff in Hle. congruence.
  - destruct (Qle_bool x y) eqn:B; [|reflexivity].
    apply Qle_bool_iff in B. exfalso. exact (Qlt_not_le _ _ E B).
Qed.

Lemma gt_Fin_false : forall x y, gt (Fin x) (Fin y) = false <-> (x <= y)%Q.
Proof.
  intros x y. unfold gt, lt. rewrite negb_false_iff. apply Qle_bool_iff.
Qed.

Lemma le_ofZ : forall a b, le (ofZ a) (ofZ b) = (a <=? b).
Proof.
  intros a b. unfold le, ofZ. destruct (a <=? b) eqn:E.
  - apply Qle_bool_iff. rewrite <- Zle_Qle. now apply Z.leb_le.
  - apply Z.leb_gt in E. destruct (Qle_bool (inject_Z a) (inject_Z b)) eqn:B; [|reflexivity].
    apply Qle_bool_iff in B. rewrite <- Zle_Qle in B. lia.
Qed.

Lemma lt_ofZ : forall a b, lt (ofZ a) (ofZ b) = (a <? b).
Proof.
  intros a b. unfold lt, ofZ. destruct (a <? b) eqn:E.
  - apply Z.ltb_lt in E. apply negb_true_iff.
    destruct (Qle_bool (inject_Z b) (inject_Z a)) eqn:B; [|reflexivity].
    apply Qle_bool_iff in B. rewrite <- Zle_Qle in B. lia.
  - apply Z.ltb_ge in E. apply negb_false_iff.
    apply Qle_bool_iff. rewrite <- Zle_Qle. assumption.
Qed.

Lemma Qeq_bool_ofZ : forall a, Qeq_bool (inject_Z a) 0 = (a =? 0).
Proof.
  intros a. destruct (a =? 0) eqn:E.
  - apply Z.eqb_eq in E. subst. reflexivity.
  - apply Z.eqb_neq in E. destruct (Qeq_bool (inject_Z a) 0) eqn:B; [|reflexivity].
    apply Qeq_bool_eq in B. unfold Qeq in B. simpl in B. lia.
Qed.

Lemma div_ofZ_finite : forall q d, d <> 0 -> div (Fin q) (ofZ d) = Fin (q / inject_Z d).
Proof.
  intros q d Hd. unfold div, ofZ. rewrite Qeq_bool_ofZ.
  destruct (d =? 0) eqn:E; [apply Z.eqb_eq in E; contradiction|reflexivity].
Qed.

(** ** Folds *)

Lemma fold_left_invariant :
  forall (A B : Type) (P : A -> Prop) (f : A -> B -> A) (l : list B) (a : A),
    P a -> (forall acc x, In x l -> P acc -> P (f acc x)) -> P (fold_left f l a).
Proof.
  intros A B P f l. induction l as [|x l IH]; intros a Ha Hstep; simpl.
  - assumption.
  - apply IH.
    + apply Hstep; [now left|assumption].
    + intros acc y Hy. apply Hstep. now right.
Qed.

(** ** Sorting *)

Lemma sort_insert_perm : forall (A : Type) (cmp : A -> A -> number) x l,
  Permutation (sort_insert cmp x l) (x :: l).
Proof.
  intros A cmp x l. induction l as [|y l IH]; cbn [sort_insert].
  - apply Permutation_refl.
  - destruct (gt (cmp x y) (Fin 0)).
    + eapply Permutation_trans; [apply perm_skip, IH|apply perm_swap].
    + apply Permutation_refl.
Qed.

Lemma Array_sort_perm : forall (A : Type) (cmp : A -> A -> number) l,
  Permutation (Array_sort cmp l) l.
Proof.
  intros A cmp l. induction l as [|x l IH]; simpl.
  - apply perm_nil.
  - eapply Permutation_trans; [apply sort_insert_perm|]. now apply perm_skip.
Qed.

Lemma numLe_trans : forall a b c, numLe a b -> numLe b c -> numLe a c.
Proof. unfold numLe. intros. eapply Qle_trans; eassumption. Qed.

Lemma sort_insert_sorted : forall x l,
  isFinite x = true -> allFinite l ->
  StronglySorted numLe l ->
  StronglySorted numLe (sort_insert (fun a b => sub a b) x l).
Proof.
  intros x l Hx Hl Hs. induction Hs as [|y l Hs IH Hy]; cbn [sort_insert].
  - constructor; constructor.
  - apply Forall_cons_iff in Hl as [Hfy Hfl].
    apply finite_inv in Hx as Ex. destruct Ex as [qx ->].
    apply finite_inv in Hfy as Ey. destruct Ey as [qy ->].
    cbn [sort_insert sub neg add]. destruct (gt (Fin (qx + - qy)) (Fin 0)) eqn:E.
    + apply gt_Fin in E.
      constructor; [now apply IH|].
      eapply Permutation_Forall; [apply Permutation_sym, sort_insert_perm|].
      constructor; [|assumption].
      unfold numLe. simpl. apply Qlt_le_weak.
      apply Qplus_lt_l with (z := (- qy)%Q). now rewrite Qplus_opp_r.
    + apply gt_Fin_false in E.
      assert (Hle : numLe (Fin qx) (Fin qy)).
      { unfold numLe. simpl. apply Qplus_le_l with (z := (- qy)%Q).
        now rewrite Qplus_opp_r. }
      constructor; [now constructor|].
      constructor; [assumption|].
      eapply Forall_impl; [|exact Hy]. intros a Ha.
      eapply numLe_trans; eassumption.
Qed.

Lemma Array_sort_finite : forall (cmp : number -> number -> number) l,
  allFinite l -> allFinite (Array_sort cmp l).
Proof.
  intros cmp l Hl. eapply Permutation_Forall; [|exact Hl].
  apply Permutation_sym, Array_sort_perm.
Qed.

Lemma Array_sort_sorted : forall l,
  allFinite l -> StronglySorted numLe (Array_sort (fun a b => sub a b) l).
Proof.
  intros l Hl. induction Hl as [|x l Hx Hl IH]; simpl.
  - constructor.
  - apply sort_insert_sorted; [assumption| |assumption].
    now apply Array_sort_finite.
Qed.

Lemma sorted_nth_le : forall l i j a b,
  StronglySorted numLe l -> (i <= j)%nat ->
  nth_error l i = Some a -> nth_error l j = Some b -> numLe a b.
Proof.
  intros l i j a b Hs. revert i j. induction Hs as [|x l Hs IH Hx]; intros i j Hij Ha Hb.
  - destruct i; discriminate.
  - destruct i as [|i], j as [|j]; simpl in *.
    + inversion Ha; inversion Hb; subst. unfold numLe. apply Qle_refl.
    + inversion Ha; subst. rewrite Forall_forall in Hx. apply Hx.
      eapply nth_error_In; eassumption.
    + lia.
    + eapply IH; [|eassumption|eassumption]. lia.
Qed.

(** ** Finite values *)

Lemma finite_add : forall a b,
  isFinite a = true -> isFinite b = true -> isFinite (add a b) = true.
Proof. intros [x| | |] [y| | |]; simpl; congruence. Qed.

Lemma finite_sub : forall a b,
  isFinite a = true -> isFinite b = true -> isFinite (sub a b) = true.
Proof. intros [x| | |] [y| | |]; simpl; congruence. Qed.

Lemma finite_mul : forall a b,
  isFinite a = true -> isFinite b = true -> isFinite (mul a b) = true.
Proof. intros [x| | |] [y| | |]; simpl; congruence. Qed.

Lemma finite_div_ofZ : forall a d,
  isFinite a = true -> d <> 0 -> isFinite (div a (ofZ d)) = true.
Proof.
  intros a d Ha Hd. apply finite_inv in Ha as [q ->].
  now rewrite div_ofZ_finite.
Qed.

Lemma finite_cos : forall `{MathLib} a,
  isFinite a = true -> isFinite (Math_cos a) = true.
Proof. intros M [x| | |]; simpl; congruence. Qed.

Lemma finite_inv_sqrt2 : forall `{MathLib},
  isFinite (div (ofZ 1) (Math_sqrt (ofZ 2))) = true.
Proof.
  intros M. unfold Math_sqrt, ofZ.
  change (Qle_bool 0 (inject_Z 2)) with true. cbn iota.
  unfold div.
  destruct (Qeq_bool (sqrtQ (inject_Z 2)) 0) eqn:E; [|reflexivity].
  apply Qeq_bool_eq in E.
  assert (Hpos : (0 < sqrtQ (inject_Z 2))%Q) by (apply sqrtQ_pos; reflexivity).
  rewrite E in Hpos. discriminate.
Qed.

Lemma Uint8_get_finite : forall a i,
  0 <= i < Z.of_nat (List.length a) -> isFinite (Uint8_get a i) = true.
Proof.
  intros a i Hi. unfold Uint8_get, Uint8_read.
  destruct (i <? 0) eqn:E; [apply Z.ltb_lt in E; lia|].
  destruct (nth_error a (Z.to_nat i)) eqn:N; [reflexivity|].
  apply nth_error_None in N. lia.
Qed.

Lemma luminance_finite : forall r g b,
  isFinite r = true -> isFinite g = true -> isFinite b = true ->
  isFinite (luminance r g b) = true.
Proof.
  intros r g b Hr Hg Hb. unfold luminance.
  repeat (apply finite_add || apply finite_mul); auto.
Qed.

Lemma grayAt_finite : forall data idx,
  0 <= idx -> idx + 2 < Z.of_nat (List.length data) ->
  isFinite (grayAt data idx) = true.
Proof.
  intros data idx H0 H2. unfold grayAt.
  apply luminance_finite; apply Uint8_get_finite; lia.
Qed.

Lemma Array_get_finite : forall l i,
  allFinite l -> 0 <= i < Z.of_nat (List.length l) ->
  isFinite (Array_get l i) = true.
Proof.
  intros l i Hl Hi. unfold Array_get.
  destruct (i <? 0) eqn:E; [apply Z.ltb_lt in E; lia|].
  destruct (nth_error l (Z.to_nat i)) eqn:N.
  - unfold allFinite in Hl. rewrite Forall_forall in Hl. apply Hl.
    eapply nth_error_In; eassumption.
  - apply nth_error_None in N. lia.
Qed.

(** ** The perceptual hash *)

Lemma grayscaleOf_quads : forall pixels n,
  List.length pixels = (4 * n)%nat ->
  grayscaleOf pixels = map (fun k => grayAt pixels (4 * Z.of_nat k)) (seq 0 n).
Proof.
  intros pixels n Hn. unfold grayscaleOf. rewrite Hn.
  replace (Z.of_nat (4 * n)) with (4 * Z.of_nat n) by lia.
  rewrite range_quads, map_map. reflexivity.
Qed.

Lemma grayscaleOf_length : forall pixels n,
  List.length pixels = (4 * n)%nat -> List.length (grayscaleOf pixels) = n.
Proof.
  intros pixels n Hn. rewrite (grayscaleOf_quads _ _ Hn).
  now rewrite length_map, length_seq.
Qed.

Lemma grayscaleOf_finite : forall pixels n,
  List.length pixels = (4 * n)%nat -> allFinite (grayscaleOf pixels).
Proof.
  intros pixels n Hn. rewrite (grayscaleOf_quads _ _ Hn).
  unfold allFinite. rewrite Forall_map, Forall_forall. intros k Hk.
  apply in_seq in Hk. apply grayAt_finite; lia.
Qed.

Section CoefficientFacts.
Context `{MathLib}.

Lemma dctCoeff_finite : forall grayscale size u v,
  allFinite grayscale -> 0 < size ->
  Z.of_nat (List.length grayscale) = size * size ->
  isFinite (dctCoeff grayscale size u v) = true.
Proof.
  intros g size u v Hg Hsize Hlen. unfold dctCoeff.
  apply finite_div_ofZ; [|lia].
  apply finite_mul.
  - apply finite_mul; [destruct (u =? 0)|destruct (v =? 0)];
      auto using finite_inv_sqrt2.
  - apply fold_left_invariant; [reflexivity|].
    intros acc x Hx Hacc. apply in_range in Hx; [|lia].
    destruct Hx as (kx & Hkx & -> & Hxlt).
    apply fold_left_invariant; [assumption|].
    intros acc' y Hy Hacc'. apply in_range in Hy; [|lia].
    destruct Hy as (ky & Hky & -> & Hylt).
    apply finite_add; [assumption|].
    apply finite_mul; [apply finite_mul|].
    + apply Array_get_finite; [assumption|]. nia.
    + apply finite_cos. apply finite_div_ofZ; [reflexivity|lia].
    + apply finite_cos. apply finite_div_ofZ; [reflexivity|lia].
Qed.

Lemma dctCoefficients_length : forall grayscale size,
  List.length (dctCoefficients grayscale size) = 64%nat.
Proof.
  intros. unfold dctCoefficients.
  change (range 0 dctSize 1) with [0; 1; 2; 3; 4; 5; 6; 7].
  cbn [flat_map map app List.length]. reflexivity.
Qed.

Lemma dctCoefficients_finite : forall grayscale size,
  allFinite grayscale -> 0 < size ->
  Z.of_nat (List.length grayscale) = size * size ->
  allFinite (dctCoefficients grayscale size).
Proof.
  intros g size Hg Hsize Hlen. unfold dctCoefficients, allFinite.
  rewrite Forall_forall. intros c Hc.
  apply in_flat_map in Hc as (u & _ & Hc).
  apply in_map_iff in Hc as (v & <- & _).
  now apply dctCoeff_finite.
Qed.

End CoefficientFacts.

(** ** Strings of bits *)

Lemma fold_append_bits : forall (f : number -> bool) l acc,
  fold_left (fun hash c => (hash ++ (if f c then "1" else "0"))%string) l acc
  = (acc ++ stringOfBits (map f l))%string.
Proof.
  intros f l. induction l as [|c l IH]; intros acc; simpl.
  - clear. induction acc; simpl; congruence.
  - rewrite IH. clear. induction acc as [|a acc IHa]; simpl.
    + destruct (f c); reflexivity.
    + now rewrite IHa.
Qed.

Lemma hashBits_bits : forall dctCoeffs,
  hashBits dctCoeffs
  = stringOfBits (map (fun c => gt c (medianCoeff dctCoeffs)) dctCoeffs).
Proof. intros. unfold hashBits. now rewrite fold_append_bits. Qed.

Lemma stringOfBits_length : forall l,
  String.length (stringOfBits l) = List.length l.
Proof. induction l; simpl; congruence. Qed.

Lemma stringOfBits_get : forall l i,
  String.get i (stringOfBits l) = option_map bitChar (nth_error l i).
Proof.
  induction l as [|b l IH]; intros [|i]; simpl; auto.
Qed.

(** ** Counting the coefficients above the threshold *)

Lemma countIf_perm : forall (A : Type) (p : A -> bool) l l',
  Permutation l l' -> countIf p l = countIf p l'.
Proof.
  intros A p l l' HP. unfold countIf.
  induction HP; simpl; try congruence.
  - destruct (p x); simpl; congruence.
  - destruct (p x), (p y); reflexivity.
Qed.

Lemma countIf_le_length : forall (A : Type) (p : A -> bool) l,
  (countIf p l <= List.length l)%nat.
Proof. intros. apply filter_length_le. Qed.

Lemma countIf_none : forall (A : Type) (p : A -> bool) l,
  (forall x, In x l -> p x = false) -> countIf p l = 0%nat.
Proof.
  intros A p l. unfold countIf. induction l as [|x l IH]; intros Hl; simpl.
  - reflexivity.
  - rewrite (Hl x) by now left. apply IH. intros y Hy. apply Hl. now right.
Qed.

Lemma countIf_app : forall (A : Type) (p : A -> bool) l1 l2,
  countIf p (l1 ++ l2) = (countIf p l1 + countIf p l2)%nat.
Proof. intros. unfold countIf. now rewrite filter_app, length_app. Qed.

Lemma numLe_not_gt : forall a b,
  isFinite a = true -> isFinite b = true -> numLe a b -> gt a b = false.
Proof.
  intros a b Ha Hb Hle.
  apply finite_inv in Ha as [x ->]. apply finite_inv in Hb as [y ->].
  now apply gt_Fin_false.
Qed.

(** In a sorted list of finite numbers, the elements strictly above the one
    at index [k] all sit after index [k]. *)
Lemma count_above_nth : forall l k t,
  allFinite l -> StronglySorted numLe l ->
  nth_error l k = Some t ->
  (countIf (fun c => gt c t) l <= List.length l - S k)%nat.
Proof.
  intros l k t Hf Hs Ht.
  assert (Hk : (k < List.length l)%nat) by (apply nth_error_Some; congruence).
  rewrite <- (firstn_skipn (S k) l) at 1.
  rewrite countIf_app, countIf_none.
  - rewrite Nat.add_0_l. etransitivity; [apply countIf_le_length|].
    rewrite length_skipn. lia.
  - intros x Hx. apply In_nth_error in Hx as [i Hi].
    assert (Hik : (i < S k)%nat).
    { assert (i < List.length (firstn (S k) l))%nat by (apply nth_error_Some; congruence).
      rewrite length_firstn in *. lia. }
    rewrite nth_error_firstn in Hi.
    destruct (Nat.ltb_spec i (S k)); [|lia].
    unfold allFinite in Hf. rewrite Forall_forall in Hf.
    apply numLe_not_gt.
    + apply Hf. eapply nth_error_In; eassumption.
    + apply Hf. eapply nth_error_In; eassumption.
    + eapply sorted_nth_le; [eassumption| |eassumption|eassumption]. lia.
Qed.

Lemma medianCoeff_nth : forall dctCoeffs,
  List.length dctCoeffs = 64%nat ->
  exists t,
    nth_error (Array_sort (fun a b => sub a b) (tl dctCoeffs)) 32 = Some t
    /\ medianCoeff dctCoeffs = t.
Proof.
  intros cs Hlen. unfold medianCoeff. rewrite Hlen.
  change (Z.of_nat 64 / 2) with 32. unfold Array_get.
  change (32 <? 0) with false. change (Z.to_nat 32) with 32%nat. cbn iota.
  destruct (nth_error (Array_sort (fun a b => sub a b) (tl cs)) 32) eqn:E.
  - now exists n.
  - apply nth_error_None in E.
    rewrite (Permutation_length (Array_sort_perm _ _ _)) in E.
    destruct cs; simpl in *; lia.
Qed.

Lemma bits_at_most_31 : forall dctCoeffs,
  List.length dctCoeffs = 64%nat -> allFinite dctCoeffs ->
  (countIf (fun b => b)
     (map (fun c => gt c (medianCoeff dctCoeffs)) dctCoeffs) <= 31)%nat.
Proof.
  intros cs Hlen Hf.
  destruct (medianCoeff_nth cs Hlen) as (t & Ht & ->).
  destruct cs as [|dc rest]; [discriminate|]. simpl in Hlen, Ht.
  apply Forall_cons_iff in Hf as [_ Hrest].
  assert (Hc : (countIf (fun c => gt c t) rest <= 30)%nat).
  { rewrite (countIf_perm _ _ _ _ (Permutation_sym (Array_sort_perm _ (fun a b => sub a b) rest))).
    etransitivity.
    - apply (count_above_nth _ 32 t); [now apply Array_sort_finite|now apply Array_sort_sorted|exact Ht].
    - rewrite (Permutation_length (Array_sort_perm _ _ _)). lia. }
  unfold countIf in *. simpl. rewrite <- (map_id (filter _ (map _ rest))).
  assert (Hm : forall l, List.length (filter (fun b : bool => b) (map (fun c => gt c t) l))
                         = List.length (filter (fun c => gt c t) l)).
  { induction l as [|x l IH]; simpl; [reflexivity|]. destruct (gt x t); simpl; congruence. }
  rewrite map_id. destruct (gt dc t); simpl; rewrite Hm; lia.
Qed.

(** ** Parsing binary strings *)

Lemma parseDigits_bits : forall l a,
  parseDigits 2 (stringOfBits l) (Some a)
  = Some (fold_left (fun a b => a * 2 + Z.b2z b) l a).
Proof.
  induction l as [|b l IH]; intros a; simpl.
  - reflexivity.
  - destruct b; simpl; rewrite IH; reflexivity.
Qed.

Lemma parseInt_bits : forall b l,
  parseInt (stringOfBits (b :: l)) 2 = roundToDouble (bitsValue (b :: l)).
Proof.
  intros b l. unfold parseInt, bitsValue.
  destruct b; simpl; rewrite parseDigits_bits; reflexivity.
Qed.

Lemma parseInt_nonempty_bits : forall l,
  l <> [] -> parseInt (stringOfBits l) 2 = roundToDouble (bitsValue l).
Proof. intros [|b l] Hl; [contradiction|apply parseInt_bits]. Qed.

Lemma bits_fold_bound : forall l a,
  0 <= a ->
  0 <= fold_left (fun a b => a * 2 + Z.b2z b) l a
    <= (a + 1) * 2 ^ Z.of_nat (List.length l)
       - 2 ^ Z.of_nat (List.length l - countIf (fun b => b) l).
Proof.
  induction l as [|b l IH]; intros a Ha.
  - simpl. lia.
  - assert (Hc : (countIf (fun b => b) l <= List.length l)%nat)
      by apply countIf_le_length.
    cbn [fold_left List.length].
    specialize (IH (a * 2 + Z.b2z b) ltac:(destruct b; simpl; lia)).
    rewrite Nat2Z.inj_succ, Z.pow_succ_r by lia.
    set (L := 2 ^ Z.of_nat (List.length l)) in *.
    assert (HL : 0 < L) by (apply Z.pow_pos_nonneg; lia).
    destruct b; unfold countIf in *; cbn [filter List.length Z.b2z] in *.
    + replace (S (List.length l) - S (List.length (filter (fun b => b) l)))%nat
        with (List.length l - List.length (filter (fun b => b) l))%nat by lia.
      lia.
    + replace (S (List.length l) - List.length (filter (fun b => b) l))%nat
        with (S (List.length l - List.length (filter (fun b => b) l)))%nat by lia.
      rewrite Nat2Z.inj_succ, Z.pow_succ_r by lia.
      set (p := 2 ^ Z.of_nat (List.length l - List.length (filter (fun b => b) l))) in *.
      assert (p <= L).
      { apply Z.pow_le_mono_r; lia. }
      lia.
Qed.

Lemma bitsValue_bound : forall l k,
  List.length l = 64%nat -> (countIf (fun b => b) l <= k)%nat -> (k <= 64)%nat ->
  0 <= bitsValue l <= 2 ^ 64 - 2 ^ Z.of_nat (64 - k).
Proof.
  intros l k Hlen Hk Hk64. unfold bitsValue.
  pose proof (bits_fold_bound l 0 ltac:(lia)) as Hb.
  rewrite Hlen in Hb.
  assert (2 ^ Z.of_nat (64 - k) <= 2 ^ Z.of_nat (64 - countIf (fun b => b) l))
    by (apply Z.pow_le_mono_r; lia).
  change (Z.of_nat 64) with 64 in Hb. lia.
Qed.

(** ** Rounding to binary64 *)

Lemma roundToDouble_spec : forall n,
  0 <= n < 2 ^ 64 ->
  exists v, roundToDouble n = ofZ v
            /\ 0 <= v <= 2 ^ 64
            /\ v <= n + 2 ^ 11
            /\ (v < 2 ^ 53 \/ Z.even v = true).
Proof.
  intros n [Hn0 Hn]. unfold roundToDouble.
  destruct (n <? 2 ^ 53) eqn:E.
  - apply Z.ltb_lt in E. exists n. repeat split; lia.
  - apply Z.ltb_ge in E.
    assert (Hlog : 53 <= Z.log2 n < 64).
    { split.
      - apply Z.log2_le_pow2; lia.
      - apply Z.log2_lt_pow2; lia. }
    set (e := Z.log2 n - 52).
    assert (He : 1 <= e <= 11) by (unfold e; lia).
    rewrite Z.shiftr_div_pow2, !Z.shiftl_mul_pow2 by lia.
    set (P := 2 ^ e).
    assert (HP : P = 2 * 2 ^ (e - 1)).
    { unfold P. rewrite <- Z.pow_succ_r by lia. f_equal. lia. }
    assert (Hh : 0 < 2 ^ (e - 1)) by (apply Z.pow_pos_nonneg; lia).
    assert (HP11 : P <= 2 ^ 11) by (apply Z.pow_le_mono_r; lia).
    assert (HPQ : P * 2 ^ (64 - e) = 2 ^ 64).
    { unfold P. rewrite <- Z.pow_add_r by lia. f_equal. lia. }
    assert (HQ : 0 < 2 ^ (64 - e)) by (apply Z.pow_pos_nonneg; lia).
    set (q := n / P).
    assert (Hq : P * q <= n < P * (q + 1)).
    { unfold q. split.
      - apply Z.mul_div_le. lia.
      - rewrite Z.mul_add_distr_l, Z.mul_1_r.
        pose proof (Z.mod_pos_bound n P ltac:(lia)).
        pose proof (Z.div_mod n P ltac:(lia)). lia. }
    assert (Hq0 : 0 <= q) by (unfold q; apply Z.div_pos; lia).
    assert (Hq1 : q + 1 <= 2 ^ (64 - e)).
    { apply Z.lt_succ_r, Z.succ_lt_mono.
      apply (Z.mul_lt_mono_pos_l P); [lia|]. unfold Z.succ. lia. }
    set (q' := if (1 * 2 ^ (e - 1) <? n - q * P) || ((n - q * P =? 1 * 2 ^ (e - 1)) && Z.odd q)
               then q + 1 else q).
    assert (Hq' : q <= q' <= q + 1) by (unfold q'; destruct (orb _ _); lia).
    assert (Hup : q' * P <= (q + 1) * P)
      by (apply Z.mul_le_mono_nonneg_r; lia).
    assert (Hv : q' * P <= 2 ^ 64).
    { rewrite <- HPQ, (Z.mul_comm P).
      apply Z.mul_le_mono_nonneg_r; lia. }
    assert (Hv0 : 0 <= q' * P) by (apply Z.mul_nonneg_nonneg; lia).
    assert (Hbig : 2 ^ 64 < 2 ^ 1024) by (apply Z.pow_lt_mono_r; lia).
    assert (Hv1024 : (q' * P <? 2 ^ 1024) = true)
      by (apply Z.ltb_lt; eapply Z.le_lt_trans; eassumption).
    rewrite Hv1024. exists (q' * P).
    split; [reflexivity|]. split; [split; assumption|]. split.
    + rewrite Z.mul_add_distr_r, Z.mul_1_l in Hup.
      rewrite (Z.mul_comm q P) in Hup. lia.
    + right. rewrite HP. rewrite Z.mul_assoc, (Z.mul_comm q' 2), <- Z.mul_assoc.
      rewrite Z.even_mul. reflexivity.
Qed.

(** ** Printing integers *)

Lemma digitsOf_length : forall fuel radix n acc k,
  2 <= radix -> 0 <= n < radix ^ Z.of_nat (S k) ->
  (String.length (digitsOf fuel radix n acc) <= S k + String.length acc)%nat.
Proof.
  induction fuel as [|fuel IH]; intros radix n acc k Hr Hn; cbn [digitsOf].
  - lia.
  - destruct (n <? radix) eqn:E.
    + simpl. lia.
    + apply Z.ltb_ge in E.
      destruct k as [|k].
      { change (Z.of_nat 1) with 1 in Hn. rewrite Z.pow_1_r in Hn. lia. }
      etransitivity.
      * apply (IH radix (n / radix) _ k Hr).
        split; [apply Z.div_pos; lia|].
        apply Z.div_lt_upper_bound; [lia|].
        rewrite <- Z.pow_succ_r by lia. rewrite <- Nat2Z.inj_succ. apply Hn.
      * simpl. lia.
Qed.

Lemma digitChar_lower_hex : forall d,
  0 <= d < 16 -> isLowerHexChar (digitChar d) = true.
Proof.
  intros d Hd.
  assert (H : d = 0 \/ d = 1 \/ d = 2 \/ d = 3 \/ d = 4 \/ d = 5 \/ d = 6 \/ d = 7
              \/ d = 8 \/ d = 9 \/ d = 10 \/ d = 11 \/ d = 12 \/ d = 13 \/ d = 14
              \/ d = 15) by lia.
  repeat (destruct H as [-> | H]; [reflexivity|]). subst. reflexivity.
Qed.

Lemma digitsOf_lower_hex : forall fuel n acc,
  0 <= n -> allChars isLowerHexChar acc = true ->
  allChars isLowerHexChar (digitsOf fuel 16 n acc) = true.
Proof.
  induction fuel as [|fuel IH]; intros n acc Hn Hacc; cbn [digitsOf].
  - assumption.
  - assert (Hd : allChars isLowerHexChar (String (digitChar (n mod 16)) acc) = true).
    { cbn [allChars]. rewrite Hacc, digitChar_lower_hex; [reflexivity|].
      apply Z.mod_pos_bound. lia. }
    destruct (n <? 16); [assumption|].
    apply IH; [apply Z.div_pos; lia|assumption].
Qed.

Lemma Number_toString_ofZ : forall v radix,
  0 <= v -> Number_toString (ofZ v) radix = intToString radix v.
Proof.
  intros v radix Hv. unfold Number_toString, ofZ. rewrite Qfloor_Z.
  destruct (v <? 0) eqn:E; [apply Z.ltb_lt in E; lia|reflexivity].
Qed.

Lemma repeatChar_length : forall c n, String.length (repeatChar c n) = n.
Proof. induction n; simpl; congruence. Qed.

Lemma string_length_app : forall s1 s2,
  String.length (s1 ++ s2) = (String.length s1 + String.length s2)%nat.
Proof. induction s1; intros; simpl; auto. Qed.

Lemma padStart_length : forall s n c,
  (String.length s <= n)%nat -> String.length (padStart s n c) = n.
Proof.
  intros. unfold padStart. rewrite string_length_app, repeatChar_length. lia.
Qed.

Lemma allChars_app : forall p s1 s2,
  allChars p (s1 ++ s2) = allChars p s1 && allChars p s2.
Proof.
  induction s1 as [|c s1 IH]; intros; simpl; [reflexivity|].
  now rewrite IH, andb_assoc.
Qed.

Lemma allChars_repeat : forall p c n, p c = true -> allChars p (repeatChar c n) = true.
Proof. induction n; intros; simpl; [reflexivity|]. rewrite H. auto. Qed.

Lemma hex_of_small : forall v,
  0 <= v < 2 ^ 64 ->
  isPerceptualHash (padStart (Number_toString (ofZ v) 16) 16 "0").
Proof.
  intros v Hv. rewrite Number_toString_ofZ by lia. unfold intToString. split.
  - apply padStart_length.
    assert (Hb : 0 <= v < 16 ^ Z.of_nat 16)
      by (change (16 ^ Z.of_nat 16) with (2 ^ 64); lia).
    pose proof (digitsOf_length (S (Z.to_nat (Z.log2 v))) 16 v EmptyString 15
                  ltac:(lia) Hb) as Hl.
    change (String.length EmptyString) with 0%nat in Hl. lia.
  - unfold padStart. rewrite allChars_app, allChars_repeat by reflexivity.
    apply digitsOf_lower_hex; [lia|reflexivity].
Qed.

(** ** C1 and C2 *)

Section HashTheorems.
Context `{MathLib}.

Lemma computeDCTHash_format : forall dctCoeffs,
  List.length dctCoeffs = 64%nat -> allFinite dctCoeffs ->
  isPerceptualHash
    (padStart (Number_toString (parseInt (hashBits dctCoeffs) 2) 16) 16 "0").
Proof.
  intros cs Hlen Hf. rewrite hashBits_bits.
  pose proof (bits_at_most_31 cs Hlen Hf) as Hones.
  set (bits := map (fun c => gt c (medianCoeff cs)) cs) in *.
  assert (Hbl : List.length bits = 64%nat) by (unfold bits; now rewrite length_map).
  rewrite parseInt_nonempty_bits by (intros E; rewrite E in Hbl; discriminate).
  pose proof (bitsValue_bound bits 31 Hbl Hones ltac:(lia)) as Hv.
  change (Z.of_nat (64 - 31)) with 33 in Hv.
  destruct (roundToDouble_spec (bitsValue bits)) as (v & -> & Hv0 & Hv1 & _).
  { assert (0 < 2 ^ 33) by reflexivity. lia. }
  apply hex_of_small.
  assert (2 ^ 11 < 2 ^ 33) by reflexivity. lia.
Qed.

(** C1.  The 32x32 canvas yields 4096 RGBA bytes; on every such buffer the
    hash computed by [computeDCTHash] is a string of exactly 16 lowercase
    hexadecimal characters, and it is the value [generatePerceptualHash]
    resolves with whenever the browser delivers the pixels. *)
Theorem hash_is_16_lowercase_hex : forall pixels,
  List.length pixels = 4096%nat ->
  isPerceptualHash (computeDCTHash (grayscaleOf pixels) 32)
  /\ forall file,
       loads file = true -> context2d file = true ->
       getImageData file 32 32 = Return pixels ->
       generatePerceptualHash file
       = Resolved (computeDCTHash (grayscaleOf pixels) 32).
Proof.
  intros pixels Hlen. split.
  - unfold computeDCTHash. apply computeDCTHash_format.
    + apply dctCoefficients_length.
    + apply dctCoefficients_finite.
      * now apply (grayscaleOf_finite pixels 1024).
      * lia.
      * now rewrite (grayscaleOf_length pixels 1024).
  - intros file Hl Hc Hd. unfold generatePerceptualHash.
    now rewrite Hl, Hc, Hd.
Qed.

Lemma dctCoefficients_row_major : forall grayscale size u v,
  (u < 8)%nat -> (v < 8)%nat ->
  nth_error (dctCoefficients grayscale size) (8 * u + v)
  = Some (dctCoeff grayscale size (Z.of_nat u) (Z.of_nat v)).
Proof.
  intros g size u v Hu Hv. unfold dctCoefficients.
  change (range 0 dctSize 1) with [0; 1; 2; 3; 4; 5; 6; 7].
  cbn [flat_map map app].
  do 8 (destruct u as [|u];
        [do 8 (destruct v as [|v]; [reflexivity|]); lia|]).
  lia.
Qed.

(** C2.  The 64 coefficients are stored in row-major order of [(u, v)]; the
    threshold is the element at index 32 of the ascending sort of the 63
    coefficients of indices 1..63, and the bit emitted for each of the 64
    coefficients, in their original order, is [1] exactly when the coefficient
    is strictly greater than the threshold. *)
Theorem threshold_is_sorted_index_32 : forall pixels,
  List.length pixels = 4096%nat ->
  let dctCoeffs := dctCoefficients (grayscaleOf pixels) 32 in
  exists sorted threshold,
    List.length dctCoeffs = 64%nat
    /\ (forall u v, (u < 8)%nat -> (v < 8)%nat ->
          nth_error dctCoeffs (8 * u + v)
          = Some (dctCoeff (grayscaleOf pixels) 32 (Z.of_nat u) (Z.of_nat v)))
    /\ allFinite dctCoeffs
    /\ Permutation sorted (tl dctCoeffs)
    /\ List.length sorted = 63%nat
    /\ StronglySorted numLe sorted
    /\ nth_error sorted 32 = Some threshold
    /\ medianCoeff dctCoeffs = threshold
    /\ String.length (hashBits dctCoeffs) = 64%nat
    /\ forall i c,
         nth_error dctCoeffs i = Some c ->
         String.get i (hashBits dctCoeffs)
         = Some (if Qlt_le_dec (toQ threshold) (toQ c) then "1" else "0")%char.
Proof.
  intros pixels Hlen dctCoeffs.
  assert (Hl : List.length dctCoeffs = 64%nat) by apply dctCoefficients_length.
  assert (Hf : allFinite dctCoeffs).
  { apply dctCoefficients_finite.
    - now apply (grayscaleOf_finite pixels 1024).
    - lia.
    - now rewrite (grayscaleOf_length pixels 1024). }
  destruct (medianCoeff_nth dctCoeffs Hl) as (t & Ht & Hm).
  exists (Array_sort (fun a b => sub a b) (tl dctCoeffs)), t.
  assert (Htl : allFinite (tl dctCoeffs)).
  { destruct dctCoeffs; [constructor|]. now apply Forall_cons_iff in Hf. }
  repeat split; auto.
  - intros u v Hu Hv. now apply dctCoefficients_row_major.
  - apply Array_sort_perm.
  - rewrite (Permutation_length (Array_sort_perm _ _ _)).
    destruct dctCoeffs; simpl in *; lia.
  - now apply Array_sort_sorted.
  - rewrite hashBits_bits, stringOfBits_length, length_map. exact Hl.
  - intros i c Hc. rewrite hashBits_bits, stringOfBits_get, nth_error_map, Hc, Hm.
    simpl. f_equal.
    assert (Hfc : isFinite c = true).
    { unfold allFinite in Hf. rewrite Forall_forall in Hf. apply Hf.
      eapply nth_error_In; eassumption. }
    assert (Hft : isFinite t = true).
    { assert (Hs := Array_sort_finite (fun a b => sub a b) _ Htl).
      unfold allFinite in Hs. rewrite Forall_forall in Hs. apply Hs.
      eapply nth_error_In; eassumption. }
    apply finite_inv in Hfc as [qc ->]. apply finite_inv in Hft as [qt ->].
    simpl toQ. destruct (Qlt_le_dec qt qc) as [Hlt|Hle].
    + unfold bitChar. now rewrite (proj2 (gt_Fin qc qt) Hlt).
    + unfold bitChar. now rewrite (proj2 (gt_Fin_false qc qt) Hle).
Qed.

End HashTheorems.

(** ** Binary expansions *)

Lemma string_app_assoc : forall s1 s2 s3 : string,
  ((s1 ++ s2) ++ s3 = s1 ++ (s2 ++ s3))%string.
Proof. induction s1; intros; simpl; congruence. Qed.

Lemma binString_length : forall k n, String.length (binString k n) = k.
Proof.
  induction k; intros; simpl; [reflexivity|].
  rewrite string_length_app, IHk. simpl. lia.
Qed.

Lemma digitsOf_step : forall fuel radix n acc,
  digitsOf (S fuel) radix n acc
  = if n <? radix then String (digitChar (n mod radix)) acc
    else digitsOf fuel radix (n / radix) (String (digitChar (n mod radix)) acc).
Proof. reflexivity. Qed.

Lemma digitsOf_binary : forall fuel n acc,
  0 <= n < 2 ^ Z.of_nat (S fuel) ->
  exists j, (j <= fuel)%nat /\ n < 2 ^ Z.of_nat (S j)
            /\ digitsOf (S fuel) 2 n acc = (binString (S j) n ++ acc)%string.
Proof.
  induction fuel as [|fuel IH]; intros n acc Hn; rewrite digitsOf_step.
  - exists 0%nat. change (2 ^ Z.of_nat 1) with 2 in *.
    destruct (n <? 2) eqn:E; [|apply Z.ltb_ge in E; lia].
    split; [lia|]. split; [lia|reflexivity].
  - destruct (n <? 2) eqn:E.
    + apply Z.ltb_lt in E. exists 0%nat.
      change (2 ^ Z.of_nat 1) with 2. split; [lia|]. split; [lia|reflexivity].
    + apply Z.ltb_ge in E.
      destruct (IH (n / 2) (String (digitChar (n mod 2)) acc)) as (j & Hj & Hlt & Heq).
      { split; [apply Z.div_pos; lia|].
        apply Z.div_lt_upper_bound; [lia|].
        rewrite <- Z.pow_succ_r by lia. rewrite <- Nat2Z.inj_succ. apply Hn. }
      exists (S j). split; [lia|]. split.
      * rewrite Nat2Z.inj_succ, Z.pow_succ_r by lia.
        pose proof (Z.mod_pos_bound n 2 ltac:(lia)).
        pose proof (Z.div_mod n 2 ltac:(lia)). lia.
      * rewrite Heq. cbn [binString]. now rewrite !string_app_assoc.
Qed.

Lemma repeatChar_snoc : forall c n,
  (repeatChar c n ++ String c EmptyString)%string = repeatChar c (S n).
Proof. induction n; simpl in *; congruence. Qed.

Lemma binString_zero : forall k, binString k 0 = repeatChar "0" k.
Proof.
  induction k; [reflexivity|].
  cbn [binString]. change (0 / 2) with 0. rewrite IHk.
  change (digitChar (0 mod 2)) with "0"%char. apply repeatChar_snoc.
Qed.

Lemma binString_pad : forall j m n,
  0 <= n < 2 ^ Z.of_nat j ->
  binString (m + j) n = (repeatChar "0" m ++ binString j n)%string.
Proof.
  induction j as [|j IH]; intros m n Hn.
  - change (2 ^ Z.of_nat 0) with 1 in Hn. assert (n = 0) by lia. subst.
    rewrite Nat.add_0_r, binString_zero. simpl.
    clear. induction (repeatChar "0" m); simpl; congruence.
  - rewrite Nat.add_succ_r. cbn [binString]. rewrite IH.
    + now rewrite string_app_assoc.
    + split; [apply Z.div_pos; lia|].
      apply Z.div_lt_upper_bound; [lia|].
      rewrite <- Z.pow_succ_r by lia. rewrite <- Nat2Z.inj_succ. apply Hn.
Qed.

Lemma padded_binary : forall v,
  0 <= v < 2 ^ 64 ->
  padStart (Number_toString (ofZ v) 2) 64 "0" = binString 64 v.
Proof.
  intros v Hv. rewrite Number_toString_ofZ by lia. unfold intToString.
  assert (Hlog : 0 <= Z.log2 v < 64).
  { split; [apply Z.log2_nonneg|].
    destruct (Z.eq_dec v 0) as [->|]; [reflexivity|].
    apply Z.log2_lt_pow2; lia. }
  destruct (digitsOf_binary (Z.to_nat (Z.log2 v)) v EmptyString) as (j & Hj & Hlt & ->).
  { split; [lia|]. rewrite Nat2Z.inj_succ, Z2Nat.id by lia.
    destruct (Z.eq_dec v 0) as [->|]; [reflexivity|].
    apply Z.log2_spec. lia. }
  unfold padStart. rewrite string_length_app, binString_length. simpl String.length.
  replace ((binString (S j) v ++ "")%string) with (binString (S j) v)
    by (clear; induction (binString (S j) v); simpl; congruence).
  rewrite <- binString_pad by lia. f_equal. lia.
Qed.

Lemma binString_get : forall k n i,
  (i < k)%nat ->
  String.get i (binString k n)
  = Some (digitChar ((n / 2 ^ Z.of_nat (k - 1 - i)) mod 2)).
Proof.
  induction k as [|k IH]; intros n i Hi; [lia|].
  cbn [binString]. destruct (Nat.eq_dec i k) as [->|Hne].
  - pose proof (append_correct2 (binString k (n / 2))
                  (String (digitChar (n mod 2)) EmptyString) 0) as Hg.
    rewrite binString_length in Hg. simpl Nat.add in Hg. rewrite <- Hg.
    replace (S k - 1 - k)%nat with 0%nat by lia.
    change (2 ^ Z.of_nat 0) with 1. rewrite Z.div_1_r. reflexivity.
  - rewrite <- append_correct1 by (rewrite binString_length; lia).
    rewrite IH by lia.
    replace (S k - 1 - i)%nat with (S (k - 1 - i)) by lia.
    rewrite Nat2Z.inj_succ, Z.pow_succ_r by lia.
    rewrite Z.div_div by (try lia; apply Z.pow_pos_nonneg; lia).
    reflexivity.
Qed.

(** ** Parsing hexadecimal hashes *)

Lemma isHexChar_cases : forall c,
  isHexChar c = true ->
  In c (list_ascii_of_string "0123456789abcdefABCDEF").
Proof.
  intros c Hc. unfold isHexChar in Hc. apply existsb_exists in Hc.
  destruct Hc as (x & Hin & Heq). apply Ascii.eqb_eq in Heq. now subst.
Qed.

Lemma hex_digitValue : forall c,
  isHexChar c = true -> exists d, digitValue c = Some d /\ 0 <= d < 16.
Proof.
  intros c Hc. apply isHexChar_cases in Hc. simpl in Hc.
  repeat (destruct Hc as [<-|Hc];
          [eexists; split; [reflexivity|split; [discriminate|reflexivity]]|]).
  contradiction.
Qed.

Lemma parseDigits_hex : forall s a,
  allChars isHexChar s = true -> 0 <= a ->
  exists m, parseDigits 16 s (Some a) = Some m
            /\ a * 16 ^ Z.of_nat (String.length s) <= m
               < (a + 1) * 16 ^ Z.of_nat (String.length s).
Proof.
  induction s as [|c s IH]; intros a Hs Ha.
  - exists a. simpl. split; [reflexivity|lia].
  - cbn [allChars] in Hs. apply andb_true_iff in Hs as [Hc Hs].
    destruct (hex_digitValue c Hc) as (d & Hd & Hd16).
    cbn [parseDigits]. rewrite Hd.
    destruct (d <? 16) eqn:E; [|apply Z.ltb_ge in E; lia].
    destruct (IH (a * 16 + d) Hs ltac:(lia)) as (m & Hm & Hb).
    exists m. split; [exact Hm|].
    cbn [String.length]. rewrite Nat2Z.inj_succ, Z.pow_succ_r by lia.
    assert (0 < 16 ^ Z.of_nat (String.length s)) by (apply Z.pow_pos_nonneg; lia).
    nia.
Qed.

Lemma parseInt_hex_digits : forall s,
  s <> EmptyString -> allChars isHexChar s = true ->
  parseInt s 16 = match parseDigits 16 s None with
                  | Some m => roundToDouble m
                  | None => NaN
                  end.
Proof.
  intros [|c s] Hne Hs; [contradiction|].
  cbn [allChars] in Hs. apply andb_true_iff in Hs as [Hc Hs].
  apply isHexChar_cases in Hc. simpl in Hc.
  destruct Hc as [<-|Hc].
  - destruct s as [|c2 s]; [reflexivity|].
    cbn [allChars] in Hs. apply andb_true_iff in Hs as [Hc2 _].
    apply isHexChar_cases in Hc2. simpl in Hc2.
    repeat (destruct Hc2 as [<-|Hc2]; [reflexivity|]). contradiction.
  - repeat (destruct Hc as [<-|Hc]; [reflexivity|]). contradiction.
Qed.

Lemma parseInt_hex16 : forall s,
  isHex16 s ->
  exists v, parseInt s 16 = ofZ v
            /\ 0 <= v <= 2 ^ 64 /\ (v < 2 ^ 53 \/ Z.even v = true).
Proof.
  intros s [Hlen Hs].
  rewrite parseInt_hex_digits; [|intros ->; discriminate|assumption].
  destruct s as [|c s]; [discriminate|].
  cbn [allChars] in Hs. apply andb_true_iff in Hs as [Hc Hs].
  destruct (hex_digitValue c Hc) as (d & Hd & Hd16).
  cbn [parseDigits]. rewrite Hd.
  destruct (d <? 16) eqn:E; [|apply Z.ltb_ge in E; lia].
  destruct (parseDigits_hex s (0 * 16 + d) Hs ltac:(lia)) as (m & -> & Hm).
  simpl in Hlen. injection Hlen as Hlen. rewrite Hlen in Hm.
  change (16 ^ Z.of_nat 15) with (2 ^ 60) in Hm.
  destruct (roundToDouble_spec m) as (v & Hv & Hv0 & _ & Hv53).
  { assert (2 ^ 64 = 16 * 2 ^ 60) by reflexivity. lia. }
  exists v. auto.
Qed.

(** ** Counting differing positions *)

Lemma fold_count : forall (A : Type) (p : A -> bool) l a,
  fold_left (fun distance i => if p i then distance + 1 else distance) l a
  = a + Z.of_nat (countIf p l).
Proof.
  intros A p l. unfold countIf. induction l as [|x l IH]; intros a; simpl.
  - lia.
  - rewrite IH. destruct (p x); simpl; lia.
Qed.

Lemma countIf_miss : forall (A : Type) (p : A -> bool) l x,
  In x l -> p x = false -> (countIf p l < List.length l)%nat.
Proof.
  intros A p l x. unfold countIf. induction l as [|y l IH]; intros Hin Hp; [contradiction|].
  simpl. destruct Hin as [->|Hin].
  - rewrite Hp. pose proof (filter_length_le p l). lia.
  - specialize (IH Hin Hp). destruct (p y); simpl; lia.
Qed.

Lemma sameChar_refl : forall a, sameChar a a = true.
Proof. intros [c|]; simpl; [apply Ascii.eqb_refl|reflexivity]. Qed.

(** C4.  On two strings of 16 hexadecimal characters the distance is an
    integer between 0 and 64. *)
Theorem hamming_distance_range : forall hash1 hash2,
  isHex16 hash1 -> isHex16 hash2 ->
  exists d, calculateHammingDistance hash1 hash2 = ofZ d /\ 0 <= d <= 64.
Proof.
  intros h1 h2 H1 H2. unfold calculateHammingDistance.
  destruct H1 as [L1 A1], H2 as [L2 A2]. rewrite L1, L2. cbn [Nat.eqb negb].
  destruct (parseInt_hex16 h1 (conj L1 A1)) as (v1 & -> & Hv1 & _).
  destruct (parseInt_hex16 h2 (conj L2 A2)) as (v2 & -> & Hv2 & Hr2).
  rewrite fold_count. eexists. split; [reflexivity|].
  split; [lia|]. rewrite Z.add_0_l.
  set (p := fun i => negb (sameChar _ _)).
  destruct (Z.eq_dec v1 (2 ^ 64)) as [E1|N1].
  - (* the first expansion has 65 digits *)
    subst v1.
    set (bin1 := padStart (Number_toString (ofZ (2 ^ 64)) 2) 64 "0") in *.
    assert (Hb1 : bin1 = String "1" (repeatChar "0" 64)) by (vm_compute; reflexivity).
    assert (Hlen1 : String.length bin1 = 65%nat) by (rewrite Hb1; reflexivity).
    rewrite Hlen1.
    destruct (Z.eq_dec v2 (2 ^ 64)) as [E2|N2].
    + subst v2. rewrite countIf_none; [lia|].
      intros i _. unfold p. now rewrite sameChar_refl.
    + assert (Hv2' : 0 <= v2 < 2 ^ 64) by lia.
      assert (Hmiss : exists i, (i < 65)%nat /\ p i = false).
      { unfold p, charAt. rewrite (padded_binary v2 Hv2'), Hb1.
        destruct (Z_lt_le_dec v2 (2 ^ 62)) as [Hs|Hs].
        - exists 1%nat. split; [lia|]. rewrite binString_get by lia.
          change (2 ^ Z.of_nat (64 - 1 - 1)) with (2 ^ 62).
          rewrite Z.div_small by lia. reflexivity.
        - destruct (Z_lt_le_dec v2 (2 ^ 63)) as [Hm|Hm].
          + exists 63%nat. split; [lia|]. rewrite binString_get by lia.
            change (2 ^ Z.of_nat (64 - 1 - 63)) with 1. rewrite Z.div_1_r.
            destruct Hr2 as [Hr2|Hr2]; [assert (2 ^ 53 < 2 ^ 62) by reflexivity; lia|].
            rewrite Zmod_even, Hr2. reflexivity.
          + exists 0%nat. split; [lia|]. rewrite binString_get by lia.
            change (2 ^ Z.of_nat (64 - 1 - 0)) with (2 ^ 63).
            replace (v2 / 2 ^ 63) with 1; [reflexivity|].
            apply Z.div_unique with (r := v2 - 2 ^ 63); lia. }
      destruct Hmiss as (i & Hi & Hp).
      pose proof (countIf_miss _ p (seq 0 65) i ltac:(apply in_seq; lia) Hp) as Hc.
      rewrite length_seq in Hc. lia.
  - assert (Hv1' : 0 <= v1 < 2 ^ 64) by lia.
    rewrite (padded_binary v1 Hv1'), binString_length.
    pose proof (countIf_le_length _ p (seq 0 64)) as Hc.
    rewrite length_seq in Hc. lia.
Qed.

(** ** Integers and their digits *)

Lemma digitValue_digitChar : forall d,
  0 <= d < 36 -> digitValue (digitChar d) = Some d.
Proof.
  intros d Hd.
  assert (H : exists k, (k < 36)%nat /\ d = Z.of_nat k)
    by (exists (Z.to_nat d); lia).
  destruct H as (k & Hk & ->).
  do 36 (destruct k as [|k]; [reflexivity|]). lia.
Qed.

Lemma parseDigits_app_digit : forall radix ds d rest a,
  0 <= d < radix -> radix <= 36 ->
  (forall b tail, parseDigits radix (ds ++ tail) (Some b)
                  = parseDigits radix tail (Some (b * radix ^ Z.of_nat (String.length ds) + a))) ->
  forall b, parseDigits radix ((ds ++ String (digitChar d) EmptyString) ++ rest) (Some b)
            = parseDigits radix rest
                (Some (b * radix ^ Z.of_nat (String.length (ds ++ String (digitChar d) EmptyString))
                       + (a * radix + d))).
Proof.
  intros radix ds d rest a Hd Hr Hds b.
  rewrite string_app_assoc, Hds. cbn [append parseDigits].
  rewrite digitValue_digitChar by lia.
  destruct (d <? radix) eqn:E; [|apply Z.ltb_ge in E; lia].
  f_equal. f_equal.
  rewrite string_length_app. cbn [String.length].
  rewrite Nat2Z.inj_add. change (Z.of_nat 1) with 1.
  rewrite Z.pow_add_r, Z.pow_1_r by lia. ring.
Qed.

(** The digits printed for [n] read back as [n]: the fuel of [intToString]
    is enough to reach the leading digit. *)
Lemma digitsOf_reads_back : forall fuel radix n acc,
  2 <= radix <= 36 -> 0 <= n < radix ^ Z.of_nat (S fuel) ->
  exists ds,
    digitsOf (S fuel) radix n acc = (ds ++ acc)%string
    /\ (0 < String.length ds)%nat
    /\ forall b tail, parseDigits radix (ds ++ tail) (Some b)
                      = parseDigits radix tail
                          (Some (b * radix ^ Z.of_nat (String.length ds) + n)).
Proof.
  induction fuel as [|fuel IH]; intros radix n acc Hr Hn; rewrite digitsOf_step.
  - change (Z.of_nat 1) with 1 in Hn. rewrite Z.pow_1_r in Hn.
    destruct (n <? radix) eqn:E; [|apply Z.ltb_ge in E; lia].
    rewrite Z.mod_small by lia.
    exists (String (digitChar n) EmptyString). split; [reflexivity|].
    split; [simpl; lia|]. intros b tail. cbn [append parseDigits String.length].
    rewrite digitValue_digitChar by lia. rewrite E.
    change (Z.of_nat 1) with 1. now rewrite Z.pow_1_r.
  - destruct (n <? radix) eqn:E.
    + apply Z.ltb_lt in E. rewrite Z.mod_small by lia.
      exists (String (digitChar n) EmptyString). split; [reflexivity|].
      split; [simpl; lia|]. intros b tail. cbn [append parseDigits String.length].
      rewrite digitValue_digitChar by lia.
      destruct (n <? radix) eqn:E'; [|apply Z.ltb_ge in E'; lia].
      change (Z.of_nat 1) with 1. now rewrite Z.pow_1_r.
    + apply Z.ltb_ge in E.
      destruct (IH radix (n / radix) (String (digitChar (n mod radix)) acc) Hr)
        as (ds & Heq & Hlen & Hread).
      { split; [apply Z.div_pos; lia|].
        apply Z.div_lt_upper_bound; [lia|].
        rewrite <- Z.pow_succ_r by lia. rewrite <- Nat2Z.inj_succ. apply Hn. }
      exists (ds ++ String (digitChar (n mod radix)) EmptyString)%string.
      split; [rewrite Heq; now rewrite string_app_assoc|].
      split; [rewrite string_length_app; lia|].
      intros b tail.
      pose proof (Z.mod_pos_bound n radix ltac:(lia)) as Hm.
      rewrite (parseDigits_app_digit radix ds (n mod radix) tail (n / radix))
        by (try lia; exact Hread).
      do 2 f_equal. f_equal.
      pose proof (Z.div_mod n radix ltac:(lia)). lia.
Qed.

Lemma intToString_reads_back : forall radix n,
  2 <= radix <= 36 -> 0 <= n ->
  parseDigits radix (intToString radix n) (Some 0) = Some n.
Proof.
  intros radix n Hr Hn. unfold intToString.
  destruct (digitsOf_reads_back (Z.to_nat (Z.log2 n)) radix n EmptyString Hr)
    as (ds & -> & _ & Hread).
  - split; [lia|]. rewrite Nat2Z.inj_succ, Z2Nat.id by apply Z.log2_nonneg.
    destruct (Z.eq_dec n 0) as [->|Hne].
    + change (Z.log2 0) with 0. apply Z.pow_pos_nonneg; lia.
    + eapply Z.lt_le_trans; [apply Z.log2_spec; lia|].
      apply Z.pow_le_mono_l. lia.
  - rewrite Hread. reflexivity.
Qed.

(** [roundToDouble] agrees with the IEEE-754 model of the Standard Library
    on exactly representable integers, on ties, around [2^64] and at the
    overflow threshold. *)
Example roundToDouble_agrees_with_SpecFloat :
  forallb (fun n => match roundToDouble n, binary64OfInteger n with
                    | Fin x, Fin y => Qeq_bool x y
                    | Infinity, Infinity => true
                    | _, _ => false
                    end)
    [0;
     1;
     255;
     2 ^ 53 - 1;
     2 ^ 53;
     2 ^ 53 + 1;
     2 ^ 53 + 2;
     2 ^ 53 + 3;
     2 ^ 54 + 2;
     2 ^ 54 + 6;
     2 ^ 63 - 1;
     2 ^ 64 - 2 ^ 33;
     2 ^ 64 - 1025;
     2 ^ 64 - 1024;
     2 ^ 64 - 1;
     2 ^ 64;
     2 ^ 1024 - 2 ^ 970 - 1;
     2 ^ 1024 - 2 ^ 970;
     2 ^ 1024;
     2782676153706958080;
     14794762486492979;
     1069891289537943645;
     792723338049442008;
     3268277872367396;
     10186308767749295;
     5787050044124345144;
     10548175869641935;
     5134327459162675120;
     2661036548695044674;
     1847397918363044565330675859450743508874114291732770803688141926515786141699016607653399487907635144536444746642458219530708047935509125519025052319744;
     6275582095063844132;
     10801709783547227920;
     4582661622865954733;
     5298123596289569280;
     24782752181251539655;
     254081200512110565409514982034132364567750601404523482306094555537935051453712397098073590547240205309042962162901441060122280822531434010715678883128;
     3092307631921122498554147417901935476017567482272292723622204315218523623189371633906125524546454090921910738213848791084739949840579558859148986679296;
     26342791328565259;
     1999777037194446611382750066697698947842496788615046867493290723690417474693743637605196976822428297192409043920913877347235557208084825800857461194752;
     13839253148301051;
     3605874558531051344;
     3068916285533387239;
     2525841537240494425;
     1221325617341752458069067956224;
     4256614131218374400;
     267428059185642941;
     14971652486366335;
     75513742547000504;
     441010987218427615351631472365;
     844173414220481675361270227066;
     34513480007578798991;
     506979334700890704991915868160;
     3516125473068251392;
     1496982686517750912;
     1231547328811394629614358091446490899203975196842565222332760104097931504909515470421830503309942595728567702232407614311838262218381723770632984854528;
     6408206044276297084;
     20574640760106948267;
     8925174087349382656;
     12344757135778133]
  = true.
Proof. vm_compute. reflexivity. Qed.

(** ** Sentinels for incomparable inputs *)

(** C5.  A length mismatch is answered by a sentinel value: the distance of
    two strings of different lengths is [Infinity], and the similarity of two
    vectors of different lengths is [0]. *)
Theorem length_mismatch_sentinels : forall `{MathLib},
  (forall hash1 hash2,
     String.length hash1 <> String.length hash2 ->
     calculateHammingDistance hash1 hash2 = Infinity)
  /\ (forall vec1 vec2,
        List.length vec1 <> List.length vec2 ->
        cosineSimilarity vec1 vec2 = ofZ 0).
Proof.
  intros M. split.
  - intros h1 h2 Hne. unfold calculateHammingDistance.
    apply Nat.eqb_neq in Hne. now rewrite Hne.
  - intros v1 v2 Hne. unfold cosineSimilarity.
    apply Nat.eqb_neq in Hne. now rewrite Hne.
Qed.

(** ** Nearest-neighbour search *)

Lemma distance_shape : forall hash1 hash2,
  calculateHammingDistance hash1 hash2 = Infinity
  \/ exists d, calculateHammingDistance hash1 hash2 = ofZ d /\ 0 <= d.
Proof.
  intros h1 h2. unfold calculateHammingDistance.
  destruct (negb _); [now left|right].
  rewrite fold_count. eexists. split; [reflexivity|lia].
Qed.

Lemma admissible_distance : forall query a,
  admissible query a = true ->
  noHash a = false
  /\ exists d, hammingTo query a = ofZ d /\ 0 <= d <= 20.
Proof.
  intros q a Ha. unfold admissible in Ha.
  apply andb_true_iff in Ha as [Hh Hle]. apply negb_true_iff in Hh.
  split; [assumption|]. unfold hammingTo in *.
  destruct (distance_shape q (storedHash a)) as [E|(d & E & Hd)];
    rewrite E in Hle |- *.
  - discriminate.
  - unfold moderateThreshold in Hle. rewrite le_ofZ in Hle.
    apply Z.leb_le in Hle. exists d. split; [reflexivity|lia].
Qed.

Lemma clamp_confidence : forall x,
  same (Math_max (ofZ 0) (Math_min (ofZ 1) (Fin x)))
       (Fin (Qmax 0 (Qmin 1 x))).
Proof.
  intros x. unfold Math_max, Math_min, ofZ. cbn [isNaN orb].
  change (inject_Z 1) with 1%Q. change (inject_Z 0) with 0%Q.
  destruct (Q.min_spec 1 x) as [[H1 E1]|[H1 E1]];
    destruct (Q.max_spec 0 (Qmin 1 x)) as [[H0 E0]|[H0 E0]];
    destruct (lt (Fin x) (Fin 1)) eqn:L1;
    try (apply (gt_Fin 1 x) in L1); try (apply (gt_Fin_false 1 x) in L1);
    cbn [isNaN orb];
    try (change (lt (Fin 0) (Fin 1)) with true; cbn iota);
    try (destruct (lt (Fin 0) (Fin x)) eqn:L0;
         try (apply (gt_Fin x 0) in L0); try (apply (gt_Fin_false x 0) in L0));
    unfold same; lra.
Qed.

Lemma confidence_of_distance : forall d,
  same (calculateConfidence (ofZ d))
       (Fin (Qmax 0 (Qmin 1 (1 - inject_Z d / 64)))).
Proof.
  intros d. unfold calculateConfidence. cbv zeta.
  change (div (ofZ d) (ofZ 64)) with (div (Fin (inject_Z d)) (ofZ 64)).
  rewrite div_ofZ_finite by discriminate. apply clamp_confidence.
Qed.


Lemma visit_keeps_best : forall query seen closestMatch a,
  bestSoFar query seen closestMatch ->
  bestSoFar query (seen ++ [a]) (visit query closestMatch a).
Proof.
  intros q seen r a Hinv.
  destruct (admissible q a) eqn:Ha.
  - (* the entry is admissible *)
    unfold visit.
    destruct (admissible_distance q a Ha) as (Hh & da & Hda & Hrange).
    unfold admissible in Ha. rewrite Hh in Ha |- *. cbn [negb andb] in Ha.
    fold (hammingTo q a). rewrite Ha.
    destruct r as [m|].
    + destruct Hinv as (before & after & dm & Hseen & Hm & Hdm & Hdz & Hr & Hbefore & Hafter & Hconf).
      destruct (lt (hammingTo q a) (distance m)) eqn:Hlt.
      * (* strictly closer: the new entry replaces the match *)
        exists seen, [], da. cbn [artwork distance confidence].
        rewrite Hda, Hdz, lt_ofZ in Hlt. apply Z.ltb_lt in Hlt.
        repeat split; try assumption; try lia.
        -- unfold admissible. now rewrite Hh, Ha.
        -- intros b Hb Hadm. rewrite Hda.
           destruct (admissible_distance q b Hadm) as (_ & db & Hdb & _).
           rewrite Hdb, lt_ofZ. apply Z.ltb_lt.
           rewrite Hseen in Hb. apply in_app_or in Hb as [Hb|[<-|Hb]].
           ++ specialize (Hbefore b Hb Hadm).
              rewrite Hdz, Hdb, lt_ofZ in Hbefore. apply Z.ltb_lt in Hbefore. lia.
           ++ rewrite <- Hdm, Hdz in Hdb. unfold ofZ in Hdb.
              injection Hdb as Hdb. lia.
           ++ specialize (Hafter b Hb Hadm).
              rewrite Hdz, Hdb, le_ofZ in Hafter. apply Z.leb_le in Hafter. lia.
        -- intros b [].
      * (* not closer: the match stays, the entry joins the tail *)
        exists before, (after ++ [a]), dm.
        rewrite Hda, Hdz, lt_ofZ in Hlt. apply Z.ltb_ge in Hlt.
        repeat split; try assumption; try lia.
        -- rewrite Hseen, <- app_assoc. reflexivity.
        -- intros b Hb Hadm. apply in_app_or in Hb as [Hb|[<-|[]]].
           ++ now apply Hafter.
           ++ rewrite Hdz, Hda, le_ofZ. now apply Z.leb_le.
    + (* first admissible entry *)
      exists seen, [], da. cbn [artwork distance confidence].
      repeat split; try assumption; try lia.
      * unfold admissible. now rewrite Hh, Ha.
      * intros b Hb Hadm. rewrite (Hinv b Hb) in Hadm. discriminate.
      * intros b [].
  - (* the entry is skipped or too far *)
    assert (Hsame : visit q r a = r).
    { unfold visit. unfold admissible, hammingTo in Ha.
      destruct (noHash a); [reflexivity|].
      cbn [negb andb] in Ha. now rewrite Ha. }
    rewrite Hsame. destruct r as [m|]; cbn [bestSoFar] in *.
    + destruct Hinv as (before & after & dm & Hseen & Hm & Hdm & Hdz & Hr & Hbefore & Hafter & Hconf).
      exists before, (after ++ [a]), dm.
      repeat split; try assumption; try lia.
      * rewrite Hseen, <- app_assoc. reflexivity.
      * intros b Hb Hadm. apply in_app_or in Hb as [Hb|[<-|[]]].
        -- now apply Hafter.
        -- congruence.
    + intros b Hb. apply in_app_or in Hb as [Hb|[<-|[]]]; auto.
Qed.

Lemma findSimilarArtwork_best : forall query allArtworks,
  bestSoFar query allArtworks (findSimilarArtwork query allArtworks).
Proof.
  intros q l. unfold findSimilarArtwork.
  induction l as [|a l IH] using rev_ind.
  - simpl. intros a [].
  - rewrite fold_left_app. simpl. now apply visit_keeps_best.
Qed.





(** ** The colour histogram *)

Lemma add_ofZ : forall a b, add (ofZ a) (ofZ b) = ofZ (a + b).
Proof.
  intros a b. unfold add, ofZ, Qplus, inject_Z. simpl. f_equal. f_equal. lia.
Qed.

Lemma Array_increment_ofZ : forall h z,
  0 <= z -> Array_increment h (ofZ z) = incrementNth (Z.to_nat z) h.
Proof.
  intros h z Hz. unfold Array_increment, ofZ. rewrite Qfloor_Z.
  rewrite (proj2 (Qeq_bool_iff _ _) (Qeq_refl (inject_Z z))).
  destruct (0 <=? z) eqn:E; [reflexivity|apply Z.leb_gt in E; lia].
Qed.

Lemma incrementNth_seq : forall (f : nat -> Z) N s i,
  incrementNth i (map (fun x => ofZ (f x)) (seq s N))
  = map (fun x => ofZ (f x + (if (x =? s + i)%nat then 1 else 0))) (seq s N).
Proof.
  intros f N. induction N as [|N IH]; intros s i; [now destruct i|].
  destruct i as [|i]; cbn [seq map incrementNth].
  - rewrite Nat.add_0_r, Nat.eqb_refl, add_ofZ. f_equal.
    apply map_ext_in. intros x Hx. apply in_seq in Hx.
    destruct (Nat.eqb_spec x s); [lia|]. now rewrite Z.add_0_r.
  - rewrite IH. f_equal.
    + destruct (Nat.eqb_spec s (s + S i)); [lia|]. now rewrite Z.add_0_r.
    + apply map_ext. intros x. now rewrite Nat.add_succ_comm.
Qed.

Lemma bin_of_sample : forall v,
  Math_floor (div (ofZ v) (div (ofZ 256) (ofZ 16))) = ofZ (v / 16).
Proof.
  intros v. unfold Math_floor, div, ofZ. simpl Qeq_bool. cbn iota.
  f_equal. unfold Qfloor, Qdiv, Qmult, Qinv, inject_Z. simpl.
  do 2 f_equal. change 256 with (16 * 16).
  now rewrite Z.div_mul_cancel_r by lia.
Qed.

Lemma Uint8_get_sample : forall pixels n j c,
  List.length pixels = (4 * n)%nat -> (j < n)%nat -> (c < 4)%nat ->
  Uint8_get pixels (4 * Z.of_nat j + Z.of_nat c) = ofZ (sampleAt pixels j c).
Proof.
  intros pixels n j c Hlen Hj Hc. unfold Uint8_get, Uint8_read, sampleAt.
  destruct (4 * Z.of_nat j + Z.of_nat c <? 0) eqn:E; [apply Z.ltb_lt in E; lia|].
  replace (Z.to_nat (4 * Z.of_nat j + Z.of_nat c)) with (4 * j + c)%nat by lia.
  destruct (nth_error pixels (4 * j + c)) eqn:N.
  - now rewrite (nth_error_nth _ _ _ N).
  - apply nth_error_None in N. lia.
Qed.

Lemma sampleAt_bin : forall pixels j c, 0 <= sampleAt pixels j c / 16 < 16.
Proof.
  intros. unfold sampleAt, byteValue.
  pose proof (to_N_bounded (nth (4 * j + c) pixels x00)) as Hb.
  split.
  - apply Z.div_pos; lia.
  - apply Z.div_lt_upper_bound; lia.
Qed.

Lemma histogram_step : forall pixels n j (f : nat -> Z),
  List.length pixels = (4 * n)%nat -> (j < n)%nat ->
  let i := 4 * Z.of_nat j in
  let binSize := div (ofZ 256) (ofZ 16) in
  let r := Math_floor (div (Uint8_get pixels i) binSize) in
  let g := Math_floor (div (Uint8_get pixels (i + 1)) binSize) in
  let b := Math_floor (div (Uint8_get pixels (i + 2)) binSize) in
  Array_increment
    (Array_increment
       (Array_increment (map (fun x => ofZ (f x)) (seq 0 48)) r)
       (add (ofZ 16) g))
    (add (ofZ (16 * 2)) b)
  = map (fun x => ofZ (f x + hits pixels j x)) (seq 0 48).
Proof.
  intros pixels n j f Hlen Hj i binSize r g b.
  pose proof (sampleAt_bin pixels j 0) as H0.
  pose proof (sampleAt_bin pixels j 1) as H1.
  pose proof (sampleAt_bin pixels j 2) as H2.
  assert (Er : r = ofZ (sampleAt pixels j 0 / 16)).
  { unfold r, binSize, i. rewrite <- bin_of_sample. do 2 f_equal.
    rewrite <- (Uint8_get_sample pixels n j 0 Hlen Hj) by lia. f_equal. lia. }
  assert (Eg : g = ofZ (sampleAt pixels j 1 / 16)).
  { unfold g, binSize, i. rewrite <- bin_of_sample. do 2 f_equal.
    rewrite <- (Uint8_get_sample pixels n j 1 Hlen Hj) by lia. f_equal. }
  assert (Eb : b = ofZ (sampleAt pixels j 2 / 16)).
  { unfold b, binSize, i. rewrite <- bin_of_sample. do 2 f_equal.
    rewrite <- (Uint8_get_sample pixels n j 2 Hlen Hj) by lia. f_equal. }
  rewrite Er, Eg, Eb, !add_ofZ, !Array_increment_ofZ by lia.
  rewrite !incrementNth_seq. apply map_ext. intros x. unfold hits.
  rewrite !Nat.add_0_l.
  replace (Z.to_nat (16 + sampleAt pixels j 1 / 16))
    with (16 + Z.to_nat (sampleAt pixels j 1 / 16))%nat by lia.
  replace (Z.to_nat (16 * 2 + sampleAt pixels j 2 / 16))
    with (32 + Z.to_nat (sampleAt pixels j 2 / 16))%nat by lia.
  f_equal. lia.
Qed.

Lemma histogram_loop : forall pixels n m,
  List.length pixels = (4 * n)%nat -> (m <= n)%nat ->
  fold_left
    (fun histogram i =>
       let r := Math_floor (div (Uint8_get pixels i) (div (ofZ 256) (ofZ 16))) in
       let g := Math_floor (div (Uint8_get pixels (i + 1)) (div (ofZ 256) (ofZ 16))) in
       let b := Math_floor (div (Uint8_get pixels (i + 2)) (div (ofZ 256) (ofZ 16))) in
       let histogram := Array_increment histogram r in
       let histogram := Array_increment histogram (add (ofZ 16) g) in
       Array_increment histogram (add (ofZ (16 * 2)) b))
    (map (fun k => 4 * Z.of_nat k) (seq 0 m))
    (repeat (ofZ 0) (Z.to_nat (16 * 3)))
  = map (fun x => ofZ (tally pixels m x)) (seq 0 48).
Proof.
  intros pixels n m Hlen. induction m as [|m IH]; intros Hm.
  - reflexivity.
  - rewrite seq_S, map_app, fold_left_app, IH by lia.
    cbn [Nat.add map fold_left]. cbv zeta.
    apply (histogram_step pixels n m (tally pixels m) Hlen). lia.
Qed.

Lemma binCount_succ : forall pixels n c k,
  binCount pixels (S n) c k
  = binCount pixels n c k + (if sampleAt pixels n c / 16 =? k then 1 else 0).
Proof.
  intros. unfold binCount. rewrite seq_S, countIf_app. cbn [Nat.add].
  unfold countIf at 2. cbn [filter].
  destruct (sampleAt pixels n c / 16 =? k); simpl; lia.
Qed.

Lemma tally_binCount : forall pixels n c k,
  (c < 3)%nat -> (k < 16)%nat ->
  tally pixels n (16 * c + k) = binCount pixels n c (Z.of_nat k).
Proof.
  intros pixels n c k Hc Hk. induction n as [|n IH]; [reflexivity|].
  cbn [tally]. rewrite binCount_succ, IH. f_equal. unfold hits.
  pose proof (sampleAt_bin pixels n 0) as H0.
  pose proof (sampleAt_bin pixels n 1) as H1.
  pose proof (sampleAt_bin pixels n 2) as H2.
  assert (Hcases : (c = 0 \/ c = 1 \/ c = 2)%nat) by lia.
  destruct Hcases as [-> | [-> | ->]];
    repeat match goal with
           | |- context [(?a =? ?b)%nat] => destruct (Nat.eqb_spec a b)
           | |- context [?a =? ?b] => destruct (Z.eqb_spec a b)
           end; lia.
Qed.

Lemma Zsum_map_add : forall (A : Type) (f g : A -> Z) l,
  Zsum (map (fun x => f x + g x) l) = Zsum (map f l) + Zsum (map g l).
Proof.
  intros A f g l. induction l as [|x l IH]; simpl; [reflexivity|].
  unfold Zsum in *. lia.
Qed.

Lemma one_bin : forall b,
  0 <= b < 16 ->
  Zsum (map (fun k => if b =? Z.of_nat k then 1 else 0) (seq 0 16)) = 1.
Proof.
  intros b Hb.
  assert (H : b = 0 \/ b = 1 \/ b = 2 \/ b = 3 \/ b = 4 \/ b = 5 \/ b = 6 \/ b = 7
              \/ b = 8 \/ b = 9 \/ b = 10 \/ b = 11 \/ b = 12 \/ b = 13 \/ b = 14
              \/ b = 15) by lia.
  repeat (destruct H as [-> | H]; [reflexivity|]). subst. reflexivity.
Qed.

Lemma binCount_total : forall pixels n c,
  Zsum (map (fun k => binCount pixels n c (Z.of_nat k)) (seq 0 16)) = Z.of_nat n.
Proof.
  intros pixels n c. induction n as [|n IH]; [reflexivity|].
  rewrite (map_ext _ _ (fun k => binCount_succ pixels n c (Z.of_nat k))).
  rewrite Zsum_map_add, IH, one_bin by apply sampleAt_bin. lia.
Qed.

Lemma fold_add_Fin : forall (A : Type) (q : A -> Q) l a,
  fold_left add (map (fun x => Fin (q x)) l) (Fin a)
  = Fin (fold_left Qplus (map q l) a).
Proof.
  intros A q l. induction l as [|x l IH]; intros a; simpl; [reflexivity|].
  apply IH.
Qed.

Lemma fold_Qplus_shares : forall (A : Type) (f : A -> Z) (T : Q) l a,
  ~ (T == 0)%Q ->
  (fold_left Qplus (map (fun x => inject_Z (f x) / T) l) a
   == a + inject_Z (Zsum (map f l)) / T)%Q.
Proof.
  intros A f T l. induction l as [|x l IH]; intros a HT; simpl.
  - unfold Qdiv. change (inject_Z 0) with 0%Q. ring.
  - rewrite IH by assumption. rewrite inject_Z_plus. field. assumption.
Qed.

Lemma histogram_shape : forall pixels n,
  List.length pixels = (4 * n)%nat -> (0 < n)%nat ->
  exists T, (T == inject_Z (Z.of_nat n))%Q
            /\ computeColorHistogram pixels
               = map (fun x => Fin (inject_Z (tally pixels n x) / T)) (seq 0 48).
Proof.
  intros pixels n Hlen Hn.
  exists (inject_Z (Z.of_nat (List.length pixels)) / inject_Z 4)%Q.
  assert (HT : (inject_Z (Z.of_nat (List.length pixels)) / inject_Z 4
                == inject_Z (Z.of_nat n))%Q).
  { rewrite Hlen, Nat2Z.inj_mul, inject_Z_mult. simpl Z.of_nat. field. }
  split; [exact HT|].
  unfold computeColorHistogram. cbv zeta.
  rewrite Hlen at 1. replace (Z.of_nat (4 * n)) with (4 * Z.of_nat n) by lia.
  pose proof (histogram_loop pixels n n Hlen (le_n n)) as Hloop.
  cbv zeta in Hloop. rewrite range_quads, Hloop.
  rewrite map_map. apply map_ext. intros x.
  change (ofNat (List.length pixels))
    with (Fin (inject_Z (Z.of_nat (List.length pixels)))).
  rewrite (div_ofZ_finite (inject_Z (Z.of_nat (List.length pixels))) 4)
    by discriminate.
  unfold div, ofZ.
  destruct (Qeq_bool _ 0) eqn:E; [|reflexivity].
  apply Qeq_bool_eq in E. rewrite HT in E.
  assert (Hz : (inject_Z 0 < inject_Z (Z.of_nat n))%Q) by (rewrite <- Zlt_Qlt; lia).
  rewrite E in Hz. discriminate.
Qed.

Lemma nth_error_seq_here : forall s N i,
  (i < N)%nat -> nth_error (seq s N) i = Some (s + i)%nat.
Proof.
  intros s N. revert s. induction N as [|N IH]; intros s i Hi; [lia|].
  destruct i as [|i]; simpl.
  - now rewrite Nat.add_0_r.
  - rewrite IH by lia. f_equal. lia.
Qed.

(** C7.  On a buffer of [n > 0] pixels (65536 in [analyzeImageFeatures]) the
    colour histogram has 48 entries; the entry of bin [k] of channel [c]
    (red, green, blue in this order) is the number of pixels whose sample of
    that channel has [floor(value/16) = k], divided by [n]; it is not
    negative, and the 16 entries of a channel add up to 1. *)
Theorem color_histogram_normalized : forall pixels n,
  List.length pixels = (4 * n)%nat -> (0 < n)%nat ->
  let histogram := computeColorHistogram pixels in
  List.length histogram = 48%nat
  /\ (forall c k, (c < 3)%nat -> (k < 16)%nat ->
        exists q,
          nth_error histogram (16 * c + k) = Some (Fin q)
          /\ (q == inject_Z (binCount pixels n c (Z.of_nat k))
                   / inject_Z (Z.of_nat n))%Q
          /\ (0 <= q)%Q)
  /\ (forall c, (c < 3)%nat ->
        same (sumNumbers (channelGroup c histogram)) (ofZ 1)).
Proof.
  intros pixels n Hlen Hn histogram.
  destruct (histogram_shape pixels n Hlen Hn) as (T & HT & Hh).
  assert (HT0 : ~ (T == 0)%Q).
  { intros E. rewrite HT in E.
    assert (Hz : (inject_Z 0 < inject_Z (Z.of_nat n))%Q) by (rewrite <- Zlt_Qlt; lia).
    rewrite E in Hz. discriminate. }
  unfold histogram. rewrite Hh. split; [|split].
  - now rewrite length_map, length_seq.
  - intros c k Hc Hk. eexists. split; [|split].
    + rewrite nth_error_map, nth_error_seq_here by lia. reflexivity.
    + cbn [Nat.add]. rewrite tally_binCount by assumption. now rewrite HT.
    + cbn [Nat.add]. rewrite tally_binCount, HT by assumption.
      apply Qle_shift_div_l.
      * rewrite <- (Zlt_Qlt 0). lia.
      * rewrite Qmult_0_l. rewrite <- (Zle_Qle 0). unfold binCount. lia.
  - intros c Hc.
    assert (Hg : channelGroup c (map (fun x => Fin (inject_Z (tally pixels n x) / T)) (seq 0 48))
                 = map (fun k => Fin (inject_Z (tally pixels n (16 * c + k)) / T)) (seq 0 16)).
    { assert (Hcases : (c = 0 \/ c = 1 \/ c = 2)%nat) by lia.
      destruct Hcases as [-> | [-> | ->]]; reflexivity. }
    rewrite Hg. unfold sumNumbers, ofZ.
    rewrite (fold_add_Fin nat (fun k => inject_Z (tally pixels n (16 * c + k)) / T)%Q).
    unfold same.
    rewrite (fold_Qplus_shares nat (fun k => tally pixels n (16 * c + k)) T) by assumption.
    rewrite (map_ext_in _ (fun k => binCount pixels n c (Z.of_nat k))).
    + rewrite binCount_total, HT. field.
      intros E. apply HT0. now rewrite HT.
    + intros k Hk. apply in_seq in Hk. apply tally_binCount; lia.
Qed.

(** ** The edge histogram of an image without edges *)

Lemma isZero_inv : forall a, isZero a -> exists q, a = Fin q /\ (q == 0)%Q.
Proof.
  intros [q| | |] Ha; try contradiction. exists q. split; [reflexivity|exact Ha].
Qed.

Lemma max_of_zeros : forall l a,
  Forall isZero l -> a = NegInfinity \/ isZero a ->
  fold_left Math_max l a = a \/ isZero (fold_left Math_max l a).
Proof.
  induction l as [|e l IH]; intros a Hl Ha; simpl.
  - now left.
  - apply Forall_cons_iff in Hl as [He Hl].
    apply isZero_inv in He as (qe & -> & Hqe).
    assert (Hnext : isZero (Math_max a (Fin qe))).
    { destruct Ha as [->|Ha].
      - exact Hqe.
      - apply isZero_inv in Ha as (qa & -> & Hqa).
        unfold Math_max. cbn [isNaN orb]. destruct (lt (Fin qa) (Fin qe)); assumption. }
    right. destruct (IH (Math_max a (Fin qe)) Hl (or_intror Hnext)) as [E|E].
    + now rewrite E.
    + exact E.
Qed.

Lemma max_of_edges_zero : forall edges,
  edges <> [] -> Forall isZero edges -> isZero (Math_max_list edges).
Proof.
  intros edges Hne Hz. unfold Math_max_list.
  destruct edges as [|e l]; [contradiction|].
  apply Forall_cons_iff in Hz as [He Hl].
  apply isZero_inv in He as (qe & -> & Hqe). cbn [fold_left].
  change (Math_max NegInfinity (Fin qe)) with (Fin qe).
  destruct (max_of_zeros l (Fin qe) Hl (or_intror Hqe)) as [E|E].
  - rewrite E. exact Hqe.
  - exact E.
Qed.

Lemma zero_over_zero : forall e m, isZero e -> isZero m -> div e m = NaN.
Proof.
  intros e m He Hm.
  apply isZero_inv in He as (qe & -> & Hqe).
  apply isZero_inv in Hm as (qm & -> & Hqm).
  unfold div. rewrite (proj2 (Qeq_bool_iff qm 0) Hqm).
  unfold Qsign. destruct qe as [n d]. unfold Qeq in Hqe. simpl in *.
  assert (n = 0) by lia. now subst.
Qed.

Section EdgeFacts.
Context `{MathLib}.

Lemma flat_edges_histogram : forall imageData,
  sobelEdges imageData <> [] ->
  Forall isZero (sobelEdges imageData) ->
  List.length (computeEdgeFeatures imageData) = 10%nat
  /\ Forall isZero (computeEdgeFeatures imageData).
Proof.
  intros imageData Hne Hz. unfold computeEdgeFeatures. cbv zeta.
  set (edges := sobelEdges imageData) in *.
  pose proof (max_of_edges_zero edges Hne Hz) as Hmax.
  assert (Hloop : forall l h,
             Forall isZero l ->
             fold_left (fun histogram edge =>
                          Array_increment histogram
                            (Math_min (ofZ 9)
                               (Math_floor (mul (div edge (Math_max_list edges)) (ofZ 10)))))
                       l h = h).
  { induction l as [|e l IH]; intros h Hl; [reflexivity|].
    apply Forall_cons_iff in Hl as [He Hl]. cbn [fold_left].
    rewrite (zero_over_zero e _ He Hmax). cbn. now apply IH. }
  rewrite (Hloop edges _ Hz). split.
  - reflexivity.
  - assert (Hlen : Z.of_nat (List.length edges) <> 0) by (destruct edges; [contradiction|simpl; lia]).
    cbn [repeat map]. unfold ofNat.
    repeat constructor; unfold isZero;
      change (ofZ 0) with (Fin (inject_Z 0));
      rewrite div_ofZ_finite by assumption; unfold same;
      change (inject_Z 0) with 0%Q; unfold Qdiv; ring.
Qed.

End EdgeFacts.

Lemma nth_error_quads : forall (A : Type) (q : list A) n k c,
  List.length q = 4%nat -> (k < n)%nat -> (c < 4)%nat ->
  nth_error (List.concat (repeat q n)) (4 * k + c) = nth_error q c.
Proof.
  intros A q n. induction n as [|n IH]; intros k c Hq Hk Hc; [lia|].
  cbn [repeat List.concat]. destruct k as [|k].
  - rewrite nth_error_app1 by lia. reflexivity.
  - rewrite nth_error_app2 by lia. rewrite Hq.
    replace (4 * S k + c - 4)%nat with (4 * k + c)%nat by lia.
    apply IH; [assumption|lia|assumption].
Qed.

Lemma grayAt_black : forall n alpha k,
  0 <= k < Z.of_nat n ->
  grayAt (List.concat (repeat [x00; x00; x00; alpha] n)) (k * 4)
  = luminance (ofZ 0) (ofZ 0) (ofZ 0).
Proof.
  intros n alpha k Hk.
  assert (Hget : forall c, (c < 3)%nat ->
            Uint8_get (List.concat (repeat [x00; x00; x00; alpha] n)) (k * 4 + Z.of_nat c)
            = ofZ 0).
  { intros c Hc. unfold Uint8_get, Uint8_read.
    destruct (k * 4 + Z.of_nat c <? 0) eqn:E; [apply Z.ltb_lt in E; lia|].
    replace (Z.to_nat (k * 4 + Z.of_nat c)) with (4 * Z.to_nat k + c)%nat by lia.
    rewrite nth_error_quads by (try reflexivity; lia).
    destruct c as [|[|[|c]]]; try reflexivity. lia. }
  assert (G0 : Uint8_get (List.concat (repeat [x00; x00; x00; alpha] n)) (k * 4) = ofZ 0)
    by (rewrite <- (Z.add_0_r (k * 4)); apply (Hget 0%nat); lia).
  assert (G1 : Uint8_get (List.concat (repeat [x00; x00; x00; alpha] n)) (k * 4 + 1) = ofZ 0)
    by (apply (Hget 1%nat); lia).
  assert (G2 : Uint8_get (List.concat (repeat [x00; x00; x00; alpha] n)) (k * 4 + 2) = ofZ 0)
    by (apply (Hget 2%nat); lia).
  unfold grayAt. now rewrite G0, G1, G2.
Qed.

Section BlackImage.
Context `{MathLib}.

Lemma sobelMagnitude_black : forall w h alpha x y,
  1 <= x < w - 1 -> 1 <= y < h - 1 ->
  isZero (sobelMagnitude w
            (List.concat (repeat [x00; x00; x00; alpha] (Z.to_nat (w * h)))) x y).
Proof.
  intros w h alpha x y Hx Hy. unfold sobelMagnitude.
  change (range (-1) 2 1) with [-1; 0; 1]. cbn [fold_left].
  assert (Hin : forall ky kx, -1 <= ky <= 1 -> -1 <= kx <= 1 ->
                  grayAt (List.concat (repeat [x00; x00; x00; alpha] (Z.to_nat (w * h))))
                         (((y + ky) * w + (x + kx)) * 4)
                  = luminance (ofZ 0) (ofZ 0) (ofZ 0)).
  { intros ky kx Hky Hkx. apply grayAt_black.
    assert (0 <= (y + ky) * w) by (apply Z.mul_nonneg_nonneg; lia).
    assert ((y + ky) * w <= (h - 1) * w) by (apply Z.mul_le_mono_nonneg_r; lia).
    assert (0 <= w * h) by (apply Z.mul_nonneg_nonneg; lia).
    rewrite Z2Nat.id by lia. lia. }
  rewrite !Hin by lia.
  match goal with
  | |- isZero (Math_sqrt ?a) =>
      let v := eval vm_compute in a in change a with v
  end.
  unfold Math_sqrt.
  match goal with
  | |- isZero (if Qle_bool 0 ?q then _ else _) =>
      change (Qle_bool 0 q) with true; cbn iota;
      unfold isZero, same; apply sqrtQ_zero; reflexivity
  end.
Qed.

Lemma sobelEdges_black : forall w h alpha,
  3 <= w -> 3 <= h ->
  sobelEdges (blackImage w h alpha) <> []
  /\ Forall isZero (sobelEdges (blackImage w h alpha)).
Proof.
  intros w h alpha Hw Hh. unfold sobelEdges, blackImage. cbn [width height data]. split.
  - rewrite !range_unit.
    replace (Z.to_nat (h - 1 - 1)) with (S (Z.to_nat (h - 3))) by lia.
    replace (Z.to_nat (w - 1 - 1)) with (S (Z.to_nat (w - 3))) by lia.
    discriminate.
  - rewrite Forall_forall. intros e He.
    apply in_flat_map in He as (y & Hy & He).
    apply in_map_iff in He as (x & <- & Hx).
    apply in_range in Hy; [|lia]. apply in_range in Hx; [|lia].
    destruct Hy as (ky & ? & ? & ?), Hx as (kx & ? & ? & ?).
    apply (sobelMagnitude_black w h); lia.
Qed.

(** C8.  The declared invariant fails on an image without edges: for every
    black image of size at least 3x3 (in particular the 256x256 one analysed
    by [analyzeImageFeatures]) every quotient [edge / maxEdge] is [0/0], no
    bin is incremented, and the edge histogram has 10 entries that are all 0:
    they add up to 0, not to 1. *)
Theorem edge_histogram_of_black_image : forall w h alpha,
  3 <= w -> 3 <= h ->
  List.length (computeEdgeFeatures (blackImage w h alpha)) = 10%nat
  /\ Forall isZero (computeEdgeFeatures (blackImage w h alpha))
  /\ isZero (sumNumbers (computeEdgeFeatures (blackImage w h alpha))).
Proof.
  intros w h alpha Hw Hh.
  destruct (sobelEdges_black w h alpha Hw Hh) as [Hne Hz].
  destruct (flat_edges_histogram (blackImage w h alpha) Hne Hz) as [Hlen Hall].
  split; [exact Hlen|]. split; [exact Hall|].
  assert (Hsum : forall l a, Forall isZero l -> isZero a -> isZero (fold_left add l a)).
  { induction l as [|v l IH]; intros a Hl Ha; [exact Ha|].
    apply Forall_cons_iff in Hl as [Hv Hl]. cbn [fold_left]. apply IH; [assumption|].
    apply isZero_inv in Hv as (qv & -> & Hqv).
    apply isZero_inv in Ha as (qa & -> & Hqa).
    unfold isZero, same, add, ofZ in *. rewrite Hqv, Hqa. reflexivity. }
  apply Hsum; [exact Hall|reflexivity].
Qed.

End BlackImage.

(** ** The edge histogram of an image with an edge *)

Lemma max_of_nonnegative : forall l a,
  Forall isNonNegative l -> isNonNegative a ->
  isNonNegative (fold_left Math_max l a)
  /\ (toQ a <= toQ (fold_left Math_max l a))%Q
  /\ Forall (fun e => (toQ e <= toQ (fold_left Math_max l a))%Q) l.
Proof.
  induction l as [|e l IH]; intros a Hl Ha; cbn [fold_left].
  - split; [assumption|]. split; [apply Qle_refl|constructor].
  - apply Forall_cons_iff in Hl as [He Hl].
    assert (Hstep : isNonNegative (Math_max a e)
                    /\ (toQ a <= toQ (Math_max a e))%Q
                    /\ (toQ e <= toQ (Math_max a e))%Q).
    { destruct Ha as [Fa Pa], He as [Fe Pe].
      apply finite_inv in Fa as [qa ->]. apply finite_inv in Fe as [qe ->].
      unfold Math_max. cbn [isNaN orb toQ] in *.
      destruct (lt (Fin qa) (Fin qe)) eqn:E; cbn [toQ].
      - apply (gt_Fin qe qa) in E.
        split; [split; [reflexivity|assumption]|]. split; lra.
      - apply (gt_Fin_false qe qa) in E.
        split; [split; [reflexivity|assumption]|]. split; lra. }
    destruct Hstep as (Hn & Hage & Hege).
    destruct (IH (Math_max a e) Hl Hn) as (Hres & Hle & Hall).
    split; [assumption|]. split; [lra|].
    constructor; [lra|assumption].
Qed.

Lemma max_list_of_nonnegative : forall e l,
  Forall isNonNegative (e :: l) ->
  isNonNegative (Math_max_list (e :: l))
  /\ Forall (fun x => (toQ x <= toQ (Math_max_list (e :: l)))%Q) (e :: l).
Proof.
  intros e l Hl. unfold Math_max_list. cbn [fold_left].
  apply Forall_cons_iff in Hl as [He Hl].
  assert (E : Math_max NegInfinity e = e).
  { destruct He as [Fe _]. apply finite_inv in Fe as [qe ->]. reflexivity. }
  rewrite E.
  destruct (max_of_nonnegative l e Hl He) as (Hres & Hle & Hall).
  split; [assumption|]. constructor; assumption.
Qed.

Lemma bin_of_edge : forall e m,
  isNonNegative e -> (0 < m)%Q -> (toQ e <= m)%Q ->
  Math_min (ofZ 9) (Math_floor (mul (div e (Fin m)) (ofZ 10))) = ofZ (edgeBin m e)
  /\ 0 <= edgeBin m e <= 9.
Proof.
  intros e m [Fe Pe] Hm Hle. apply finite_inv in Fe as [q ->]. cbn [toQ] in *.
  unfold div. destruct (Qeq_bool m 0) eqn:E.
  { apply Qeq_bool_eq in E. rewrite E in Hm. discriminate. }
  unfold mul, ofZ, Math_floor, edgeBin. cbn [toQ].
  change (Qfloor (q / m * 10)) with (Qfloor (q / m * inject_Z 10)).
  set (f := Qfloor (q / m * inject_Z 10)).
  assert (Hf : 0 <= f).
  { unfold f. change 0 with (Qfloor 0). apply Qfloor_resp_le.
    apply Qmult_le_0_compat; [|discriminate].
    apply Qle_shift_div_l; [assumption|]. now rewrite Qmult_0_l. }
  unfold Math_min. cbn [isNaN orb ofZ].
  change (lt (ofZ f) (Fin (inject_Z 9))) with (lt (ofZ f) (ofZ 9)).
  rewrite lt_ofZ. unfold ofZ. split.
  - destruct (f <? 9) eqn:L.
    + apply Z.ltb_lt in L. do 2 f_equal. lia.
    + apply Z.ltb_ge in L. do 2 f_equal. lia.
  - lia.
Qed.

Lemma Zsum_bins : forall (f : nat -> Z) N b,
  (b < N)%nat ->
  Zsum (map (fun x => f x + (if (x =? b)%nat then 1 else 0)) (seq 0 N))
  = Zsum (map f (seq 0 N)) + 1.
Proof.
  intros f N b Hb. rewrite Zsum_map_add. f_equal.
  assert (H : forall s n, Zsum (map (fun x => if (x =? b)%nat then 1 else 0) (seq s n))
                          = if ((s <=? b) && (b <? s + n))%nat then 1 else 0).
  { intros s n. revert s. induction n as [|n IH]; intros s.
    - simpl. destruct (s <=? b)%nat eqn:E1, (b <? s + 0)%nat eqn:E2; try reflexivity.
      apply Nat.leb_le in E1. apply Nat.ltb_lt in E2. lia.
    - cbn [seq map Zsum fold_right]. fold (Zsum (map (fun x => if (x =? b)%nat then 1 else 0) (seq (S s) n))).
      rewrite IH.
      destruct (Nat.eqb_spec s b), (Nat.leb_spec (S s) b), (Nat.ltb_spec b (S s + n)),
               (Nat.leb_spec s b), (Nat.ltb_spec b (s + S n)); simpl; lia. }
  rewrite H. destruct (Nat.leb_spec 0 b), (Nat.ltb_spec b (0 + N)); simpl; lia.
Qed.

Section EdgeHistogram.
Context `{MathLib}.

Lemma edge_loop : forall (m : Q) (l : list number) (f : nat -> Z),
  (0 < m)%Q ->
  Forall (fun e => isNonNegative e /\ (toQ e <= m)%Q) l ->
  exists g : nat -> Z,
    fold_left (fun histogram edge =>
                 Array_increment histogram
                   (Math_min (ofZ 9) (Math_floor (mul (div edge (Fin m)) (ofZ 10)))))
              l (map (fun x => ofZ (f x)) (seq 0 10))
    = map (fun x => ofZ (g x)) (seq 0 10)
    /\ (forall x, f x <= g x)
    /\ Zsum (map g (seq 0 10)) = Zsum (map f (seq 0 10)) + Z.of_nat (List.length l).
Proof.
  intros m l. induction l as [|e l IH]; intros f Hm Hl.
  - exists f. split; [reflexivity|]. split; [intros; lia|simpl; lia].
  - apply Forall_cons_iff in Hl as [[He Hle] Hl]. cbn [fold_left].
    destruct (bin_of_edge e m He Hm Hle) as [-> Hb].
    rewrite Array_increment_ofZ, incrementNth_seq by lia.
    destruct (IH (fun x => f x + (if (x =? 0 + Z.to_nat (edgeBin m e))%nat then 1 else 0)) Hm Hl)
      as (g & Hg & Hmono & Hsum).
    exists g. split; [exact Hg|]. split.
    + intros x. specialize (Hmono x). cbn beta in Hmono.
      destruct (x =? 0 + Z.to_nat (edgeBin m e))%nat; lia.
    + rewrite Hsum. rewrite Nat.add_0_l, Zsum_bins by lia.
      cbn [List.length]. lia.
Qed.

(** When some Sobel magnitude is positive the histogram is the one the
    specification describes: 10 non-negative entries that add up to 1. *)
Lemma edge_histogram_with_an_edge : forall imageData,
  Forall isNonNegative (sobelEdges imageData) ->
  Exists (fun e => (0 < toQ e)%Q) (sobelEdges imageData) ->
  List.length (computeEdgeFeatures imageData) = 10%nat
  /\ Forall isNonNegative (computeEdgeFeatures imageData)
  /\ same (sumNumbers (computeEdgeFeatures imageData)) (ofZ 1).
Proof.
  intros imageData Hnn Hex. unfold computeEdgeFeatures. cbv zeta.
  set (edges := sobelEdges imageData) in *.
  destruct edges as [|e0 rest] eqn:Eedges; [inversion Hex|].
  destruct (max_list_of_nonnegative e0 rest Hnn) as ([Fm Pm] & Hbound).
  rewrite <- Eedges in *.
  apply finite_inv in Fm as [m Em]. rewrite Em in *. cbn [toQ] in *.
  assert (Hm : (0 < m)%Q).
  { apply Exists_exists in Hex as (e & Hin & Hpos).
    rewrite Forall_forall in Hbound. specialize (Hbound e Hin). lra. }
  destruct (edge_loop m edges (fun _ => 0) Hm) as (g & Hg & Hmono & Hsum).
  { rewrite Forall_forall in *. intros e He. split; [apply Hnn|apply Hbound]; assumption. }
  change (repeat (ofZ 0) 10) with (map (fun _ : nat => ofZ 0) (seq 0 10)).
  rewrite Hg, map_map.
  assert (Hlen : 0 < Z.of_nat (List.length edges)) by (rewrite Eedges; simpl; lia).
  assert (Hentry : forall x,
            div (ofZ (g x)) (ofNat (List.length edges))
            = Fin (inject_Z (g x) / inject_Z (Z.of_nat (List.length edges)))).
  { intros x. apply div_ofZ_finite. lia. }
  rewrite (map_ext _ _ Hentry).
  assert (HT : ~ (inject_Z (Z.of_nat (List.length edges)) == 0)%Q).
  { intros E. assert (Hz : (inject_Z 0 < inject_Z (Z.of_nat (List.length edges)))%Q)
      by (rewrite <- Zlt_Qlt; lia).
    rewrite E in Hz. discriminate. }
  split; [now rewrite length_map, length_seq|]. split.
  - rewrite Forall_map, Forall_forall. intros x _. split; [reflexivity|]. cbn [toQ].
    apply Qle_shift_div_l.
    + rewrite <- (Zlt_Qlt 0). lia.
    + rewrite Qmult_0_l. rewrite <- (Zle_Qle 0). apply (Hmono x).
  - unfold sumNumbers, ofZ.
    rewrite (fold_add_Fin nat (fun x => inject_Z (g x) / inject_Z (Z.of_nat (List.length edges)))%Q).
    unfold same. rewrite (fold_Qplus_shares nat g) by assumption.
    rewrite Hsum. change (Zsum (map (fun _ : nat => 0) (seq 0 10))) with 0.
    rewrite Z.add_0_l. field. assumption.
Qed.

End EdgeHistogram.

Section SobelFacts.
Context `{MathLib}.

Lemma sqrtQ_nonneg : forall q, (0 <= q)%Q -> (0 <= sqrtQ q)%Q.
Proof.
  intros q Hq. destruct (Qlt_le_dec 0 q) as [Hpos|Hle].
  - apply Qlt_le_weak. now apply sqrtQ_pos.
  - rewrite (sqrtQ_zero q); [apply Qle_refl|]. apply Qle_antisym; assumption.
Qed.

Lemma magnitude_nonnegative : forall a b,
  isFinite a = true -> isFinite b = true ->
  isNonNegative (Math_sqrt (add (mul a a) (mul b b))).
Proof.
  intros a b Ha Hb.
  apply finite_inv in Ha as [x ->]. apply finite_inv in Hb as [y ->].
  cbn [mul add]. unfold Math_sqrt.
  assert (Hsq : (0 <= x * x + y * y)%Q) by nra.
  rewrite (proj2 (Qle_bool_iff _ _) Hsq).
  split; [reflexivity|]. cbn [toQ]. now apply sqrtQ_nonneg.
Qed.

Lemma sobelMagnitude_nonnegative : forall w h data x y,
  Z.of_nat (List.length data) = 4 * w * h ->
  1 <= x < w - 1 -> 1 <= y < h - 1 ->
  isNonNegative (sobelMagnitude w data x y).
Proof.
  intros w h data x y Hlen Hx Hy. unfold sobelMagnitude.
  match goal with
  | |- isNonNegative (let '(gx, gy) := ?g in _) =>
      assert (Hg : isFinite (fst g) = true /\ isFinite (snd g) = true)
  end.
  { apply fold_left_invariant; [split; reflexivity|].
    intros acc ky Hky Hacc. apply in_range in Hky; [|lia].
    destruct Hky as (jy & ? & ? & ?).
    apply fold_left_invariant; [assumption|].
    intros [gx gy] kx Hkx [Fx Fy]. apply in_range in Hkx; [|lia].
    destruct Hkx as (jx & ? & ? & ?). cbn [fst snd] in *.
    assert (Hgray : isFinite (grayAt data (((y + ky) * w + (x + kx)) * 4)) = true).
    { apply grayAt_finite.
      - assert (0 <= (y + ky) * w) by (apply Z.mul_nonneg_nonneg; lia). lia.
      - assert ((y + ky) * w <= (h - 1) * w) by (apply Z.mul_le_mono_nonneg_r; lia).
        lia. }
    assert (Hk : forall l, allFinite l ->
              0 <= (ky + 1) * 3 + (kx + 1) < Z.of_nat (List.length l) ->
              isFinite (Array_get l ((ky + 1) * 3 + (kx + 1))) = true)
      by (intros; now apply Array_get_finite).
    split; apply finite_add; try assumption; apply finite_mul; try assumption;
      apply Hk; try (simpl; lia); repeat constructor. }
  destruct (fold_left _ _ _) as [gx gy]. cbn [fst snd] in Hg.
  apply magnitude_nonnegative; apply Hg.
Qed.

Lemma sobelEdges_nonnegative : forall imageData,
  Z.of_nat (List.length (data imageData))
  = 4 * width imageData * height imageData ->
  Forall isNonNegative (sobelEdges imageData).
Proof.
  intros [w h d] Hlen. cbn [width height data] in Hlen.
  unfold sobelEdges. cbn [width height data].
  rewrite Forall_forall. intros e He.
  apply in_flat_map in He as (y & Hy & He).
  apply in_map_iff in He as (x & <- & Hx).
  apply in_range in Hy; [|lia]. apply in_range in Hx; [|lia].
  destruct Hy as (ky & ? & ? & ?), Hx as (kx & ? & ? & ?).
  apply (sobelMagnitude_nonnegative w h); [assumption|lia|lia].
Qed.

(** On a well-formed image with at least one non-zero Sobel magnitude the
    edge histogram has 10 non-negative entries that add up to 1. *)
Lemma edge_histogram_normalized_unless_flat : forall imageData,
  Z.of_nat (List.length (data imageData))
  = 4 * width imageData * height imageData ->
  Exists (fun e => (0 < toQ e)%Q) (sobelEdges imageData) ->
  List.length (computeEdgeFeatures imageData) = 10%nat
  /\ Forall isNonNegative (computeEdgeFeatures imageData)
  /\ same (sumNumbers (computeEdgeFeatures imageData)) (ofZ 1).
Proof.
  intros imageData Hlen Hex.
  apply edge_histogram_with_an_edge; [|assumption].
  now apply sobelEdges_nonnegative.
Qed.

End SobelFacts.

(** ** The screenshot heuristic *)

Lemma score_after_trigger : forall lo hi weight text st,
  (0 <= weight)%Q -> scoreWithin lo hi st ->
  scoreWithin lo (hi + weight) (Screenshot.trigger weight text st).
Proof.
  intros lo hi weight text st Hw (s & Hs & Hb).
  exists (s + weight)%Q. unfold Screenshot.trigger. cbn [Screenshot.detectionScore].
  rewrite Hs. split; [reflexivity|lra].
Qed.

Lemma score_widen : forall lo hi weight st,
  (0 <= weight)%Q -> scoreWithin lo hi st -> scoreWithin lo (hi + weight) st.
Proof.
  intros lo hi weight st Hw (s & Hs & Hb). exists s. split; [assumption|lra].
Qed.

Lemma score_detectResolution : forall w h lo hi st,
  scoreWithin lo hi st ->
  scoreWithin lo (hi + 0.20) (Screenshot.detectResolution w h st).
Proof.
  intros. unfold Screenshot.detectResolution. destruct (existsb _ _).
  - apply score_after_trigger; [lra|assumption].
  - apply score_widen; [lra|assumption].
Qed.

Lemma score_detectAspectRatio : forall w h lo hi st,
  scoreWithin lo hi st ->
  scoreWithin lo (hi + 0.15) (Screenshot.detectAspectRatio w h st).
Proof.
  intros. unfold Screenshot.detectAspectRatio.
  destruct (find _ _) as [[[? ?] ?]|].
  - apply score_after_trigger; [lra|assumption].
  - apply score_widen; [lra|assumption].
Qed.

(** The two signals of the colour diversity exclude each other: the
    detection leaves the state alone or triggers exactly one of them. *)
Lemma detectColorDiversity_cases : forall data st,
  Screenshot.detectColorDiversity data st = st
  \/ (exists text, Screenshot.detectColorDiversity data st
                   = Screenshot.trigger 0.25 text st)
  \/ (exists text, Screenshot.detectColorDiversity data st
                   = Screenshot.trigger 0.05 text st).
Proof.
  intros data st. unfold Screenshot.detectColorDiversity.
  destruct (F64.lt (Screenshot.colorDiversity data) (F64.decimal 3 100)).
  - right. left. eexists. reflexivity.
  - destruct (F64.lt (Screenshot.colorDiversity data) (F64.decimal 6 100)).
    + right. right. eexists. reflexivity.
    + now left.
Qed.

Lemma score_detectColorDiversity : forall data lo hi st,
  scoreWithin lo hi st ->
  scoreWithin lo (hi + 0.25) (Screenshot.detectColorDiversity data st).
Proof.
  intros data lo hi st Hst.
  destruct (detectColorDiversity_cases data st) as [-> | [[text ->] | [text ->]]].
  - apply score_widen; [lra|assumption].
  - apply score_after_trigger; [lra|assumption].
  - destruct (score_after_trigger lo hi 0.05 text st ltac:(lra) Hst) as (s & Hs & Hb).
    exists s. split; [assumption|lra].
Qed.

Lemma score_detectCrispEdges : forall w h data lo hi st,
  scoreWithin lo hi st ->
  scoreWithin lo (hi + 0.15) (Screenshot.detectCrispEdges w h data st).
Proof.
  intros. unfold Screenshot.detectCrispEdges. destruct (F64.gt _ _).
  - apply score_after_trigger; [lra|assumption].
  - apply score_widen; [lra|assumption].
Qed.

Lemma score_detectSharpPixels : forall w h data lo hi st,
  scoreWithin lo hi st ->
  scoreWithin lo (hi + 0.10) (Screenshot.detectSharpPixels w h data st).
Proof.
  intros. unfold Screenshot.detectSharpPixels. destruct (F64.gt _ _).
  - apply score_after_trigger; [lra|assumption].
  - apply score_widen; [lra|assumption].
Qed.

Lemma score_detectBlockiness : forall random w h data lo hi st,
  scoreWithin lo hi st ->
  scoreWithin lo (hi + 0.10) (Screenshot.detectBlockiness random w h data st).
Proof.
  intros. unfold Screenshot.detectBlockiness. cbv zeta. destruct (F64.gt _ _).
  - apply score_after_trigger; [lra|assumption].
  - apply score_widen; [lra|assumption].
Qed.

(** C10.  Whatever the pixels and the random draws, the accumulated score
    is a finite value of at most 0.95, the colour-diversity detection
    triggers at most one of its two signals, and the confidence returned is
    the raw score: the clamp [min(1, score)] never binds. *)
Theorem score_at_most_095 : forall random w h data,
  exists s,
    Screenshot.detectionScore (Screenshot.runDetections random w h data) = Fin s
    /\ (0 <= s <= 0.95)%Q
    /\ Screenshot.confidence (Screenshot.analyze random w h data) = Fin s
    /\ forall st,
         Screenshot.detectColorDiversity data st = st
         \/ (exists text, Screenshot.detectColorDiversity data st
                          = Screenshot.trigger 0.25 text st)
         \/ (exists text, Screenshot.detectColorDiversity data st
                          = Screenshot.trigger 0.05 text st).
Proof.
  intros random w h data.
  assert (H0 : scoreWithin 0 0 {| Screenshot.detectionScore := ofZ 0;
                                   Screenshot.reasons := [] |}).
  { exists 0%Q. split; [reflexivity|lra]. }
  apply (score_detectResolution w h) in H0.
  apply (score_detectAspectRatio w h) in H0.
  apply (score_detectColorDiversity data) in H0.
  apply (score_detectCrispEdges w h data) in H0.
  apply (score_detectSharpPixels w h data) in H0.
  apply (score_detectBlockiness random w h data) in H0.
  destruct H0 as (s & Hs' & Hb).
  assert (Hs : Screenshot.detectionScore (Screenshot.runDetections random w h data)
               = Fin s) by exact Hs'.
  exists s. split; [exact Hs|]. split; [lra|]. split.
  - unfold Screenshot.analyze. cbn [Screenshot.confidence]. rewrite Hs.
    unfold Math_min. cbn [isNaN orb ofZ].
    assert (Hlt : lt (Fin s) (ofZ 1) = true).
    { apply (gt_Fin (inject_Z 1) s). change (inject_Z 1) with 1%Q. lra. }
    now rewrite Hlt.
  - apply detectColorDiversity_cases.
Qed.

(** C9.  The promise of [detectScreenshot] always resolves; when the image
    does not load, no 2D context is available or the canvas throws, it
    resolves with the verdict [isScreenshot = false], [confidence = 0] and one
    of the three placeholder reasons. *)
Theorem detectScreenshot_never_rejects : forall random file,
  (exists verdict, Screenshot.detectScreenshot random file = Resolved verdict)
  /\ (cannotAnalyze file ->
      exists text,
        Screenshot.detectScreenshot random file
        = Resolved {| Screenshot.isScreenshot := false;
                      Screenshot.confidence := ofZ 0;
                      Screenshot.reason := text |}
        /\ In text ["Unable to load image"; "Unable to analyze";
                    "Error in analysis"]%string).
Proof.
  intros random file. unfold Screenshot.detectScreenshot, cannotAnalyze.
  destruct (loads file) eqn:Hl.
  - destruct (context2d file) eqn:Hc; cbn [negb].
    + destruct (getImageData file (img_width file) (img_height file)) as [pixels|error] eqn:Hd.
      * split; [eexists; reflexivity|].
        intros [Hf|[Hf|[e Hf]]]; discriminate.
      * split; [eexists; reflexivity|].
        intros _. exists "Error in analysis"%string.
        split; [reflexivity|]. right. right. now left.
    + split; [eexists; reflexivity|].
      intros _. exists "Unable to analyze"%string.
      split; [reflexivity|]. right. now left.
  - split; [eexists; reflexivity|].
    intros _. exists "Unable to load image"%string.
    split; [reflexivity|]. now left.
Qed.
(** ** The crisp-edges signal *)

Lemma scan_row : forall w data y (l : list Z) total count,
  fst (fold_left
         (fun '(totalEdgeStrength, edgePixels) x =>
            let edgeStrength := Screenshot.edgeStrength w data x y in
            (F64.add totalEdgeStrength edgeStrength,
             if F64.gt edgeStrength (F64.ofZ 80)
             then F64.add edgePixels (F64.ofZ 1)
             else edgePixels))
         l (total, count))
  = fold_left F64.add (map (fun x => Screenshot.edgeStrength w data x y) l) total.
Proof.
  intros w data y l. induction l as [|x l IH]; intros total count; [reflexivity|].
  cbn [fold_left map]. apply IH.
Qed.

Lemma scan_rows : forall w data (xs ys : list Z) acc,
  fst (fold_left
         (fun acc y =>
            fold_left
              (fun '(totalEdgeStrength, edgePixels) x =>
                 let edgeStrength := Screenshot.edgeStrength w data x y in
                 (F64.add totalEdgeStrength edgeStrength,
                  if F64.gt edgeStrength (F64.ofZ 80)
                  then F64.add edgePixels (F64.ofZ 1)
                  else edgePixels))
              xs acc)
         ys acc)
  = fold_left F64.add
      (map (fun p => Screenshot.edgeStrength w data (fst p) (snd p))
           (flat_map (fun y => map (fun x => (x, y)) xs) ys))
      (fst acc).
Proof.
  intros w data xs ys. induction ys as [|y ys IH]; intros acc; [reflexivity|].
  cbn [fold_left flat_map]. rewrite IH, map_app, fold_left_app.
  f_equal. destruct acc as [total count]. rewrite scan_row, map_map. reflexivity.
Qed.

Lemma scanEdges_total : forall w h data,
  fst (Screenshot.scanEdges w h data) = sumFloats (sampledEdgeStrengths w h data).
Proof.
  intros. unfold Screenshot.scanEdges, sumFloats, sampledEdgeStrengths, sampleGrid.
  apply scan_rows.
Qed.

Lemma in_sampleGrid : forall w h x y,
  In (x, y) (sampleGrid w h)
  <-> exists i j, 0 <= i /\ 0 <= j /\ x = 1 + 5 * i /\ y = 1 + 5 * j
                  /\ x < w - 1 /\ y < h - 1.
Proof.
  intros w h x y. unfold sampleGrid. rewrite in_flat_map. split.
  - intros (y' & Hy & Hx). apply in_map_iff in Hx as (x' & E & Hx).
    injection E as -> ->.
    apply in_range in Hy; [|lia]. apply in_range in Hx; [|lia].
    destruct Hy as (j & ? & ? & ?), Hx as (i & ? & ? & ?).
    exists i, j. repeat split; assumption.
  - intros (i & j & Hi & Hj & -> & -> & Hx & Hy).
    exists (1 + 5 * j). split.
    + apply in_range; [lia|]. exists j. repeat split; assumption.
    + apply in_map_iff. exists (1 + 5 * i). split; [reflexivity|].
      apply in_range; [lia|]. exists i. repeat split; assumption.
Qed.

(** C6, as the code has it.  The sampled pixels are the interior pixels
    [(1 + 5 i, 1 + 5 j)]; the signal adds 0.15 exactly when the sum of their
    edge strengths, divided by [width * height / 25] (not by the number of
    sampled pixels), exceeds 180.  Every operation is the binary64 one: the
    luminances, their differences, the sum accumulated in the order of the
    two loops, the two divisions and the comparison. *)
Theorem crisp_edges_normalized_by_area : forall w h data st,
  let ratio := F64.div (sumFloats (sampledEdgeStrengths w h data))
                       (F64.div (F64.ofZ (w * h)) (F64.ofZ 25)) in
  (forall x y,
     In (x, y) (sampleGrid w h)
     <-> exists i j, 0 <= i /\ 0 <= j /\ x = 1 + 5 * i /\ y = 1 + 5 * j
                     /\ x < w - 1 /\ y < h - 1)
  /\ (F64.gt ratio (F64.ofZ 180) = true ->
      Screenshot.detectCrispEdges w h data st
      = Screenshot.trigger 0.15 "Unusually crisp edges (text/UI-like)" st)
  /\ (F64.gt ratio (F64.ofZ 180) = false ->
      Screenshot.detectCrispEdges w h data st = st).
Proof.
  intros w h data st ratio. split; [apply in_sampleGrid|].
  unfold Screenshot.detectCrispEdges, Screenshot.avgEdgeStrength.
  rewrite scanEdges_total. fold ratio.
  split; intros ->; reflexivity.
Qed.

(** C6 fails as stated: on the 3x3 image [greyCentre] the only sampled pixel
    has edge strength 100, so the mean over the sampled pixels is 100, not
    above 180; yet the signal adds 0.15, because 100 is divided by 9/25. *)
Lemma crisp_edges_fire_below_mean_180 :
  List.length greyCentre = 36%nat
  /\ List.length (sampledEdgeStrengths 3 3 greyCentre) = 1%nat
  /\ meanSampledEdgeStrength 3 3 greyCentre = F64.ofZ 100
  /\ F64.gt (meanSampledEdgeStrength 3 3 greyCentre) (F64.ofZ 180) = false
  /\ Screenshot.detectCrispEdges 3 3 greyCentre initialState
     = Screenshot.trigger 0.15 "Unusually crisp edges (text/UI-like)" initialState.
Proof.
  repeat split; vm_compute; reflexivity.
Qed.

(** ** The theorems at concrete inputs *)

Lemma hash_is_16_lowercase_hex_witness :
  List.length (repeat x00 4096) = 4096%nat
  /\ isPerceptualHash (computeDCTHash (grayscaleOf (repeat x00 4096)) 32).
Proof.
  split; [reflexivity|].
  apply (hash_is_16_lowercase_hex (repeat x00 4096)). reflexivity.
Defined.

Lemma threshold_is_sorted_index_32_witness :
  List.length (repeat xff 4096) = 4096%nat
  /\ exists sorted threshold,
       Permutation sorted (tl (dctCoefficients (grayscaleOf (repeat xff 4096)) 32))
       /\ StronglySorted numLe sorted
       /\ nth_error sorted 32 = Some threshold
       /\ medianCoeff (dctCoefficients (grayscaleOf (repeat xff 4096)) 32) = threshold
       /\ String.length (hashBits (dctCoefficients (grayscaleOf (repeat xff 4096)) 32))
          = 64%nat.
Proof.
  split; [reflexivity|].
  destruct (threshold_is_sorted_index_32 (repeat xff 4096)) as (sorted & t & Hw);
    [reflexivity|].
  destruct Hw as (_ & _ & _ & Hperm & _ & Hsorted & Hnth & Hmedian & Hlen & _).
  exists sorted, t.
  exact (conj Hperm (conj Hsorted (conj Hnth (conj Hmedian Hlen)))).
Defined.

Lemma hamming_distance_range_witness :
  isHex16 "ffffffffffffffff" /\ isHex16 "7ffffffffffffc00"
  /\ exists d,
       calculateHammingDistance "ffffffffffffffff" "7ffffffffffffc00" = ofZ d
       /\ 0 <= d <= 64.
Proof.
  split; [split; reflexivity|]. split; [split; reflexivity|].
  apply hamming_distance_range; split; reflexivity.
Defined.

Lemma color_histogram_normalized_witness :
  List.length [x00; x10; xff; xff; x0f; x10; x80; xff] = (4 * 2)%nat
  /\ (0 < 2)%nat
  /\ List.length (computeColorHistogram [x00; x10; xff; xff; x0f; x10; x80; xff])
     = 48%nat
  /\ forall c, (c < 3)%nat ->
       same (sumNumbers
               (channelGroup c
                  (computeColorHistogram [x00; x10; xff; xff; x0f; x10; x80; xff])))
            (ofZ 1).
Proof.
  split; [reflexivity|]. split; [lia|].
  destruct (color_histogram_normalized [x00; x10; xff; xff; x0f; x10; x80; xff] 2)
    as (Hlen & _ & Hsum); [reflexivity|lia|].
  split; [exact Hlen|exact Hsum].
Defined.

Lemma edge_histogram_of_black_image_witness :
  3 <= 256
  /\ List.length (computeEdgeFeatures (blackImage 256 256 xff)) = 10%nat
  /\ Forall isZero (computeEdgeFeatures (blackImage 256 256 xff))
  /\ isZero (sumNumbers (computeEdgeFeatures (blackImage 256 256 xff))).
Proof.
  split; [lia|]. apply edge_histogram_of_black_image; lia.
Defined.


Lemma length_mismatch_sentinels_witness :
  String.length "abc" <> String.length "0000000000000000"
  /\ calculateHammingDistance "abc" "0000000000000000" = Infinity
  /\ List.length [ofZ 1; ofZ 2; ofZ 3]
     <> List.length [ofZ 1; ofZ 2; ofZ 3; ofZ 4; ofZ 5]
  /\ cosineSimilarity [ofZ 1; ofZ 2; ofZ 3] [ofZ 1; ofZ 2; ofZ 3; ofZ 4; ofZ 5]
     = ofZ 0.
Proof.
  split; [discriminate|].
  split; [apply (proj1 length_mismatch_sentinels); discriminate|].
  split; [discriminate|].
  apply (proj2 length_mismatch_sentinels); discriminate.
Defined.

Lemma crisp_edges_normalized_by_area_witness :
  F64.gt (F64.div (sumFloats (sampledEdgeStrengths 3 3 greyCentre))
                  (F64.div (F64.ofZ (3 * 3)) (F64.ofZ 25)))
         (F64.ofZ 180) = true
  /\ Screenshot.detectCrispEdges 3 3 greyCentre initialState
     = Screenshot.trigger 0.15 "Unusually crisp edges (text/UI-like)" initialState.
Proof.
  split; [vm_compute; reflexivity|].
  apply (proj1 (proj2 (crisp_edges_normalized_by_area 3 3 greyCentre initialState))).
  vm_compute. reflexivity.
Defined.

Lemma detectScreenshot_never_rejects_witness :
  cannotAnalyze brokenFile
  /\ exists text,
       Screenshot.detectScreenshot (fun _ => F64.ofZ 0) brokenFile
       = Resolved {| Screenshot.isScreenshot := false;
                     Screenshot.confidence := ofZ 0;
                     Screenshot.reason := text |}
       /\ In text ["Unable to load image"; "Unable to analyze";
                   "Error in analysis"]%string.
Proof.
  split; [left; reflexivity|].
  apply (proj2 (detectScreenshot_never_rejects (fun _ => F64.ofZ 0) brokenFile)).
  left. reflexivity.
Defined.

(** ** The functions on concrete inputs *)

Example parseInt_rounds_to_binary64 :
  parseInt "ffffffffffffffff" 16 = ofZ (2 ^ 64)
  /\ parseInt "0020000000000001" 16 = ofZ (2 ^ 53)
  /\ parseInt "0020000000000003" 16 = ofZ (2 ^ 53 + 4)
  /\ parseInt "00000000000000ff" 16 = ofZ 255.
Proof. repeat split; vm_compute; reflexivity. Qed.

Example distance_examples :
  calculateHammingDistance "00000000000000ff" "0000000000000000" = ofZ 8
  /\ calculateHammingDistance "0123456789abcdef" "0123456789abcdef" = ofZ 0
  /\ calculateHammingDistance "abc" "0000000000000000" = Infinity.
Proof. repeat split; vm_compute; reflexivity. Qed.

Example hex_of_bits :
  padStart (Number_toString
              (parseInt (stringOfBits (repeat false 60 ++ [true; false; true; false])) 2)
              16) 16 "0"
  = "000000000000000a"%string.
Proof. vm_compute. reflexivity. Qed.

Example first_of_two_ties_wins :
  let a := {| id := "a"; perceptual_hash := Some "0000000000000001"%string;
              title := "A"; user_id := "u" |} in
  let b := {| id := "b"; perceptual_hash := Some "0000000000000002"%string;
              title := "B"; user_id := "u" |} in
  let none := {| id := "n"; perceptual_hash := None; title := "N"; user_id := "u" |} in
  option_map (fun m => (id (artwork m), distance m))
             (findSimilarArtwork "0000000000000000" [none; a; b])
  = Some ("a"%string, ofZ 1).
Proof. vm_compute. reflexivity. Qed.

Example black_3x3_edge_histogram :
  computeEdgeFeatures (blackImage 3 3 xff) = repeat (Fin (0 / 1)) 10.
Proof. vm_compute. reflexivity. Qed.

Example grey_centre_edge_histogram :
  computeEdgeFeatures (Build_ImageData 3 3 greyCentre)
  = repeat (Fin 0) 9 ++ [Fin 1].
Proof. vm_compute. reflexivity. Qed.

Example sixteen_by_nine_black_verdict :
  Screenshot.analyze (fun _ => F64.decimal 5 10) 16 9 (data (blackImage 16 9 xff))
  = {| Screenshot.isScreenshot := false;
       Screenshot.confidence := Fin 0.4000;
       Screenshot.reason :=
         "Standard 16:9 aspect ratio; Extremely low color diversity: only 1% unique colors" |}.
Proof. vm_compute. reflexivity. Qed.

(** Rounding decides at the threshold.  On the 5x5 image [greyCross] the
    only sampled pixel has luminance 77.99999999999999 (78 in exact
    arithmetic) and its two neighbours 168, so its edge strength is
    180.00000000000003 and not 180; the divisor is 25/25 = 1 and the signal
    fires. *)
Example rounding_decides_at_the_threshold :
  F64.grayAt greyCross 24 = S754_finite false 5488762045857791 (-46)
  /\ F64.ofZ 78 = S754_finite false 5488762045857792 (-46)
  /\ sampledEdgeStrengths 5 5 greyCross
     = [S754_finite false 6333186975989761 (-45)]
  /\ F64.ofZ 180 = S754_finite false 6333186975989760 (-45)
  /\ Screenshot.avgEdgeStrength 5 5 greyCross
     = S754_finite false 6333186975989761 (-45)
  /\ Screenshot.detectCrispEdges 5 5 greyCross initialState
     = Screenshot.trigger 0.15 "Unusually crisp edges (text/UI-like)" initialState.
Proof. repeat split; vm_compute; reflexivity. Qed.

(** * Further properties of the Hamming distance *)

Lemma ofZ_inj : forall a b, ofZ a = ofZ b -> a = b.
Proof. intros a b H. unfold ofZ in H. injection H as H. exact H. Qed.

Lemma countIf_ext : forall (A : Type) (p q : A -> bool) l,
  (forall x, In x l -> p x = q x) -> countIf p l = countIf q l.
Proof.
  intros A p q l. unfold countIf. induction l as [|x l IH]; intros H; simpl.
  - reflexivity.
  - rewrite (H x) by now left.
    destruct (q x); simpl; rewrite IH; auto; intros y Hy; apply H; now right.
Qed.

Lemma countIf_map : forall (A B : Type) (g : A -> B) (p : B -> bool) l,
  countIf (fun x => p (g x)) l = countIf p (map g l).
Proof.
  intros A B g p l. unfold countIf. induction l as [|x l IH]; simpl.
  - reflexivity.
  - destruct (p (g x)); simpl; now rewrite IH.
Qed.

Lemma countIf_sub_add : forall (A : Type) (p q r : A -> bool) l,
  (forall x, p x = true -> q x = true \/ r x = true) ->
  (countIf p l <= countIf q l + countIf r l)%nat.
Proof.
  intros A p q r l H. unfold countIf. induction l as [|x l IH]; simpl.
  - lia.
  - specialize (H x).
    destruct (p x), (q x), (r x); simpl; try lia;
      destruct (H eq_refl); discriminate.
Qed.

Lemma countIf_zero : forall (A : Type) (p : A -> bool) l x,
  countIf p l = 0%nat -> In x l -> p x = false.
Proof.
  intros A p l x. unfold countIf. induction l as [|y l IH]; intros H Hin.
  - contradiction.
  - simpl in H. destruct (p y) eqn:E; [discriminate|].
    destruct Hin as [->|Hin]; auto.
Qed.

Lemma digitChar_bit : forall b, digitChar (Z.b2z b) = bitChar b.
Proof. now intros []. Qed.

Lemma binString_bit : forall v i,
  (i < 64)%nat ->
  charAt (binString 64 v) i
  = Some (bitChar (Z.testbit v (Z.of_nat (63 - i)))).
Proof.
  intros v i Hi. unfold charAt. rewrite binString_get by assumption.
  replace (64 - 1 - i)%nat with (63 - i)%nat by lia.
  rewrite <- Z.testbit_spec' by lia. now rewrite digitChar_bit.
Qed.

Lemma bitChar_differ : forall a b,
  negb (sameChar (Some (bitChar a)) (Some (bitChar b))) = xorb a b.
Proof. now intros [] []. Qed.

Lemma count_reversed : forall (p : nat -> bool),
  countIf (fun i => p (63 - i)%nat) (seq 0 64) = countIf p (seq 0 64).
Proof.
  intros p. rewrite (countIf_map _ _ (fun i => (63 - i)%nat) p).
  apply countIf_perm.
  change (map (fun i => (63 - i)%nat) (seq 0 64)) with (rev (seq 0 64)).
  apply Permutation_sym, Permutation_rev.
Qed.

(** Characters of the two padded expansions differ exactly at the bits where
    the two values differ. *)
Lemma binString_differ : forall v1 v2,
  Z.of_nat (countIf (fun i => negb (sameChar (charAt (binString 64 v1) i)
                                             (charAt (binString 64 v2) i)))
                    (seq 0 64))
  = differingBits v1 v2.
Proof.
  intros v1 v2. unfold differingBits. f_equal.
  rewrite <- (count_reversed
                (fun i => xorb (Z.testbit v1 (Z.of_nat i)) (Z.testbit v2 (Z.of_nat i)))).
  apply countIf_ext. intros i Hi. apply in_seq in Hi.
  rewrite !binString_bit by lia. apply bitChar_differ.
Qed.

Lemma differingBits_sym : forall a b, differingBits a b = differingBits b a.
Proof.
  intros a b. unfold differingBits. f_equal. apply countIf_ext.
  intros i _. apply xorb_comm.
Qed.

Lemma differingBits_range : forall a b, 0 <= differingBits a b <= 64.
Proof.
  intros a b. unfold differingBits.
  pose proof (countIf_le_length _
                (fun i => xorb (Z.testbit a (Z.of_nat i)) (Z.testbit b (Z.of_nat i)))
                (seq 0 64)) as H.
  rewrite length_seq in H. lia.
Qed.

Lemma differingBits_triangle : forall a b c,
  differingBits a c <= differingBits a b + differingBits b c.
Proof.
  intros a b c. unfold differingBits. rewrite <- Nat2Z.inj_add.
  apply Nat2Z.inj_le. apply countIf_sub_add. intros i.
  destruct (Z.testbit a _), (Z.testbit b _), (Z.testbit c _); simpl; auto.
Qed.

Lemma high_bits_clear : forall v n, 0 <= v < 2 ^ 64 -> 64 <= n -> Z.testbit v n = false.
Proof.
  intros v n Hv Hn. destruct (Z.eq_dec v 0) as [->|Hne].
  - apply Z.testbit_0_l.
  - apply Z.bits_above_log2; [lia|].
    assert (Z.log2 v < 64) by (apply Z.log2_lt_pow2; lia). lia.
Qed.

Lemma bits_agree_below_64 : forall a b n,
  countIf (fun i => xorb (Z.testbit a (Z.of_nat i)) (Z.testbit b (Z.of_nat i)))
          (seq 0 64) = 0%nat ->
  0 <= n < 64 -> Z.testbit a n = Z.testbit b n.
Proof.
  intros a b n H Hn.
  pose proof (countIf_zero _ _ _ (Z.to_nat n) H) as Hx.
  cbv beta in Hx. rewrite Z2Nat.id in Hx by lia.
  apply xorb_eq. apply Hx. apply in_seq. lia.
Qed.

Lemma low_bits_determine_value : forall a b,
  0 <= a < 2 ^ 64 -> 0 <= b < 2 ^ 64 ->
  (forall n, 0 <= n < 64 -> Z.testbit a n = Z.testbit b n) -> a = b.
Proof.
  intros a b Ha Hb H. apply Z.bits_inj'. intros n Hn.
  destruct (Z_lt_le_dec n 64) as [Hlt|Hge].
  - apply H. lia.
  - now rewrite !high_bits_clear by assumption.
Qed.

Lemma differingBits_none : forall a b,
  differingBits a b = 0 ->
  countIf (fun i => xorb (Z.testbit a (Z.of_nat i)) (Z.testbit b (Z.of_nat i)))
          (seq 0 64) = 0%nat.
Proof.
  intros a b. unfold differingBits.
  generalize (countIf (fun i => xorb (Z.testbit a (Z.of_nat i))
                                     (Z.testbit b (Z.of_nat i))) (seq 0 64)).
  intros c H. lia.
Qed.

Lemma differingBits_zero : forall a b,
  0 <= a < 2 ^ 64 -> 0 <= b < 2 ^ 64 ->
  (differingBits a b = 0 <-> a = b).
Proof.
  intros a b Ha Hb. split.
  - intros H. apply low_bits_determine_value; try assumption.
    intros n Hn. apply bits_agree_below_64; [|assumption].
    now apply differingBits_none.
  - intros ->. unfold differingBits.
    rewrite countIf_none; [reflexivity|]. intros i _. apply xorb_nilpotent.
Qed.

Lemma get_past_end : forall s n,
  (String.length s <= n)%nat -> String.get n s = None.
Proof.
  induction s as [|c s IH]; intros n Hn; [now destruct n|].
  destruct n as [|n]; simpl in *; [lia|]. apply IH. lia.
Qed.

(** The distance computed from two padded 64-character expansions. *)
Lemma distance_of_values : forall hash1 hash2 v1 v2,
  String.length hash1 = String.length hash2 ->
  parseInt hash1 16 = ofZ v1 -> parseInt hash2 16 = ofZ v2 ->
  0 <= v1 < 2 ^ 64 -> 0 <= v2 < 2 ^ 64 ->
  calculateHammingDistance hash1 hash2 = ofZ (differingBits v1 v2).
Proof.
  intros h1 h2 v1 v2 Hlen E1 E2 Hv1 Hv2. unfold calculateHammingDistance.
  rewrite Hlen, Nat.eqb_refl. cbn [negb]. rewrite E1, E2.
  rewrite !padded_binary by assumption. rewrite binString_length.
  rewrite fold_count. rewrite Z.add_0_l. now rewrite binString_differ.
Qed.

(** X1.  The distance from any string to itself is 0, whatever the string
    holds: the two binary expansions compared are the same string. *)
Theorem distance_to_itself : forall hash,
  calculateHammingDistance hash hash = ofZ 0.
Proof.
  intros h. unfold calculateHammingDistance. rewrite Nat.eqb_refl. cbn [negb].
  rewrite fold_count. rewrite countIf_none; [reflexivity|].
  intros i _. now rewrite sameChar_refl.
Qed.

(** X2.  When both strings have the same length and parse to integers below
    2^64, the distance is the number of positions, among the 64 low-order
    bits, at which the two parsed values differ. *)
Theorem distance_counts_differing_bits : forall hash1 hash2 v1 v2,
  String.length hash1 = String.length hash2 ->
  parseInt hash1 16 = ofZ v1 -> parseInt hash2 16 = ofZ v2 ->
  0 <= v1 < 2 ^ 64 -> 0 <= v2 < 2 ^ 64 ->
  calculateHammingDistance hash1 hash2 = ofZ (differingBits v1 v2).
Proof. exact distance_of_values. Qed.

Lemma distance_counts_differing_bits_witness :
  calculateHammingDistance "00000000000000ff" "000000000000000f" = ofZ 4.
Proof.
  apply (distance_counts_differing_bits
           "00000000000000ff" "000000000000000f" 255 15);
    try reflexivity; lia.
Defined.

(** X3.  Under the same conditions the distance does not depend on the order
    of its two arguments. *)
Theorem distance_symmetric : forall hash1 hash2 v1 v2,
  String.length hash1 = String.length hash2 ->
  parseInt hash1 16 = ofZ v1 -> parseInt hash2 16 = ofZ v2 ->
  0 <= v1 < 2 ^ 64 -> 0 <= v2 < 2 ^ 64 ->
  calculateHammingDistance hash1 hash2 = calculateHammingDistance hash2 hash1.
Proof.
  intros h1 h2 v1 v2 Hlen E1 E2 Hv1 Hv2.
  rewrite (distance_of_values h1 h2 v1 v2), (distance_of_values h2 h1 v2 v1);
    auto. now rewrite differingBits_sym.
Qed.

Lemma distance_symmetric_witness :
  calculateHammingDistance "00000000000000ff" "0123456789abcdef"
  = calculateHammingDistance "0123456789abcdef" "00000000000000ff".
Proof.
  apply (distance_symmetric "00000000000000ff" "0123456789abcdef"
           255 81985529216486896); try reflexivity; lia.
Defined.

(** X4.  The order matters once a value reaches 2^64, to which [parseInt]
    rounds the hashes closest to ffffffffffffffff: the expansion of 2^64 has
    65 digits, the loop runs over the length of the first expansion only, so
    the distance from such a hash is one more than the distance to it. *)
Theorem distance_asymmetric_at_two_pow_64 : forall hash1 hash2 v2,
  String.length hash1 = String.length hash2 ->
  parseInt hash1 16 = ofZ (2 ^ 64) -> parseInt hash2 16 = ofZ v2 ->
  0 <= v2 < 2 ^ 64 ->
  exists d, calculateHammingDistance hash2 hash1 = ofZ d
            /\ calculateHammingDistance hash1 hash2 = ofZ (d + 1)
            /\ 1 <= d + 1 <= 65.
Proof.
  intros h1 h2 v2 Hlen E1 E2 Hv2. unfold calculateHammingDistance.
  rewrite Hlen, Nat.eqb_refl. cbn [negb]. rewrite E1, E2.
  rewrite (padded_binary v2) by assumption.
  set (top := padStart (Number_toString (ofZ (2 ^ 64)) 2) 64 "0").
  assert (Htop : String.length top = 65%nat) by reflexivity.
  rewrite Htop, binString_length. rewrite !fold_count, !Z.add_0_l.
  change (seq 0 65) with (seq 0 64 ++ [64%nat]). rewrite countIf_app.
  assert (Hlast : countIf (fun i => negb (sameChar (charAt top i)
                                            (charAt (binString 64 v2) i)))
                          [64%nat] = 1%nat).
  { unfold countIf. cbn [filter].
    assert (Hnone : charAt (binString 64 v2) 64 = None).
    { unfold charAt. apply get_past_end. now rewrite binString_length. }
    rewrite Hnone. reflexivity. }
  rewrite Hlast.
  assert (Hsym : countIf (fun i => negb (sameChar (charAt top i)
                                           (charAt (binString 64 v2) i)))
                         (seq 0 64)
                 = countIf (fun i => negb (sameChar (charAt (binString 64 v2) i)
                                                    (charAt top i)))
                           (seq 0 64)).
  { apply countIf_ext. intros i _.
    destruct (charAt top i) as [x|], (charAt (binString 64 v2) i) as [y|];
      simpl; try reflexivity. now rewrite Ascii.eqb_sym. }
  rewrite Hsym.
  pose proof (countIf_le_length _
                (fun i => negb (sameChar (charAt (binString 64 v2) i) (charAt top i)))
                (seq 0 64)) as Hle.
  rewrite length_seq in Hle.
  eexists. split; [reflexivity|]. split; [f_equal; lia|lia].
Qed.

Lemma distance_asymmetric_at_two_pow_64_witness :
  exists d, calculateHammingDistance "0000000000000000" "ffffffffffffffff" = ofZ d
            /\ calculateHammingDistance "ffffffffffffffff" "0000000000000000"
               = ofZ (d + 1)
            /\ 1 <= d + 1 <= 65.
Proof.
  apply (distance_asymmetric_at_two_pow_64
           "ffffffffffffffff" "0000000000000000" 0);
    try reflexivity; lia.
Defined.

(** X5.  Triangle inequality: for three strings of one length whose parsed
    values are below 2^64, the distance from the first to the third is at
    most the sum of the distances through the second. *)
Theorem distance_triangle : forall hash1 hash2 hash3 v1 v2 v3,
  String.length hash1 = String.length hash2 ->
  String.length hash2 = String.length hash3 ->
  parseInt hash1 16 = ofZ v1 -> parseInt hash2 16 = ofZ v2 ->
  parseInt hash3 16 = ofZ v3 ->
  0 <= v1 < 2 ^ 64 -> 0 <= v2 < 2 ^ 64 -> 0 <= v3 < 2 ^ 64 ->
  exists d12 d23 d13,
    calculateHammingDistance hash1 hash2 = ofZ d12
    /\ calculateHammingDistance hash2 hash3 = ofZ d23
    /\ calculateHammingDistance hash1 hash3 = ofZ d13
    /\ d13 <= d12 + d23.
Proof.
  intros h1 h2 h3 v1 v2 v3 L12 L23 E1 E2 E3 Hv1 Hv2 Hv3.
  exists (differingBits v1 v2), (differingBits v2 v3), (differingBits v1 v3).
  rewrite (distance_of_values h1 h2 v1 v2), (distance_of_values h2 h3 v2 v3),
          (distance_of_values h1 h3 v1 v3); auto; [|congruence].
  split; [reflexivity|]. split; [reflexivity|]. split; [reflexivity|].
  apply differingBits_triangle.
Qed.

Lemma distance_triangle_witness :
  exists d12 d23 d13,
    calculateHammingDistance "00000000000000ff" "000000000000000f" = ofZ d12
    /\ calculateHammingDistance "000000000000000f" "0000000000000000" = ofZ d23
    /\ calculateHammingDistance "00000000000000ff" "0000000000000000" = ofZ d13
    /\ d13 <= d12 + d23.
Proof.
  apply (distance_triangle "00000000000000ff" "000000000000000f"
           "0000000000000000" 255 15 0); try reflexivity; lia.
Defined.

(** X6.  Under the conditions of X2 the distance is 0 exactly when the two
    strings parse to the same value; two different spellings of one value
    (upper and lower case, say) are at distance 0. *)
Theorem distance_zero_iff_same_value : forall hash1 hash2 v1 v2,
  String.length hash1 = String.length hash2 ->
  parseInt hash1 16 = ofZ v1 -> parseInt hash2 16 = ofZ v2 ->
  0 <= v1 < 2 ^ 64 -> 0 <= v2 < 2 ^ 64 ->
  (calculateHammingDistance hash1 hash2 = ofZ 0 <-> v1 = v2).
Proof.
  intros h1 h2 v1 v2 Hlen E1 E2 Hv1 Hv2.
  rewrite (distance_of_values h1 h2 v1 v2) by assumption.
  rewrite <- (differingBits_zero v1 v2) by assumption.
  split.
  - apply ofZ_inj.
  - intros ->. reflexivity.
Qed.

Lemma distance_zero_iff_same_value_witness :
  calculateHammingDistance "00000000000000FF" "00000000000000ff" = ofZ 0
  <-> 255 = 255.
Proof.
  apply (distance_zero_iff_same_value "00000000000000FF" "00000000000000ff"
           255 255); try reflexivity; lia.
Defined.

(** * Further properties of the search *)

Lemma self_admissible : forall query a,
  query <> EmptyString -> perceptual_hash a = Some query ->
  admissible query a = true /\ hammingTo query a = ofZ 0.
Proof.
  intros q a Hq Ha.
  assert (Hd : hammingTo q a = ofZ 0).
  { unfold hammingTo, storedHash. rewrite Ha.
    unfold calculateHammingDistance. rewrite Nat.eqb_refl. cbn [negb].
    rewrite fold_count. rewrite countIf_none; [reflexivity|].
    intros i _. now rewrite sameChar_refl. }
  split; [|exact Hd].
  unfold admissible. rewrite Hd. unfold noHash. rewrite Ha.
  destruct q; [contradiction|reflexivity].
Qed.

(** X7.  Exact duplicate: when some entry of the corpus stores the query
    itself (a non-empty string), the search returns a match at distance 0
    with confidence 1, whatever else the corpus holds. *)
Theorem exact_duplicate_is_found : forall query allArtworks a,
  query <> EmptyString -> In a allArtworks -> perceptual_hash a = Some query ->
  exists m, findSimilarArtwork query allArtworks = Some m
            /\ In (artwork m) allArtworks
            /\ distance m = ofZ 0
            /\ calculateHammingDistance query (storedHash (artwork m)) = ofZ 0
            /\ same (confidence m) (ofZ 1).
Proof.
  intros q l a Hq Hin Ha.
  destruct (self_admissible q a Hq Ha) as [Hadm Hzero].
  pose proof (findSimilarArtwork_best q l) as Hb.
  destruct (findSimilarArtwork q l) as [m|]; cbn [bestSoFar] in Hb.
  - destruct Hb as (before & after & d & Hl & Hm & Hdm & Hdz & Hr & Hbefore & Hafter & Hconf).
    assert (Hd0 : d = 0).
    { rewrite Hl in Hin. apply in_app_or in Hin.
      destruct Hin as [Hin|[Hin|Hin]].
      - specialize (Hbefore a Hin Hadm). rewrite Hdz, Hzero, lt_ofZ in Hbefore.
        apply Z.ltb_lt in Hbefore. lia.
      - subst a. rewrite Hdm, Hzero in Hdz. apply (f_equal toQ) in Hdz.
        simpl in Hdz. injection Hdz as Hdz. lia.
      - specialize (Hafter a Hin Hadm). rewrite Hdz, Hzero, le_ofZ in Hafter.
        apply Z.leb_le in Hafter. lia. }
    subst d. exists m. split; [reflexivity|]. split.
    { rewrite Hl. apply in_or_app. right. now left. }
    split; [exact Hdz|]. split.
    { fold (hammingTo q (artwork m)). now rewrite <- Hdm. }
    rewrite Hconf, Hdz. reflexivity.
  - rewrite (Hb a Hin) in Hadm. discriminate.
Qed.

Lemma exact_duplicate_is_found_witness :
  exists m,
    findSimilarArtwork "00000000000000ff"
      [ {| id := "1"; perceptual_hash := Some "000000000000000f"%string;
           title := "near"; user_id := "u" |};
        {| id := "2"; perceptual_hash := Some "00000000000000ff"%string;
           title := "same"; user_id := "u" |} ] = Some m
    /\ In (artwork m)
          [ {| id := "1"; perceptual_hash := Some "000000000000000f"%string;
               title := "near"; user_id := "u" |};
            {| id := "2"; perceptual_hash := Some "00000000000000ff"%string;
               title := "same"; user_id := "u" |} ]
    /\ distance m = ofZ 0
    /\ calculateHammingDistance "00000000000000ff" (storedHash (artwork m)) = ofZ 0
    /\ same (confidence m) (ofZ 1).
Proof.
  apply (exact_duplicate_is_found "00000000000000ff" _
           {| id := "2"; perceptual_hash := Some "00000000000000ff"%string;
              title := "same"; user_id := "u" |}).
  - discriminate.
  - right. left. reflexivity.
  - reflexivity.
Defined.

(** X8.  The confidence derived from the distance of any two strings is a
    finite number between 0 and 1; it is 0 when the strings have different
    lengths (infinite distance), and 1 for a string and itself. *)
Theorem confidence_of_any_pair : forall hash1 hash2,
  (exists c, calculateConfidence (calculateHammingDistance hash1 hash2) = Fin c
             /\ (0 <= c <= 1)%Q)
  /\ (String.length hash1 <> String.length hash2 ->
      calculateConfidence (calculateHammingDistance hash1 hash2) = ofZ 0)
  /\ same (calculateConfidence (calculateHammingDistance hash1 hash1)) (ofZ 1).
Proof.
  intros h1 h2. split; [|split].
  - destruct (distance_shape h1 h2) as [->|(d & -> & Hd)].
    + exists 0%Q. split; [reflexivity|lra].
    + pose proof (confidence_of_distance d) as Hs.
      destruct (calculateConfidence (ofZ d)) as [c| | |] eqn:E;
        try (unfold same in Hs; simpl in Hs; contradiction).
      exists c. split; [reflexivity|]. unfold same in Hs. cbn [toQ] in Hs.
      rewrite Hs. split.
      * apply Q.le_max_l.
      * apply Q.max_lub; [lra|]. apply Q.le_min_l.
  - intros Hne. unfold calculateHammingDistance.
    apply Nat.eqb_neq in Hne. rewrite Hne. reflexivity.
  - assert (E : calculateHammingDistance h1 h1 = ofZ 0).
    { unfold calculateHammingDistance. rewrite Nat.eqb_refl. cbn [negb].
      rewrite fold_count. rewrite countIf_none; [reflexivity|].
      intros i _. now rewrite sameChar_refl. }
    rewrite E. reflexivity.
Qed.

(** X9.  Whatever the corpus, a match that is returned has an integer
    distance between 0 and 20 and a confidence between 0.6875 and 1, and its
    entry belongs to the corpus and stores a non-empty hash. *)
Theorem returned_match_bounds : forall query allArtworks m,
  findSimilarArtwork query allArtworks = Some m ->
  In (artwork m) allArtworks
  /\ noHash (artwork m) = false
  /\ exists d c, distance m = ofZ d /\ 0 <= d <= 20
                 /\ confidence m = Fin c /\ (0.6875 <= c <= 1)%Q.
Proof.
  intros q l m Hm.
  pose proof (findSimilarArtwork_best q l) as Hb. rewrite Hm in Hb.
  cbn [bestSoFar] in Hb.
  destruct Hb as (before & after & d & Hl & Hadm & Hdm & Hdz & Hr & _ & _ & Hconf).
  split; [rewrite Hl; apply in_or_app; right; now left|].
  split; [now destruct (admissible_distance q (artwork m) Hadm)|].
  pose proof (confidence_of_distance d) as Hs.
  rewrite <- Hdz, <- Hconf in Hs.
  destruct (confidence m) as [c| | |] eqn:E;
    try (unfold same in Hs; simpl in Hs; contradiction).
  exists d, c. split; [exact Hdz|]. split; [exact Hr|]. split; [reflexivity|].
  unfold same in Hs. cbn [toQ] in Hs. rewrite Hs.
  assert (Hq : (0 <= inject_Z d <= 20)%Q).
  { split; [change 0%Q with (inject_Z 0)|change 20%Q with (inject_Z 20)];
      rewrite <- Zle_Qle; lia. }
  assert (Hs1 : (0.6875 <= 1 - inject_Z d / 64 <= 1)%Q).
  { split.
    - apply Qle_minus_iff.
      setoid_replace (1 - inject_Z d / 64 + - 0.6875)%Q
        with ((20 - inject_Z d) / 64)%Q by (field).
      apply Qle_shift_div_l; lra.
    - apply Qle_minus_iff.
      setoid_replace (1 + - (1 - inject_Z d / 64))%Q
        with (inject_Z d / 64)%Q by (field).
      apply Qle_shift_div_l; lra. }
  split.
  - apply Q.max_le_iff. right. apply Q.min_glb; lra.
  - apply Q.max_lub; [lra|]. apply Q.le_min_l.
Qed.

Lemma returned_match_bounds_witness :
  exists m,
    findSimilarArtwork "00000000000000ff"
      [ {| id := "1"; perceptual_hash := Some "000000000000000f"%string;
           title := "near"; user_id := "u" |} ] = Some m
    /\ In (artwork m)
          [ {| id := "1"; perceptual_hash := Some "000000000000000f"%string;
               title := "near"; user_id := "u" |} ]
    /\ noHash (artwork m) = false
    /\ exists d c, distance m = ofZ d /\ 0 <= d <= 20
                   /\ confidence m = Fin c /\ (0.6875 <= c <= 1)%Q.
Proof.
  eexists. split; [reflexivity|].
  apply (returned_match_bounds "00000000000000ff"
           [ {| id := "1"; perceptual_hash := Some "000000000000000f"%string;
                title := "near"; user_id := "u" |} ]).
  reflexivity.
Defined.

Lemma visit_skips_inadmissible : forall query closestMatch a,
  admissible query a = false -> visit query closestMatch a = closestMatch.
Proof.
  intros q r a Ha. unfold visit. unfold admissible, hammingTo in Ha.
  destruct (noHash a); [reflexivity|]. cbn [negb andb] in Ha.
  cbv zeta. now rewrite Ha.
Qed.

(** X10.  Entries that store no hash or lie farther than 20 from the query
    have no influence on the result: removing them from the corpus, wherever
    they stand, gives the same match. *)
Theorem inadmissible_entries_are_irrelevant : forall query allArtworks,
  findSimilarArtwork query allArtworks
  = findSimilarArtwork query (filter (admissible query) allArtworks).
Proof.
  intros q l. unfold findSimilarArtwork. generalize (@None Match).
  induction l as [|a l IH]; intros r; cbn [filter fold_left]; [reflexivity|].
  destruct (admissible q a) eqn:Ha.
  - cbn [fold_left]. apply IH.
  - rewrite visit_skips_inadmissible by assumption. apply IH.
Qed.

(** X11.  A smaller distance gives a strictly higher confidence: between 0
    and 64 differing bits the confidence [1 - d/64] decreases from 1 to 0. *)
Theorem confidence_decreases_with_distance : forall d1 d2,
  0 <= d1 -> d1 < d2 -> d2 <= 64 ->
  lt (calculateConfidence (ofZ d2)) (calculateConfidence (ofZ d1)) = true.
Proof.
  intros d1 d2 H0 Hlt H64.
  pose proof (confidence_of_distance d1) as S1.
  pose proof (confidence_of_distance d2) as S2.
  destruct (calculateConfidence (ofZ d1)) as [c1| | |];
    try (unfold same in S1; simpl in S1; contradiction).
  destruct (calculateConfidence (ofZ d2)) as [c2| | |];
    try (unfold same in S2; simpl in S2; contradiction).
  unfold same in S1, S2. apply (gt_Fin c1 c2). rewrite S1, S2.
  assert (Q1 : (0 <= inject_Z d1)%Q)
    by (change 0%Q with (inject_Z 0); rewrite <- Zle_Qle; lia).
  assert (Q12 : (inject_Z d1 < inject_Z d2)%Q) by (rewrite <- Zlt_Qlt; lia).
  assert (Q2 : (inject_Z d2 <= 64)%Q)
    by (change 64%Q with (inject_Z 64); rewrite <- Zle_Qle; lia).
  assert (E1 : (inject_Z d1 / 64 == inject_Z d1 * (1 # 64))%Q) by (field).
  assert (E2 : (inject_Z d2 / 64 == inject_Z d2 * (1 # 64))%Q) by (field).
  rewrite E1, E2.
  rewrite (Q.min_r 1 (1 - inject_Z d1 * (1 # 64))) by lra.
  rewrite (Q.min_r 1 (1 - inject_Z d2 * (1 # 64))) by lra.
  rewrite !Q.max_r by lra. lra.
Qed.

Lemma confidence_decreases_with_distance_witness :
  lt (calculateConfidence (ofZ 20)) (calculateConfidence (ofZ 12)) = true.
Proof.
  apply (confidence_decreases_with_distance 12 20); lia.
Defined.

(** * Further properties of the feature comparator *)

Lemma Qmult_comm_eq : forall x y : Q, (x * y)%Q = (y * x)%Q.
Proof.
  intros [a b] [c d]. unfold Qmult. cbn [Qnum Qden].
  now rewrite Z.mul_comm, Pos.mul_comm.
Qed.

Lemma mul_comm : forall a b, mul a b = mul b a.
Proof.
  intros [x| | |] [y| | |]; cbn [mul]; try reflexivity;
    try (now rewrite Z.mul_comm).
  now rewrite Qmult_comm_eq.
Qed.

Section ComparatorFacts.
Context `{MathLib}.

(** The loop of [cosineSimilarity] with the two vectors exchanged computes
    the same dot product and exchanges the two squared magnitudes. *)
Lemma cosine_loop_swap : forall (vec1 vec2 : list number) l d m1 m2,
  fold_left (fun '(dotProduct, mag1, mag2) i =>
               let a := Array_get vec2 i in
               let b := Array_get vec1 i in
               (add dotProduct (mul a b), add mag1 (mul a a),
                add mag2 (mul b b)))
            l (d, m2, m1)
  = let '(D, M1, M2) :=
      fold_left (fun '(dotProduct, mag1, mag2) i =>
                   let a := Array_get vec1 i in
                   let b := Array_get vec2 i in
                   (add dotProduct (mul a b), add mag1 (mul a a),
                    add mag2 (mul b b)))
                l (d, m1, m2) in
    (D, M2, M1).
Proof.
  intros vec1 vec2 l. induction l as [|i l IH]; intros d m1 m2; cbn [fold_left].
  - reflexivity.
  - cbv zeta. rewrite (mul_comm (Array_get vec2 i) (Array_get vec1 i)).
    apply IH.
Qed.

Lemma cosine_comm : forall vec1 vec2,
  cosineSimilarity vec1 vec2 = cosineSimilarity vec2 vec1.
Proof.
  intros v1 v2. unfold cosineSimilarity.
  destruct (List.length v1 =? List.length v2)%nat eqn:E.
  - apply Nat.eqb_eq in E. rewrite <- E, Nat.eqb_refl. cbn [negb].
    rewrite (cosine_loop_swap v1 v2).
    destruct (fold_left _ _ _) as [[D M1] M2].
    now rewrite (mul_comm (Math_sqrt M2) (Math_sqrt M1)).
  - rewrite Nat.eqb_sym, E. reflexivity.
Qed.

(** What the loop of [cosineSimilarity] leaves in its three accumulators
    on finite vectors of one length. *)
Lemma cosine_loop_finite : forall (vec1 vec2 : list number),
  allFinite vec1 -> allFinite vec2 -> List.length vec1 = List.length vec2 ->
  exists d m1 m2,
    fold_left (fun '(dotProduct, mag1, mag2) i =>
                 let a := Array_get vec1 i in
                 let b := Array_get vec2 i in
                 (add dotProduct (mul a b), add mag1 (mul a a),
                  add mag2 (mul b b)))
              (range 0 (Z.of_nat (List.length vec1)) 1) (ofZ 0, ofZ 0, ofZ 0)
    = (Fin d, Fin m1, Fin m2)
    /\ (0 <= m1)%Q /\ (0 <= m2)%Q
    /\ (Forall isZero vec1 -> (m1 == 0)%Q).
Proof.
  intros v1 v2 F1 F2 Hlen.
  match goal with
  | |- exists d m1 m2, ?f = _ /\ _ =>
      assert (Hinv : exists d m1 m2,
                f = (Fin d, Fin m1, Fin m2) /\ (0 <= m1)%Q /\ (0 <= m2)%Q
                /\ (Forall isZero v1 -> (m1 == 0)%Q))
  end; [|exact Hinv].
  apply fold_left_invariant.
  - exists 0%Q, 0%Q, 0%Q. split; [reflexivity|]. split; [lra|]. split; [lra|].
    intros _. reflexivity.
  - intros acc i Hi (d & m1 & m2 & -> & P1 & P2 & Z1).
    apply in_range in Hi; [|lia]. destruct Hi as (k & Hk & -> & Hlt).
    cbv zeta.
    assert (Fa : isFinite (Array_get v1 (0 + 1 * k)) = true)
      by (apply Array_get_finite; [assumption|lia]).
    assert (Fb : isFinite (Array_get v2 (0 + 1 * k)) = true)
      by (apply Array_get_finite; [assumption|lia]).
    assert (Za : Forall isZero v1 -> isZero (Array_get v1 (0 + 1 * k))).
    { intros Hz. unfold Array_get.
      destruct (0 + 1 * k <? 0) eqn:E; [apply Z.ltb_lt in E; lia|].
      destruct (nth_error v1 (Z.to_nat (0 + 1 * k))) eqn:N.
      - rewrite Forall_forall in Hz. apply Hz. eapply nth_error_In; eassumption.
      - apply nth_error_None in N. lia. }
    apply finite_inv in Fa as [a Ea]. apply finite_inv in Fb as [b Eb].
    rewrite Ea, Eb in *. cbn [mul add].
    exists (d + a * b)%Q, (m1 + a * a)%Q, (m2 + b * b)%Q.
    split; [reflexivity|]. split; [nra|]. split; [nra|].
    intros Hz. specialize (Z1 Hz). specialize (Za Hz).
    unfold isZero, same, ofZ in Za. rewrite Z1, Za. reflexivity.
Qed.

Lemma sqrt_of_nonnegative : forall q,
  (0 <= q)%Q -> Math_sqrt (Fin q) = Fin (sqrtQ q).
Proof.
  intros q Hq. unfold Math_sqrt. now rewrite (proj2 (Qle_bool_iff _ _) Hq).
Qed.

Lemma cosine_finite : forall vec1 vec2,
  allFinite vec1 -> allFinite vec2 ->
  isFinite (cosineSimilarity vec1 vec2) = true.
Proof.
  intros v1 v2 F1 F2. unfold cosineSimilarity.
  destruct (List.length v1 =? List.length v2)%nat eqn:E; [|reflexivity].
  apply Nat.eqb_eq in E. cbn [negb].
  destruct (cosine_loop_finite v1 v2 F1 F2 E) as (d & m1 & m2 & Hloop & P1 & P2 & _).
  cbv zeta in Hloop |- *. rewrite Hloop.
  rewrite !sqrt_of_nonnegative by assumption. cbn [mul JS.eq ofZ].
  destruct (Qeq_bool (sqrtQ m1 * sqrtQ m2) (inject_Z 0)) eqn:B; [reflexivity|].
  unfold div. change 0%Q with (inject_Z 0). now rewrite B.
Qed.

Lemma zeros_finite : forall l, Forall isZero l -> allFinite l.
Proof.
  intros l Hl. unfold allFinite. eapply Forall_impl; [|exact Hl].
  intros a Ha. apply isZero_inv in Ha as (q & -> & _). reflexivity.
Qed.

(** X12.  The cosine similarity does not depend on the order of its two
    arguments, whatever the vectors hold (non-finite entries and different
    lengths included). *)
Theorem cosineSimilarity_symmetric : forall vec1 vec2,
  cosineSimilarity vec1 vec2 = cosineSimilarity vec2 vec1.
Proof. exact cosine_comm. Qed.

(** X13.  Hence the weighted similarity of two feature sets is the same in
    both directions. *)
Theorem compareImageFeatures_symmetric : forall features1 features2,
  compareImageFeatures features1 features2
  = compareImageFeatures features2 features1.
Proof.
  intros f1 f2. unfold compareImageFeatures. cbv zeta.
  now rewrite (cosine_comm (colorHistogram f1)), (cosine_comm (edgeFeatures f1)),
              (cosine_comm (textureFeatures f1)).
Qed.

End ComparatorFacts.

(** * Further properties of the feature extractor *)

Lemma byteValue_range : forall b, 0 <= byteValue b <= 255.
Proof.
  intros b. unfold byteValue. pose proof (Byte.to_N_bounded b) as Hb. lia.
Qed.

Lemma Uint8_get_range : forall a i,
  0 <= i < Z.of_nat (List.length a) ->
  exists v, Uint8_get a i = Fin v /\ (0 <= v <= 255)%Q.
Proof.
  intros a i Hi. unfold Uint8_get, Uint8_read.
  destruct (i <? 0) eqn:E; [apply Z.ltb_lt in E; lia|].
  destruct (nth_error a (Z.to_nat i)) as [b|] eqn:N.
  - exists (inject_Z (byteValue b)). split; [reflexivity|].
    pose proof (byteValue_range b) as Hb.
    split; [change 0%Q with (inject_Z 0)|change 255%Q with (inject_Z 255)];
      rewrite <- Zle_Qle; lia.
  - apply nth_error_None in N. lia.
Qed.

(** The luminance of a pixel read inside the buffer lies between 0 and 255:
    the three weights are positive and add up to 1. *)
Lemma grayAt_range : forall data idx,
  0 <= idx -> idx + 2 < Z.of_nat (List.length data) ->
  exists g, grayAt data idx = Fin g /\ (0 <= g <= 255)%Q.
Proof.
  intros data idx H0 H2. unfold grayAt, luminance.
  destruct (Uint8_get_range data idx) as (r & -> & Hr); [lia|].
  destruct (Uint8_get_range data (idx + 1)) as (g & -> & Hg); [lia|].
  destruct (Uint8_get_range data (idx + 2)) as (b & -> & Hb); [lia|].
  cbn [mul add]. eexists. split; [reflexivity|]. lra.
Qed.

Lemma sum_of_grays : forall l acc,
  Forall (fun a => exists g, a = Fin g /\ (0 <= g <= 255)%Q) l ->
  exists S, fold_left (fun sum val => add sum val) l (Fin acc) = Fin S
            /\ (acc <= S <= acc + 255 * inject_Z (Z.of_nat (List.length l)))%Q.
Proof.
  induction l as [|a l IH]; intros acc Hl.
  - exists acc. split; [reflexivity|].
    cbn [List.length Z.of_nat]. change (inject_Z 0) with 0%Q. lra.
  - apply Forall_cons_iff in Hl as [(g & -> & Hg) Hl]. cbn [fold_left add].
    destruct (IH (acc + g)%Q Hl) as (S & -> & HS). exists S.
    split; [reflexivity|].
    cbn [List.length]. rewrite Nat2Z.inj_succ. unfold Z.succ.
    rewrite inject_Z_plus. change (inject_Z 1) with 1%Q. lra.
Qed.

Lemma sum_of_squares : forall (mean : Q) l acc,
  Forall (fun a => isFinite a = true) l -> (0 <= acc)%Q ->
  exists V, fold_left (fun variance val =>
                         add variance (Math_pow2 (sub val (Fin mean))))
                      l (Fin acc) = Fin V
            /\ (0 <= V)%Q.
Proof.
  intros mean. induction l as [|a l IH]; intros acc Hl Hacc.
  - exists acc. split; [reflexivity|assumption].
  - apply Forall_cons_iff in Hl as [Ha Hl]. apply finite_inv in Ha as [x ->].
    cbn [fold_left sub neg add Math_pow2 mul].
    apply IH; [assumption|].
    set (t := (x + - mean)%Q). assert (0 <= t * t)%Q by nra. lra.
Qed.

Section ExtractorFacts.
Context `{MathLib}.

Lemma texture_shape : forall imageData n,
  List.length (data imageData) = (4 * n)%nat -> (0 < n)%nat ->
  exists mean deviation,
    computeTextureFeatures imageData = [Fin mean; Fin deviation]
    /\ (0 <= mean <= 1)%Q /\ (0 <= deviation)%Q.
Proof.
  intros [w h d] n Hlen Hn. cbn [data] in Hlen.
  unfold computeTextureFeatures. cbv zeta. cbn [data].
  fold (grayscaleOf d). rewrite (grayscaleOf_length d n Hlen).
  assert (Hg : Forall (fun a => exists g, a = Fin g /\ (0 <= g <= 255)%Q)
                      (grayscaleOf d)).
  { rewrite (grayscaleOf_quads d n Hlen). rewrite Forall_map, Forall_forall.
    intros k Hk. apply in_seq in Hk. apply grayAt_range; lia. }
  destruct (sum_of_grays (grayscaleOf d) 0 Hg) as (S & HS & HSr).
  change (Fin 0) with (ofZ 0) in HS. rewrite HS.
  rewrite (grayscaleOf_length d n Hlen) in HSr.
  unfold ofNat. rewrite div_ofZ_finite by lia.
  assert (Hf : Forall (fun a => isFinite a = true) (grayscaleOf d)).
  { eapply Forall_impl; [|exact Hg]. intros a (g & -> & _). reflexivity. }
  destruct (sum_of_squares (S / inject_Z (Z.of_nat n)) (grayscaleOf d) 0 Hf
              ltac:(lra)) as (V & HV & HV0).
  change (Fin 0) with (ofZ 0) in HV. rewrite HV.
  rewrite !div_ofZ_finite by lia.
  assert (Hnq : (0 < inject_Z (Z.of_nat n))%Q).
  { change 0%Q with (inject_Z 0). rewrite <- Zlt_Qlt. lia. }
  assert (HVn : (0 <= V / inject_Z (Z.of_nat n))%Q).
  { apply Qle_shift_div_l; [assumption|lra]. }
  unfold Math_sqrt. rewrite (proj2 (Qle_bool_iff _ _) HVn).
  rewrite !div_ofZ_finite by lia.
  eexists. eexists. split; [reflexivity|].
  pose proof (sqrtQ_nonneg _ HVn) as Hs.
  assert (Hmean : (0 <= S / inject_Z (Z.of_nat n) <= 255)%Q).
  { split.
    - apply Qle_shift_div_l; [assumption|lra].
    - apply Qle_shift_div_r; [assumption|lra]. }
  change (inject_Z 255) with 255%Q.
  split; [split|].
  - apply Qle_shift_div_l; lra.
  - apply Qle_shift_div_r; lra.
  - apply Qle_shift_div_l; lra.
Qed.


End ExtractorFacts.


(** * The alpha channel *)

Lemma fold_left_ext_in : forall (A B : Type) (f g : A -> B -> A) l a,
  (forall acc x, In x l -> f acc x = g acc x) ->
  fold_left f l a = fold_left g l a.
Proof.
  intros A B f g l. induction l as [|x l IH]; intros a Hfg; cbn [fold_left].
  - reflexivity.
  - rewrite (Hfg a x) by now left. apply IH. intros acc y Hy. apply Hfg. now right.
Qed.

Lemma fold_left_ext : forall (A B : Type) (f g : A -> B -> A) l a,
  (forall acc x, f acc x = g acc x) ->
  fold_left f l a = fold_left g l a.
Proof. intros. apply fold_left_ext_in. auto. Qed.

Section AlphaChannel.
Variables pixels1 pixels2 : list byte.
Hypothesis Hrgb : sameRGB pixels1 pixels2.

Lemma Uint8_read_rgb : forall idx c,
  idx mod 4 = 0 -> 0 <= c < 3 ->
  Uint8_read pixels1 (idx + c) = Uint8_read pixels2 (idx + c).
Proof.
  intros idx c Hidx Hc. unfold Uint8_read.
  destruct (idx + c <? 0) eqn:E; [reflexivity|]. apply Z.ltb_ge in E.
  apply (proj2 Hrgb).
  assert (Hm : (idx + c) mod 4 = c).
  { rewrite <- Z.add_mod_idemp_l, Hidx by lia. apply Z.mod_small. lia. }
  assert (Hn : Z.of_nat (Z.to_nat (idx + c) mod 4) = c).
  { rewrite Nat2Z.inj_mod, Z2Nat.id by lia. exact Hm. }
  lia.
Qed.

Lemma Uint8_get_rgb : forall idx c,
  idx mod 4 = 0 -> 0 <= c < 3 ->
  Uint8_get pixels1 (idx + c) = Uint8_get pixels2 (idx + c).
Proof. intros. unfold Uint8_get. now rewrite Uint8_read_rgb. Qed.

Lemma grayAt_rgb : forall idx,
  idx mod 4 = 0 -> grayAt pixels1 idx = grayAt pixels2 idx.
Proof.
  intros idx Hidx. unfold grayAt.
  rewrite <- (Z.add_0_r idx) at 1 4.
  now rewrite !Uint8_get_rgb by (assumption || lia).
Qed.

Lemma grayAt_quad : forall k, grayAt pixels1 (k * 4) = grayAt pixels2 (k * 4).
Proof. intros k. apply grayAt_rgb. apply Z.mod_mul. lia. Qed.

Lemma grayAt64_quad : forall k,
  F64.grayAt pixels1 (k * 4) = F64.grayAt pixels2 (k * 4).
Proof.
  intros k. unfold F64.grayAt, F64.Uint8_get.
  assert (Hk : (k * 4) mod 4 = 0) by (apply Z.mod_mul; lia).
  rewrite <- (Z.add_0_r (k * 4)) at 1 4.
  now rewrite !Uint8_read_rgb by (assumption || lia).
Qed.

Lemma in_quads : forall i n, In i (range 0 n 4) -> i mod 4 = 0.
Proof.
  intros i n Hi. apply in_range in Hi; [|lia].
  destruct Hi as (k & _ & -> & _). rewrite Z.add_0_l, Z.mul_comm.
  apply Z.mod_mul. lia.
Qed.

Lemma grayscaleOf_rgb : grayscaleOf pixels1 = grayscaleOf pixels2.
Proof.
  unfold grayscaleOf. rewrite <- (proj1 Hrgb). apply map_ext_in.
  intros i Hi. apply grayAt_rgb. now apply in_quads in Hi.
Qed.

Lemma computeColorHistogram_rgb :
  computeColorHistogram pixels1 = computeColorHistogram pixels2.
Proof.
  unfold computeColorHistogram. cbv zeta. rewrite <- (proj1 Hrgb).
  f_equal. apply fold_left_ext_in. intros histogram i Hi.
  apply in_quads in Hi.
  rewrite <- (Z.add_0_r i) at 1 4.
  now rewrite !Uint8_get_rgb by (assumption || lia).
Qed.

Lemma countColors_rgb :
  Screenshot.countColors pixels1 = Screenshot.countColors pixels2.
Proof.
  unfold Screenshot.countColors. rewrite <- (proj1 Hrgb).
  apply fold_left_ext_in. intros [uniqueColors totalPixels] i Hi.
  apply in_quads in Hi.
  rewrite <- (Z.add_0_r i) at 1 4.
  now rewrite !Uint8_read_rgb by (assumption || lia).
Qed.

Lemma edgeStrength_rgb : forall w x y,
  Screenshot.edgeStrength w pixels1 x y = Screenshot.edgeStrength w pixels2 x y.
Proof. intros. unfold Screenshot.edgeStrength. now rewrite !grayAt64_quad. Qed.

Lemma scanEdges_rgb : forall w h,
  Screenshot.scanEdges w h pixels1 = Screenshot.scanEdges w h pixels2.
Proof.
  intros w h. unfold Screenshot.scanEdges.
  apply fold_left_ext. intros acc y. apply fold_left_ext.
  intros [total count] x. now rewrite edgeStrength_rgb.
Qed.

Lemma blockIsFlat_rgb : forall w x y,
  Screenshot.blockIsFlat w pixels1 x y = Screenshot.blockIsFlat w pixels2 x y.
Proof.
  intros w x y. unfold Screenshot.blockIsFlat. cbv zeta.
  assert (Hmean :
    fold_left (fun mean by_ =>
                 fold_left (fun mean bx =>
                              F64.add mean
                                (F64.grayAt pixels1 (((y + by_) * w + (x + bx)) * 4)))
                           (range 0 8 1) mean)
              (range 0 8 1) (F64.ofZ 0)
    = fold_left (fun mean by_ =>
                   fold_left (fun mean bx =>
                                F64.add mean
                                  (F64.grayAt pixels2 (((y + by_) * w + (x + bx)) * 4)))
                             (range 0 8 1) mean)
                (range 0 8 1) (F64.ofZ 0)).
  { apply fold_left_ext. intros acc by_. apply fold_left_ext.
    intros acc' bx. now rewrite grayAt64_quad. }
  rewrite Hmean. f_equal. f_equal.
  apply fold_left_ext. intros acc by_. apply fold_left_ext.
  intros acc' bx. now rewrite grayAt64_quad.
Qed.

Lemma blockAt_rgb : forall w x y,
  Screenshot.blockAt w pixels1 x y = Screenshot.blockAt w pixels2 x y.
Proof.
  intros w [x|] [y|]; cbn [Screenshot.blockAt]; try reflexivity.
  apply blockIsFlat_rgb.
Qed.

Lemma countBlockiness_rgb : forall random w h,
  Screenshot.countBlockiness random w h pixels1
  = Screenshot.countBlockiness random w h pixels2.
Proof.
  intros random w h. unfold Screenshot.countBlockiness.
  apply fold_left_ext. intros acc i. cbv zeta. now rewrite blockAt_rgb.
Qed.

Section WithMath.
Context `{MathLib}.

Lemma sobelMagnitude_rgb : forall w x y,
  sobelMagnitude w pixels1 x y = sobelMagnitude w pixels2 x y.
Proof.
  intros w x y. unfold sobelMagnitude.
  match goal with
  | |- (let '(_, _) := ?f1 in _) = (let '(_, _) := ?f2 in _) =>
      assert (Hf : f1 = f2)
  end.
  { apply fold_left_ext. intros g ky. apply fold_left_ext.
    intros [gx gy] kx. cbv zeta. now rewrite grayAt_quad. }
  now rewrite Hf.
Qed.

Lemma sobelEdges_rgb : forall w h,
  sobelEdges {| width := w; height := h; data := pixels1 |}
  = sobelEdges {| width := w; height := h; data := pixels2 |}.
Proof.
  intros w h. unfold sobelEdges. cbn [width height data].
  apply flat_map_ext. intros y. apply map_ext. intros x.
  apply sobelMagnitude_rgb.
Qed.

(** X15.  The alpha channel is ignored by the hash and by the three image
    features: two buffers that differ only in their alpha samples get the
    same hash, the same colour histogram, the same edge histogram and the
    same texture features. *)
Theorem alpha_is_ignored_by_hash_and_features :
  computeDCTHash (grayscaleOf pixels1) 32 = computeDCTHash (grayscaleOf pixels2) 32
  /\ computeColorHistogram pixels1 = computeColorHistogram pixels2
  /\ forall w h,
       computeEdgeFeatures {| width := w; height := h; data := pixels1 |}
       = computeEdgeFeatures {| width := w; height := h; data := pixels2 |}
       /\ computeTextureFeatures {| width := w; height := h; data := pixels1 |}
          = computeTextureFeatures {| width := w; height := h; data := pixels2 |}.
Proof.
  split; [now rewrite grayscaleOf_rgb|].
  split; [exact computeColorHistogram_rgb|].
  intros w h. split.
  - unfold computeEdgeFeatures. now rewrite sobelEdges_rgb.
  - unfold computeTextureFeatures. cbn [data].
    fold (grayscaleOf pixels1). fold (grayscaleOf pixels2).
    now rewrite grayscaleOf_rgb.
Qed.

End WithMath.

(** X16.  The screenshot verdict ignores the alpha channel as well: for any
    results of the random block sampling, two buffers that differ only in
    their alpha samples get the same verdict, confidence and reasons. *)
Theorem alpha_is_ignored_by_screenshot_heuristic : forall random w h,
  Screenshot.analyze random w h pixels1 = Screenshot.analyze random w h pixels2.
Proof.
  intros random w h.
  assert (Hrun : Screenshot.runDetections random w h pixels1
                 = Screenshot.runDetections random w h pixels2).
  { unfold Screenshot.runDetections. cbv zeta.
    unfold Screenshot.detectBlockiness, Screenshot.detectSharpPixels,
      Screenshot.detectCrispEdges, Screenshot.detectColorDiversity.
    cbv zeta.
    unfold Screenshot.avgEdgeStrength, Screenshot.edgePixelRatio,
      Screenshot.colorDiversity.
    now rewrite countColors_rgb, scanEdges_rgb, countBlockiness_rgb. }
  unfold Screenshot.analyze. cbv zeta. now rewrite Hrun.
Qed.

End AlphaChannel.

Lemma opaque_and_transparent_pixel :
  sameRGB [x10; x20; x30; xff] [x10; x20; x30; x00].
Proof.
  split; [reflexivity|]. intros i Hi.
  do 4 (destruct i as [|i]; [first [reflexivity | now contradiction Hi]|]).
  reflexivity.
Qed.

Lemma alpha_is_ignored_by_hash_and_features_witness :
  computeDCTHash (grayscaleOf [x10; x20; x30; xff]) 32
  = computeDCTHash (grayscaleOf [x10; x20; x30; x00]) 32
  /\ computeColorHistogram [x10; x20; x30; xff]
     = computeColorHistogram [x10; x20; x30; x00]
  /\ forall w h,
       computeEdgeFeatures {| width := w; height := h; data := [x10; x20; x30; xff] |}
       = computeEdgeFeatures {| width := w; height := h; data := [x10; x20; x30; x00] |}
       /\ computeTextureFeatures {| width := w; height := h; data := [x10; x20; x30; xff] |}
          = computeTextureFeatures {| width := w; height := h; data := [x10; x20; x30; x00] |}.
Proof.
  exact (alpha_is_ignored_by_hash_and_features
           [x10; x20; x30; xff] [x10; x20; x30; x00]
           opaque_and_transparent_pixel).
Defined.

Lemma alpha_is_ignored_by_screenshot_heuristic_witness :
  Screenshot.analyze (fun _ => F64.ofZ 0) 1 1 [x10; x20; x30; xff]
  = Screenshot.analyze (fun _ => F64.ofZ 0) 1 1 [x10; x20; x30; x00].
Proof.
  exact (alpha_is_ignored_by_screenshot_heuristic
           [x10; x20; x30; xff] [x10; x20; x30; x00]
           opaque_and_transparent_pixel (fun _ => F64.ofZ 0) 1 1).
Defined.

(** * The analysis of a whole image *)

Lemma zero_or_positive : forall l,
  Forall isNonNegative l ->
  Forall isZero l \/ Exists (fun e => (0 < toQ e)%Q) l.
Proof.
  induction l as [|e l IH]; intros Hl; [left; constructor|].
  apply Forall_cons_iff in Hl as [[Fe Pe] Hl].
  destruct (Qlt_le_dec 0 (toQ e)) as [Hpos|Hle].
  - right. now constructor.
  - destruct (IH Hl) as [Hz|Hex]; [left|right; now constructor 2].
    constructor; [|assumption].
    apply finite_inv in Fe as [q ->]. cbn [toQ] in *.
    unfold isZero, same, ofZ. change (inject_Z 0) with 0%Q.
    apply Qle_antisym; assumption.
Qed.

Lemma nonnegative_finite : forall l, Forall isNonNegative l -> allFinite l.
Proof.
  intros l Hl. unfold allFinite. eapply Forall_impl; [|exact Hl].
  now intros a [Fa _].
Qed.

Section AnalysisFacts.
Context `{MathLib}.

(** The edge histogram of a well-formed image of at least 3x3 pixels: ten
    finite numbers, all zero when the image has no edge at all. *)
Lemma edge_features_finite : forall imageData,
  Z.of_nat (List.length (data imageData))
  = 4 * width imageData * height imageData ->
  3 <= width imageData -> 3 <= height imageData ->
  List.length (computeEdgeFeatures imageData) = 10%nat
  /\ allFinite (computeEdgeFeatures imageData).
Proof.
  intros imageData Hlen Hw Hh.
  pose proof (sobelEdges_nonnegative imageData Hlen) as Hnn.
  assert (Hne : sobelEdges imageData <> []).
  { assert (Hin : In (sobelMagnitude (width imageData) (data imageData) 1 1)
                     (sobelEdges imageData)).
    { unfold sobelEdges. apply in_flat_map. exists 1. split.
      - apply in_range; [lia|]. exists 0. lia.
      - apply in_map_iff. exists 1. split; [reflexivity|].
        apply in_range; [lia|]. exists 0. lia. }
    intros E. rewrite E in Hin. contradiction. }
  destruct (zero_or_positive _ Hnn) as [Hz|Hex].
  - destruct (flat_edges_histogram imageData Hne Hz) as [Hl Hzeros].
    split; [assumption|now apply zeros_finite].
  - destruct (edge_histogram_with_an_edge imageData Hnn Hex) as (Hl & Hpos & _).
    split; [assumption|now apply nonnegative_finite].
Qed.

Lemma color_histogram_finite : forall pixels n,
  List.length pixels = (4 * n)%nat -> (0 < n)%nat ->
  List.length (computeColorHistogram pixels) = 48%nat
  /\ allFinite (computeColorHistogram pixels).
Proof.
  intros pixels n Hlen Hn.
  destruct (histogram_shape pixels n Hlen Hn) as (T & _ & ->).
  split; [now rewrite length_map, length_seq|].
  unfold allFinite. rewrite Forall_map, Forall_forall. reflexivity.
Qed.

Lemma compare_finite : forall features1 features2,
  wellFormedFeatures features1 -> wellFormedFeatures features2 ->
  isFinite (compareImageFeatures features1 features2) = true.
Proof.
  intros f1 f2 ((_ & C1) & (_ & E1) & (_ & T1)) ((_ & C2) & (_ & E2) & (_ & T2)).
  unfold compareImageFeatures. cbv zeta.
  repeat (apply finite_add || apply finite_mul);
    try reflexivity; now apply cosine_finite.
Qed.

Lemma analysis_well_formed : forall file pixels,
  loads file = true -> context2d file = true ->
  getImageData file 256 256 = Return pixels ->
  Z.of_nat (List.length pixels) = 4 * 256 * 256 ->
  exists features,
    analyzeImageFeatures file = Resolved features
    /\ wellFormedFeatures features.
Proof.
  intros file pixels Hl Hc Hd Hlen. unfold analyzeImageFeatures.
  rewrite Hl, Hc, Hd. cbn [negb]. eexists. split; [reflexivity|].
  assert (Hn : List.length pixels = (4 * Z.to_nat 65536)%nat) by lia.
  unfold wellFormedFeatures. cbn [colorHistogram edgeFeatures textureFeatures].
  split; [apply (color_histogram_finite pixels (Z.to_nat 65536)); [exact Hn|lia]|].
  split.
  - apply edge_features_finite; cbn [width height data]; lia.
  - destruct (texture_shape {| width := 256; height := 256; data := pixels |}
                (Z.to_nat 65536) Hn ltac:(lia)) as (m & s & -> & _).
    split; [reflexivity|repeat constructor].
Qed.

(** X17.  When the browser delivers the 256x256 canvas (262144 bytes),
    [analyzeImageFeatures] resolves with a feature set of 48, 10 and 2
    entries, all of them finite numbers; a flat image included, whose edge
    histogram is ten zeros. *)
Theorem analysis_resolves_with_finite_features : forall file pixels,
  loads file = true -> context2d file = true ->
  getImageData file 256 256 = Return pixels ->
  Z.of_nat (List.length pixels) = 4 * 256 * 256 ->
  exists features,
    analyzeImageFeatures file = Resolved features
    /\ wellFormedFeatures features.
Proof. exact analysis_well_formed. Qed.

(** X18.  Comparing two feature sets of that shape gives a finite number:
    the comparison of two analysed images is never [NaN]. *)
Theorem comparison_of_analysed_images_is_finite :
  forall file1 file2 pixels1 pixels2,
  loads file1 = true -> context2d file1 = true ->
  getImageData file1 256 256 = Return pixels1 ->
  Z.of_nat (List.length pixels1) = 4 * 256 * 256 ->
  loads file2 = true -> context2d file2 = true ->
  getImageData file2 256 256 = Return pixels2 ->
  Z.of_nat (List.length pixels2) = 4 * 256 * 256 ->
  exists features1 features2,
    analyzeImageFeatures file1 = Resolved features1
    /\ analyzeImageFeatures file2 = Resolved features2
    /\ isFinite (compareImageFeatures features1 features2) = true.
Proof.
  intros file1 file2 p1 p2 L1 C1 D1 N1 L2 C2 D2 N2.
  destruct (analysis_well_formed file1 p1 L1 C1 D1 N1) as (f1 & E1 & W1).
  destruct (analysis_well_formed file2 p2 L2 C2 D2 N2) as (f2 & E2 & W2).
  exists f1, f2. split; [assumption|]. split; [assumption|].
  now apply compare_finite.
Qed.

End AnalysisFacts.

(** * Further properties of the screenshot heuristic *)

(** A value below 0.03 is below 0.06: the two constants have the same
    mantissa and consecutive exponents. *)
Lemma below_003_below_006 : forall a,
  F64.lt a (F64.decimal 3 100) = true -> F64.lt a (F64.decimal 6 100) = true.
Proof.
  intros a.
  change (F64.decimal 3 100) with (S754_finite false 8646911284551352 (-58)).
  change (F64.decimal 6 100) with (S754_finite false 8646911284551352 (-57)).
  unfold F64.lt, SFltb, SFcompare.
  destruct a as [s|s| |s m e]; try (intros H; exact H).
  destruct s; [reflexivity|].
  destruct (Z.compare_spec e (-58)) as [E|E|E]; intros H.
  - subst e. reflexivity.
  - destruct (Z.compare_spec e (-57)) as [E'|E'|E']; try lia; reflexivity.
  - discriminate.
Qed.

Ltac score_cases H :=
  cbn [Screenshot.trigger Screenshot.detectionScore Screenshot.reasons] in H |- *;
  try (vm_compute in H; discriminate H).

(** X19.  What a positive verdict requires.  The weights are such that the
    score exceeds 0.70 only if the colour diversity is below 0.06, at least
    one of the two edge signals fired, and at least four signals fired in
    all. *)
Theorem positive_verdict_requirements : forall random w h data,
  Screenshot.isScreenshot (Screenshot.analyze random w h data) = true ->
  F64.lt (Screenshot.colorDiversity data) (F64.decimal 6 100) = true
  /\ (F64.gt (Screenshot.avgEdgeStrength w h data) (F64.ofZ 180) = true
      \/ F64.gt (Screenshot.edgePixelRatio w h data) (F64.decimal 25 100) = true)
  /\ (4 <= List.length (Screenshot.reasons
                          (Screenshot.runDetections random w h data)))%nat.
Proof.
  intros random w h data.
  unfold Screenshot.analyze. cbv zeta. cbn [Screenshot.isScreenshot].
  unfold Screenshot.runDetections. cbv zeta.
  unfold Screenshot.detectBlockiness. cbv zeta.
  unfold Screenshot.detectSharpPixels, Screenshot.detectCrispEdges,
    Screenshot.detectColorDiversity. cbv zeta.
  unfold Screenshot.detectAspectRatio. cbv zeta.
  unfold Screenshot.detectResolution.
  destruct (F64.gt (F64.div (Screenshot.countBlockiness random w h data)
                            (F64.ofZ Screenshot.samples))
                   (F64.decimal 35 100)) eqn:Eblock;
  destruct (F64.gt (Screenshot.edgePixelRatio w h data) (F64.decimal 25 100)) eqn:Esharp;
  destruct (F64.gt (Screenshot.avgEdgeStrength w h data) (F64.ofZ 180)) eqn:Ecrisp;
  (destruct (F64.lt (Screenshot.colorDiversity data) (F64.decimal 3 100)) eqn:Elow;
   [|destruct (F64.lt (Screenshot.colorDiversity data) (F64.decimal 6 100)) eqn:Elim]);
  destruct (find _ Screenshot.commonRatios) as [[[ratio name] tolerance]|];
  destruct (existsb _ Screenshot.screenResolutions);
  intros Hv; score_cases Hv;
  (split; [first [reflexivity | apply below_003_below_006; assumption]|]);
  (split; [first [left; reflexivity | right; reflexivity]|]);
  rewrite ?length_app; cbn [List.length]; lia.
Qed.

(** X20.  The placeholder reason.  Either no signal fired, and the verdict
    is exactly [isScreenshot = false], [confidence = 0], [reason = Unknown];
    or some signal fired, the reason is not the placeholder and the
    confidence is at least 0.05, the smallest weight. *)
Theorem unknown_reason_iff_no_signal : forall random w h data,
  (Screenshot.reasons (Screenshot.runDetections random w h data) = []
   /\ Screenshot.analyze random w h data
      = {| Screenshot.isScreenshot := false;
           Screenshot.confidence := ofZ 0;
           Screenshot.reason := "Unknown" |})
  \/ (Screenshot.reasons (Screenshot.runDetections random w h data) <> []
      /\ Screenshot.reason (Screenshot.analyze random w h data) <> "Unknown"%string
      /\ exists s, Screenshot.confidence (Screenshot.analyze random w h data) = Fin s
                   /\ (0.05 <= s)%Q).
Proof.
  intros random w h data.
  unfold Screenshot.analyze. cbv zeta.
  cbn [Screenshot.isScreenshot Screenshot.confidence Screenshot.reason].
  unfold Screenshot.runDetections. cbv zeta.
  unfold Screenshot.detectBlockiness. cbv zeta.
  unfold Screenshot.detectSharpPixels, Screenshot.detectCrispEdges,
    Screenshot.detectColorDiversity. cbv zeta.
  unfold Screenshot.detectAspectRatio. cbv zeta.
  unfold Screenshot.detectResolution.
  destruct (F64.gt (F64.div (Screenshot.countBlockiness random w h data)
                            (F64.ofZ Screenshot.samples))
                   (F64.decimal 35 100));
  destruct (F64.gt (Screenshot.edgePixelRatio w h data) (F64.decimal 25 100));
  destruct (F64.gt (Screenshot.avgEdgeStrength w h data) (F64.ofZ 180));
  (destruct (F64.lt (Screenshot.colorDiversity data) (F64.decimal 3 100));
   [|destruct (F64.lt (Screenshot.colorDiversity data) (F64.decimal 6 100))]);
  destruct (find _ Screenshot.commonRatios) as [[[ratio name] tolerance]|];
  destruct (existsb _ Screenshot.screenResolutions);
  cbn [Screenshot.trigger Screenshot.detectionScore Screenshot.reasons app];
  first
    [ left; split; reflexivity
    | right; split; [discriminate|]; split;
      [ cbn [Screenshot.join fold_left append]; discriminate
      | eexists; split;
        [ vm_compute; reflexivity
        | apply Qle_bool_iff; vm_compute; reflexivity ] ] ].
Qed.

Lemma confidence_is_score : forall random w h data lo,
  scoreWithin lo 0.95 (Screenshot.runDetections random w h data) ->
  exists s, Screenshot.confidence (Screenshot.analyze random w h data) = Fin s
            /\ (lo <= s <= 0.95)%Q.
Proof.
  intros random w h data lo (s & Hs & Hb). exists s. split; [|assumption].
  unfold Screenshot.analyze. cbn [Screenshot.confidence]. rewrite Hs.
  unfold Math_min. cbn [isNaN orb ofZ].
  assert (Hlt : lt (Fin s) (ofZ 1) = true).
  { apply (gt_Fin (inject_Z 1) s). change (inject_Z 1) with 1%Q. lra. }
  now rewrite Hlt.
Qed.

(** X21.  The two tables overlap: each of the nine listed screen
    resolutions, in landscape orientation, also has one of the four listed
    aspect ratios, so an image of such a size starts with 0.20 + 0.15 and
    its confidence is at least 0.35 whatever its pixels. *)
Theorem listed_resolution_scores_at_least_035 : forall random w h data,
  In (w, h) Screenshot.screenResolutions ->
  exists s, Screenshot.confidence (Screenshot.analyze random w h data) = Fin s
            /\ (0.35 <= s <= 0.95)%Q.
Proof.
  intros random w h data Hin. apply confidence_is_score.
  assert (H2 : scoreWithin 0.35 0.35
                 (Screenshot.detectAspectRatio w h
                    (Screenshot.detectResolution w h
                       {| Screenshot.detectionScore := ofZ 0;
                          Screenshot.reasons := [] |}))).
  { unfold Screenshot.screenResolutions in Hin. cbn [In] in Hin.
    repeat (destruct Hin as [Hin|Hin];
            [injection Hin as <- <-; eexists; split;
             [vm_compute; reflexivity
             |split; apply Qle_bool_iff; vm_compute; reflexivity]|]).
    contradiction. }
  apply (score_detectColorDiversity data) in H2.
  apply (score_detectCrispEdges w h data) in H2.
  apply (score_detectSharpPixels w h data) in H2.
  apply (score_detectBlockiness random w h data) in H2.
  destruct H2 as (s & Hs & Hb). exists s. split; [exact Hs|lra].
Qed.

Lemma listed_resolution_scores_at_least_035_witness :
  exists s, Screenshot.confidence
              (Screenshot.analyze (fun _ => F64.ofZ 0) 1366 768 []) = Fin s
            /\ (0.35 <= s <= 0.95)%Q.
Proof.
  apply (listed_resolution_scores_at_least_035 (fun _ => F64.ofZ 0) 1366 768 []).
  right. right. left. reflexivity.
Defined.

(** A positive verdict: the 32x18 checkerboard has the 16:9 ratio, two
    colours, strong edges at the 20 sampled pixels outside its black corner,
    and a flat block at the position the draws select. *)
Example checkerboard_verdict :
  Screenshot.analyze (fun _ => F64.ofZ 0) 32 18 checkerboard
  = {| Screenshot.isScreenshot := true;
       Screenshot.confidence := Fin 0.7500000000;
       Screenshot.reason :=
         "Standard 16:9 aspect ratio; Extremely low color diversity: only 0% unique colors; Unusually crisp edges (text/UI-like); High number of sharp transitions; JPEG compression blockiness detected" |}.
Proof. vm_compute. reflexivity. Qed.

Lemma positive_verdict_requirements_witness :
  F64.lt (Screenshot.colorDiversity checkerboard) (F64.decimal 6 100) = true
  /\ (F64.gt (Screenshot.avgEdgeStrength 32 18 checkerboard) (F64.ofZ 180) = true
      \/ F64.gt (Screenshot.edgePixelRatio 32 18 checkerboard) (F64.decimal 25 100)
         = true)
  /\ (4 <= List.length (Screenshot.reasons
                          (Screenshot.runDetections (fun _ => F64.ofZ 0) 32 18
                             checkerboard)))%nat.
Proof.
  apply (positive_verdict_requirements (fun _ => F64.ofZ 0) 32 18 checkerboard).
  rewrite checkerboard_verdict. reflexivity.
Defined.

(** * Failures of the browser *)

(** X22.  [generatePerceptualHash] and [analyzeImageFeatures] reject exactly
    when the browser fails: the image does not load, no 2D context is
    available, or drawing on / reading from the canvas (of 32x32,
    respectively 256x256 pixels) throws; the rejection carries the fixed
    message of the first two cases and the thrown error in the third. *)
Theorem rejections_are_the_browser_failures : forall `{MathLib} (file : File),
  ((exists msg, generatePerceptualHash file = Rejected msg)
   <-> (loads file = false \/ context2d file = false
        \/ exists e, getImageData file 32 32 = Throw e))
  /\ ((exists msg, analyzeImageFeatures file = Rejected msg)
      <-> (loads file = false \/ context2d file = false
           \/ exists e, getImageData file 256 256 = Throw e))
  /\ (loads file = false ->
      generatePerceptualHash file = Rejected "Failed to load image"
      /\ analyzeImageFeatures file = Rejected "Failed to load image")
  /\ (loads file = true -> context2d file = false ->
      generatePerceptualHash file = Rejected "Could not get canvas context"
      /\ analyzeImageFeatures file = Rejected "Could not get canvas context")
  /\ (forall e, loads file = true -> context2d file = true ->
        (getImageData file 32 32 = Throw e ->
         generatePerceptualHash file = Rejected e)
        /\ (getImageData file 256 256 = Throw e ->
            analyzeImageFeatures file = Rejected e)).
Proof.
  intros M file. unfold generatePerceptualHash, analyzeImageFeatures.
  destruct (loads file) eqn:Hl.
  - destruct (context2d file) eqn:Hc; cbn [negb].
    + split; [|split; [|split; [discriminate|split; [discriminate|]]]].
      * destruct (getImageData file 32 32) as [pixels|error].
        -- split; [intros [msg E]; discriminate|].
           intros [E|[E|[e E]]]; discriminate.
        -- split; [intros _; right; right; now exists error|].
           intros _. now exists error.
      * destruct (getImageData file 256 256) as [pixels|error].
        -- split; [intros [msg E]; discriminate|].
           intros [E|[E|[e E]]]; discriminate.
        -- split; [intros _; right; right; now exists error|].
           intros _. now exists error.
      * intros e _ _. split; intros ->; reflexivity.
    + split; [split; [intros _; right; now left|intros _; eexists; reflexivity]|].
      split; [split; [intros _; right; now left|intros _; eexists; reflexivity]|].
      split; [discriminate|]. split; [intros _ _; split; reflexivity|].
      intros e _ E. discriminate.
  - split; [split; [intros _; now left|intros _; eexists; reflexivity]|].
    split; [split; [intros _; now left|intros _; eexists; reflexivity]|].
    split; [intros _; split; reflexivity|].
    split; [discriminate|]. intros e E. discriminate.
Qed.

(** * The unused edge detector *)

Lemma flat_map_constant_length :
  forall (A B : Type) (f : A -> list B) (c : nat) (l : list A),
  (forall x, List.length (f x) = c) ->
  List.length (flat_map f l) = (List.length l * c)%nat.
Proof.
  intros A B f c l Hf. induction l as [|x l IH]; [reflexivity|].
  cbn [flat_map List.length]. rewrite length_app, Hf, IH. lia.
Qed.

Lemma range_length : forall start stop step,
  0 < step ->
  List.length (range start stop step)
  = Z.to_nat ((stop - start + step - 1) / step).
Proof.
  intros. rewrite range_seq by assumption. now rewrite length_map, length_seq.
Qed.

Lemma every_other_index : forall stop x,
  In x (range 1 stop 2) -> In x (range 1 stop 1).
Proof.
  intros stop x Hx. apply in_range in Hx; [|lia].
  destruct Hx as (k & Hk & -> & Hlt). apply in_range; [lia|].
  exists (2 * k). lia.
Qed.

Section DetectEdges.
Context `{MathLib}.

(** X23.  [detectEdges] returns Sobel magnitudes that [computeEdgeFeatures]
    also computes (those of the odd rows and columns): each of its values
    occurs in the edge array of [computeEdgeFeatures], there are
    [floor((width - 1) / 2) * floor((height - 1) / 2)] of them, and on a
    well-formed image they are finite and not negative. *)
Theorem detectEdges_subsamples_sobelEdges : forall imageData,
  incl (detectEdges imageData) (sobelEdges imageData)
  /\ List.length (detectEdges imageData)
     = (Z.to_nat ((height imageData - 1) / 2)
        * Z.to_nat ((width imageData - 1) / 2))%nat
  /\ (Z.of_nat (List.length (data imageData))
      = 4 * width imageData * height imageData ->
      Forall isNonNegative (detectEdges imageData)).
Proof.
  intros imageData.
  assert (Hincl : incl (detectEdges imageData) (sobelEdges imageData)).
  { intros e He. unfold detectEdges in He. unfold sobelEdges.
    apply in_flat_map in He as (y & Hy & He).
    apply in_map_iff in He as (x & <- & Hx).
    apply in_flat_map. exists y. split; [now apply every_other_index|].
    apply in_map_iff. exists x. split; [reflexivity|].
    now apply every_other_index. }
  split; [exact Hincl|]. split.
  - unfold detectEdges.
    rewrite (flat_map_constant_length _ _ _
               (Z.to_nat ((width imageData - 1) / 2))).
    + rewrite range_length by lia. f_equal. f_equal. f_equal. lia.
    + intros y. rewrite length_map, range_length by lia. f_equal. f_equal. lia.
  - intros Hlen. pose proof (sobelEdges_nonnegative imageData Hlen) as Hnn.
    rewrite Forall_forall in *. intros e He. apply Hnn. now apply Hincl.
Qed.

End DetectEdges.

(** * The analysis at a concrete input *)

Lemma blankCanvas_size :
  Z.of_nat (List.length (repeat x00 (Z.to_nat (4 * 256 * 256)))) = 4 * 256 * 256.
Proof. rewrite repeat_length. now rewrite Z2Nat.id by lia. Qed.

Lemma analysis_resolves_with_finite_features_witness :
  exists features,
    analyzeImageFeatures blankCanvas = Resolved features
    /\ wellFormedFeatures features.
Proof.
  apply (analysis_resolves_with_finite_features
           blankCanvas (repeat x00 (Z.to_nat (4 * 256 * 256)))).
  - reflexivity.
  - reflexivity.
  - reflexivity.
  - exact blankCanvas_size.
Defined.

Lemma comparison_of_analysed_images_is_finite_witness :
  exists features1 features2,
    analyzeImageFeatures blankCanvas = Resolved features1
    /\ analyzeImageFeatures blankCanvas = Resolved features2
    /\ isFinite (compareImageFeatures features1 features2) = true.
Proof.
  apply (comparison_of_analysed_images_is_finite
           blankCanvas blankCanvas
           (repeat x00 (Z.to_nat (4 * 256 * 256)))
           (repeat x00 (Z.to_nat (4 * 256 * 256)))).
  - reflexivity.
  - reflexivity.
  - reflexivity.
  - exact blankCanvas_size.
  - reflexivity.
  - reflexivity.
  - reflexivity.
  - exact blankCanvas_size.
Defined.
